(** * noise-repellent: the frame-wise denoising pipeline

    A shallow embedding of the spectral gain rules, the FFT denoiser, the
    transient detector and the plugin state of noise-repellent, with the
    properties of the design document proved or refuted on it.

    The C sources compute in single precision.  The embedding is written
    once over an interface [Arith] of the operations the C code uses on
    [float], and is read at two instances:
    - [b32], IEEE-754 binary32 with round-to-nearest-even, built on the
      executable specification [SpecFloat] of the standard library; this is
      what the compiled code computes;
    - [Rarith], exact real arithmetic, for statements phrased with
      real-valued functions such as [10^(dB/10)]. *)

From Stdlib Require Import ZArith List Bool Lia Reals Lra Psatz.
From Stdlib Require Import Floats.SpecFloat.
From Stdlib Require String.
From coqutil Require Import Byte LittleEndianList.
Import ListNotations.

#[local] Set Default Goal Selector "1".

(** ** The arithmetic of the C [float] type *)

Class Arith : Type := {
  num : Type;
  (** [(float) i], and the integer literals [0.f], [1.f], [5.f], ... *)
  of_int : Z -> num;
  (** [FLT_MIN] of [<float.h>], the least positive normal number *)
  FLT_MIN : num;
  (** the literal [0.02f] *)
  lit_0_02 : num;
  add : num -> num -> num;
  sub : num -> num -> num;
  mul : num -> num -> num;
  div : num -> num -> num;
  (** [a < b] and [a <= b]; [a > b] is [b < a] *)
  lt : num -> num -> bool;
  le : num -> num -> bool;
  sqrtf : num -> num;
  fabsf : num -> num;
  fmaxf : num -> num -> num;
  (** [overlay_bytes n src dst]: the object whose first [n] bytes
      ([0 < n < sizeof(float)]) are those of [src] and whose remaining bytes
      are those of [dst]; what a [memcpy] that stops inside a [float]
      leaves there. *)
  overlay_bytes : nat -> num -> num -> num
}.

Declare Scope arith_scope.
Delimit Scope arith_scope with A.
Notation "a [+] b" := (add a b) (at level 50, left associativity) : arith_scope.
Notation "a [-] b" := (sub a b) (at level 50, left associativity) : arith_scope.
Notation "a [*] b" := (mul a b) (at level 40, left associativity) : arith_scope.
Notation "a [/] b" := (div a b) (at level 40, left associativity) : arith_scope.
Notation "a [<] b" := (lt a b) (at level 60, no associativity) : arith_scope.
Notation "a [<=] b" := (le a b) (at level 60, no associativity) : arith_scope.
Notation "a [>] b" := (lt b a) (at level 60, no associativity) : arith_scope.
Notation "a [>=] b" := (le b a) (at level 60, no associativity) : arith_scope.
Notation "# z" := (of_int z) (at level 9, format "# z") : arith_scope.
Local Open Scope arith_scope.

(** [sizeof(float)] *)
Definition sizeof_float : nat := 4.

(** ** Arrays and loops *)

Section Arrays.
Context {A : Arith}.

(** [a[k]]; the buffers of the program are allocated with all the entries
    the loops touch, reads outside an allocation are undefined in C and
    give [0.f] here. *)
Definition aget (a : list num) (k : nat) : num := nth k a #0.

(** [a[k] = v]; a write outside the allocation leaves the list as it is. *)
Fixpoint aset (a : list num) (k : nat) (v : num) : list num :=
  match a, k with
  | [], _ => []
  | _ :: t, O => v :: t
  | h :: t, S k' => h :: aset t k' v
  end.

(** [calloc(n, sizeof(float))] *)
Definition calloc (n : nat) : list num := repeat #0 n.

(** [memcpy(dst, src, n)] for [n] bytes between two [float] arrays: whole
    entries first, then the first [n mod 4] bytes of the next entry. *)
Definition memcpy (dst src : list num) (n : nat) : list num :=
  let q := (n / sizeof_float)%nat in
  let r := (n mod sizeof_float)%nat in
  let whole :=
    fold_left (fun d k => aset d k (aget src k)) (seq 0 q) dst in
  match r with
  | O => whole
  | _ => aset whole q (overlay_bytes r (aget src q) (aget dst q))
  end.
End Arrays.

(** [for (k = lo; k <= hi; k++) body], threading the state [s]. *)
Fixpoint for_loop {St : Type} (n k : nat) (body : nat -> St -> St) (s : St) : St :=
  match n with
  | O => s
  | S n' => for_loop n' (S k) body (body k s)
  end.

Definition for_range {St : Type} (lo hi : nat) (body : nat -> St -> St) (s : St) : St :=
  for_loop (S hi - lo) lo body s.

(** ** The suppression rules *)

Section GainRules.
Context {A : Arith}.

(** Modelled from the spec: the macro [MAX] is used by the gain rules and
    defined in none of the sources; it is the usual
    [((a) > (b) ? (a) : (b))], the [max(., 0)] of the design document. *)
Definition MAX (a b : num) : num := if a [>] b then a else b.

(** The body of the loop of [nonlinear_power_sustraction] at one bin. *)
Definition nonlinear_gain (snr_influence spectrum_k noise_k : num) : num :=
  if spectrum_k [>] #0 then
    let alpha :=
      if snr_influence [>] #0
      then snr_influence [+] sqrtf (spectrum_k [/] noise_k)
      else #1 in
    MAX (spectrum_k [-] alpha [*] noise_k) #0 [/] spectrum_k
  else #0.

Definition nonlinear_clamp (gain : num) : num :=
  let Fk := #1 [-] gain in
  let Fk := if Fk [<] #0 then #0 else Fk in
  let Fk := if Fk [>] #1 then #1 else Fk in
  #1 [-] Fk.

Definition nonlinear_power_sustraction_bin (snr_influence spectrum_k noise_k : num) : num :=
  if noise_k [>] FLT_MIN
  then nonlinear_clamp (nonlinear_gain snr_influence spectrum_k noise_k)
  else #1.

Definition nonlinear_power_sustraction (snr_influence : num) (fft_size_2 : nat)
    (spectrum noise_thresholds Gk : list num) : list num :=
  for_range 0 fft_size_2 (fun k Gk =>
    aset Gk k (nonlinear_power_sustraction_bin snr_influence
                 (aget spectrum k) (aget noise_thresholds k))) Gk.

Definition power_sustraction_bin (spectrum_k noise_k : num) : num :=
  if noise_k [>] FLT_MIN then
    if spectrum_k [>] noise_k
    then (spectrum_k [-] noise_k) [/] spectrum_k
    else #0
  else #1.

Definition power_sustraction (fft_size_2 : nat)
    (spectrum noise_thresholds Gk : list num) : list num :=
  for_range 0 fft_size_2 (fun k Gk =>
    aset Gk k (power_sustraction_bin (aget spectrum k) (aget noise_thresholds k))) Gk.

Definition spectral_gating_bin (spectrum_k noise_k : num) : num :=
  if noise_k [>] FLT_MIN then
    if spectrum_k [>=] noise_k then #1 else #0
  else #1.

Definition spectral_gating (fft_size_2 : nat)
    (spectrum noise_thresholds Gk : list num) : list num :=
  for_range 0 fft_size_2 (fun k Gk =>
    aset Gk k (spectral_gating_bin (aget spectrum k) (aget noise_thresholds k))) Gk.

(** The first loop of [wideband_gating]: the two running sums. *)
Definition wideband_sums (fft_size_2 : nat) (spectrum noise_thresholds : list num)
    : num * num :=
  for_range 0 fft_size_2 (fun k '(x_value, n_value) =>
    (x_value [+] aget spectrum k, n_value [+] aget noise_thresholds k)) (#0, #0).

Definition wideband_gating_bin (x_value n_value : num) : num :=
  if n_value [>] FLT_MIN then
    if x_value [>=] n_value then #1 else #0
  else #1.

Definition wideband_gating (fft_size_2 : nat)
    (spectrum noise_thresholds Gk : list num) : list num :=
  let '(x_value, n_value) := wideband_sums fft_size_2 spectrum noise_thresholds in
  for_range 0 fft_size_2 (fun k Gk =>
    aset Gk k (wideband_gating_bin x_value n_value)) Gk.
End GainRules.

(** ** [data_types.h] *)

Section DataTypes.
Context {A : Arith}.

Record NoiseProfile : Type := {
  noise_profile_size : nat;
  noise_profile_values : list num   (** the array behind [float *noise_profile] *)
}.

(** The values the frame reads through the parameter set. *)
Record DenoiseParameters : Type := {
  enable : bool;
  learn_noise : bool;
  residual_listen : bool;
  reduction_amount : num;
  release_time : num;
  masking_ceiling_limit : num;
  whitening_factor : num;
  transient_threshold : num;
  noise_rescale : num
}.
End DataTypes.

(** ** External collaborators of the denoiser

    [<math.h>], and the two estimators whose sources are elsewhere. *)

Record Libm {A : Arith} : Type := {
  expf : num -> num;
  logf : num -> num;
  atan2f : num -> num -> num;
  (** [-2.f * M_PI * 25.f * 64.f / samp_rate], which C evaluates in double
      precision and hands to [expf] as a [float] *)
  wet_dry_exponent : nat -> num
}.

Record Estimators {A : Arith} : Type := {
  NoiseEstimator : Type;
  GainEstimator : Type;
  noise_estimation_initialize : nat -> NoiseEstimator;
  gain_estimation_initialize : nat -> nat -> nat -> GainEstimator;
  (** updates the estimator and, in place, the noise spectrum it is given *)
  noise_estimation_run :
    NoiseEstimator -> list num -> list num -> NoiseEstimator * list num;
  is_noise_estimation_available : NoiseEstimator -> bool;
  (** updates the estimator and, in place, the gain spectrum it is given;
      arguments: signal spectrum, noise spectrum, gain spectrum, transient
      protection, masking, release, noise rescale *)
  gain_estimation_run :
    GainEstimator -> list num -> list num -> list num ->
    num -> num -> num -> num -> GainEstimator * list num
}.

(** ** [fft_denoiser.c] *)

Section FftDenoiser.
Context {A : Arith} (M : Libm) {E : Estimators}.

Definition WHITENING_DECAY_RATE : num := #1000.
Definition WHITENING_FLOOR : num := lit_0_02.

(** The [int] fields hold sizes and a frame count: they are natural numbers
    here, within the range of [int]; the arrays are lists of the length they
    are allocated with. *)
#[projections(primitive)] Record FFTDenoiser : Type := {
  fft_size : nat;
  half_fft_size : nat;
  samp_rate : nat;
  hop : nat;
  fft_spectrum : list num;
  processed_fft_spectrum : list num;
  tau : num;
  wet_dry_target : num;
  wet_dry : num;
  gain_spectrum : list num;
  residual_spectrum : list num;
  denoised_spectrum : list num;
  whitened_residual_spectrum : list num;
  power_spectrum : list num;
  phase_spectrum : list num;
  magnitude_spectrum : list num;
  gain_estimation : GainEstimator E;
  noise_estimation : NoiseEstimator E;
  noise_profile : NoiseProfile;
  denoise_parameters : DenoiseParameters;
  residual_max_spectrum : list num;
  max_decay_rate : num;
  whitening_window_count : nat
}.

Definition set_fft_spectrum (v : list num) (self : FFTDenoiser) : FFTDenoiser :=
  let 'Build_FFTDenoiser a0 a1 a2 a3 _ a5 a6 a7 a8 a9 a10 a11 a12 a13 a14 a15 a16 a17 a18 a19 a20 a21 a22 := self in
  Build_FFTDenoiser a0 a1 a2 a3 v a5 a6 a7 a8 a9 a10 a11 a12 a13 a14 a15 a16 a17 a18 a19 a20 a21 a22.

Definition set_processed_fft_spectrum (v : list num) (self : FFTDenoiser) : FFTDenoiser :=
  let 'Build_FFTDenoiser a0 a1 a2 a3 a4 _ a6 a7 a8 a9 a10 a11 a12 a13 a14 a15 a16 a17 a18 a19 a20 a21 a22 := self in
  Build_FFTDenoiser a0 a1 a2 a3 a4 v a6 a7 a8 a9 a10 a11 a12 a13 a14 a15 a16 a17 a18 a19 a20 a21 a22.

Definition set_wet_dry_target (v : num) (self : FFTDenoiser) : FFTDenoiser :=
  let 'Build_FFTDenoiser a0 a1 a2 a3 a4 a5 a6 _ a8 a9 a10 a11 a12 a13 a14 a15 a16 a17 a18 a19 a20 a21 a22 := self in
  Build_FFTDenoiser a0 a1 a2 a3 a4 a5 a6 v a8 a9 a10 a11 a12 a13 a14 a15 a16 a17 a18 a19 a20 a21 a22.

Definition set_wet_dry (v : num) (self : FFTDenoiser) : FFTDenoiser :=
  let 'Build_FFTDenoiser a0 a1 a2 a3 a4 a5 a6 a7 _ a9 a10 a11 a12 a13 a14 a15 a16 a17 a18 a19 a20 a21 a22 := self in
  Build_FFTDenoiser a0 a1 a2 a3 a4 a5 a6 a7 v a9 a10 a11 a12 a13 a14 a15 a16 a17 a18 a19 a20 a21 a22.

Definition set_gain_spectrum (v : list num) (self : FFTDenoiser) : FFTDenoiser :=
  let 'Build_FFTDenoiser a0 a1 a2 a3 a4 a5 a6 a7 a8 _ a10 a11 a12 a13 a14 a15 a16 a17 a18 a19 a20 a21 a22 := self in
  Build_FFTDenoiser a0 a1 a2 a3 a4 a5 a6 a7 a8 v a10 a11 a12 a13 a14 a15 a16 a17 a18 a19 a20 a21 a22.

Definition set_residual_spectrum (v : list num) (self : FFTDenoiser) : FFTDenoiser :=
  let 'Build_FFTDenoiser a0 a1 a2 a3 a4 a5 a6 a7 a8 a9 _ a11 a12 a13 a14 a15 a16 a17 a18 a19 a20 a21 a22 := self in
  Build_FFTDenoiser a0 a1 a2 a3 a4 a5 a6 a7 a8 a9 v a11 a12 a13 a14 a15 a16 a17 a18 a19 a20 a21 a22.

Definition set_denoised_spectrum (v : list num) (self : FFTDenoiser) : FFTDenoiser :=
  let 'Build_FFTDenoiser a0 a1 a2 a3 a4 a5 a6 a7 a8 a9 a10 _ a12 a13 a14 a15 a16 a17 a18 a19 a20 a21 a22 := self in
  Build_FFTDenoiser a0 a1 a2 a3 a4 a5 a6 a7 a8 a9 a10 v a12 a13 a14 a15 a16 a17 a18 a19 a20 a21 a22.

Definition set_whitened_residual_spectrum (v : list num) (self : FFTDenoiser) : FFTDenoiser :=
  let 'Build_FFTDenoiser a0 a1 a2 a3 a4 a5 a6 a7 a8 a9 a10 a11 _ a13 a14 a15 a16 a17 a18 a19 a20 a21 a22 := self in
  Build_FFTDenoiser a0 a1 a2 a3 a4 a5 a6 a7 a8 a9 a10 a11 v a13 a14 a15 a16 a17 a18 a19 a20 a21 a22.

Definition set_power_spectrum (v : list num) (self : FFTDenoiser) : FFTDenoiser :=
  let 'Build_FFTDenoiser a0 a1 a2 a3 a4 a5 a6 a7 a8 a9 a10 a11 a12 _ a14 a15 a16 a17 a18 a19 a20 a21 a22 := self in
  Build_FFTDenoiser a0 a1 a2 a3 a4 a5 a6 a7 a8 a9 a10 a11 a12 v a14 a15 a16 a17 a18 a19 a20 a21 a22.

Definition set_phase_spectrum (v : list num) (self : FFTDenoiser) : FFTDenoiser :=
  let 'Build_FFTDenoiser a0 a1 a2 a3 a4 a5 a6 a7 a8 a9 a10 a11 a12 a13 _ a15 a16 a17 a18 a19 a20 a21 a22 := self in
  Build_FFTDenoiser a0 a1 a2 a3 a4 a5 a6 a7 a8 a9 a10 a11 a12 a13 v a15 a16 a17 a18 a19 a20 a21 a22.

Definition set_magnitude_spectrum (v : list num) (self : FFTDenoiser) : FFTDenoiser :=
  let 'Build_FFTDenoiser a0 a1 a2 a3 a4 a5 a6 a7 a8 a9 a10 a11 a12 a13 a14 _ a16 a17 a18 a19 a20 a21 a22 := self in
  Build_FFTDenoiser a0 a1 a2 a3 a4 a5 a6 a7 a8 a9 a10 a11 a12 a13 a14 v a16 a17 a18 a19 a20 a21 a22.

Definition set_gain_estimation (v : GainEstimator E) (self : FFTDenoiser) : FFTDenoiser :=
  let 'Build_FFTDenoiser a0 a1 a2 a3 a4 a5 a6 a7 a8 a9 a10 a11 a12 a13 a14 a15 _ a17 a18 a19 a20 a21 a22 := self in
  Build_FFTDenoiser a0 a1 a2 a3 a4 a5 a6 a7 a8 a9 a10 a11 a12 a13 a14 a15 v a17 a18 a19 a20 a21 a22.

Definition set_noise_estimation (v : NoiseEstimator E) (self : FFTDenoiser) : FFTDenoiser :=
  let 'Build_FFTDenoiser a0 a1 a2 a3 a4 a5 a6 a7 a8 a9 a10 a11 a12 a13 a14 a15 a16 _ a18 a19 a20 a21 a22 := self in
  Build_FFTDenoiser a0 a1 a2 a3 a4 a5 a6 a7 a8 a9 a10 a11 a12 a13 a14 a15 a16 v a18 a19 a20 a21 a22.

Definition set_noise_profile (v : NoiseProfile) (self : FFTDenoiser) : FFTDenoiser :=
  let 'Build_FFTDenoiser a0 a1 a2 a3 a4 a5 a6 a7 a8 a9 a10 a11 a12 a13 a14 a15 a16 a17 _ a19 a20 a21 a22 := self in
  Build_FFTDenoiser a0 a1 a2 a3 a4 a5 a6 a7 a8 a9 a10 a11 a12 a13 a14 a15 a16 a17 v a19 a20 a21 a22.

Definition set_denoise_parameters (v : DenoiseParameters) (self : FFTDenoiser) : FFTDenoiser :=
  let 'Build_FFTDenoiser a0 a1 a2 a3 a4 a5 a6 a7 a8 a9 a10 a11 a12 a13 a14 a15 a16 a17 a18 _ a20 a21 a22 := self in
  Build_FFTDenoiser a0 a1 a2 a3 a4 a5 a6 a7 a8 a9 a10 a11 a12 a13 a14 a15 a16 a17 a18 v a20 a21 a22.

Definition set_residual_max_spectrum (v : list num) (self : FFTDenoiser) : FFTDenoiser :=
  let 'Build_FFTDenoiser a0 a1 a2 a3 a4 a5 a6 a7 a8 a9 a10 a11 a12 a13 a14 a15 a16 a17 a18 a19 _ a21 a22 := self in
  Build_FFTDenoiser a0 a1 a2 a3 a4 a5 a6 a7 a8 a9 a10 a11 a12 a13 a14 a15 a16 a17 a18 a19 v a21 a22.

Definition set_whitening_window_count (v : nat) (self : FFTDenoiser) : FFTDenoiser :=
  let 'Build_FFTDenoiser a0 a1 a2 a3 a4 a5 a6 a7 a8 a9 a10 a11 a12 a13 a14 a15 a16 a17 a18 a19 a20 a21 _ := self in
  Build_FFTDenoiser a0 a1 a2 a3 a4 a5 a6 a7 a8 a9 a10 a11 a12 a13 a14 a15 a16 a17 a18 a19 a20 a21 v.

Definition fft_denoiser_initialize (samp_rate fft_size overlap_factor : nat)
    : FFTDenoiser :=
  let half_fft_size := (fft_size / 2)%nat in
  let hop := (fft_size / overlap_factor)%nat in
  {| fft_size := fft_size;
     half_fft_size := half_fft_size;
     hop := hop;
     samp_rate := samp_rate;
     fft_spectrum := calloc fft_size;
     processed_fft_spectrum := calloc (half_fft_size + 1);
     tau := #1 [-] expf M (wet_dry_exponent M samp_rate);
     wet_dry_target := #0;
     wet_dry := #0;
     residual_max_spectrum := calloc (half_fft_size + 1);
     max_decay_rate :=
       expf M (#(-1000) [/] ((WHITENING_DECAY_RATE [*] #(Z.of_nat samp_rate))
                              [/] #(Z.of_nat hop)));
     residual_spectrum := calloc (half_fft_size + 1);
     denoised_spectrum := calloc (half_fft_size + 1);
     gain_spectrum := calloc (half_fft_size + 1);
     whitened_residual_spectrum := calloc (half_fft_size + 1);
     whitening_window_count := 0;
     gain_estimation := gain_estimation_initialize E fft_size samp_rate hop;
     noise_estimation := noise_estimation_initialize E fft_size;
     power_spectrum := calloc (half_fft_size + 1);
     magnitude_spectrum := calloc (half_fft_size + 1);
     phase_spectrum := calloc (half_fft_size + 1);
     (* [calloc]: the parameters are zero and there is no profile yet;
        [load_noise_profile] is called before the first frame *)
     noise_profile := {| noise_profile_size := 0; noise_profile_values := [] |};
     denoise_parameters :=
       {| enable := false; learn_noise := false; residual_listen := false;
          reduction_amount := #0; release_time := #0;
          masking_ceiling_limit := #0; whitening_factor := #0;
          transient_threshold := #0; noise_rescale := #0 |} |}.

Definition load_denoise_parameters (self : FFTDenoiser)
    (new_parameters : DenoiseParameters) : FFTDenoiser :=
  set_denoise_parameters new_parameters self.

Definition load_noise_profile (self : FFTDenoiser) (noise_profile : NoiseProfile)
    : FFTDenoiser :=
  set_noise_profile noise_profile self.

Definition get_info_from_bins (fft_power fft_magnitude fft_phase : list num)
    (half_fft_size fft_size : nat) (fft_buffer : list num)
    : list num * list num * list num :=
  let real_bin := aget fft_buffer 0 in
  let fft_power := aset fft_power 0 (real_bin [*] real_bin) in
  let fft_magnitude := aset fft_magnitude 0 real_bin in
  let fft_phase := aset fft_phase 0 (atan2f M real_bin #0) in
  for_range 1 half_fft_size
    (fun k '(fft_power, fft_magnitude, fft_phase) =>
       let real_bin := aget fft_buffer k in
       let imag_bin := aget fft_buffer (fft_size - k) in
       let '(power, magnitude, phase) :=
         if (k <? half_fft_size)%nat then
           let power := real_bin [*] real_bin [+] imag_bin [*] imag_bin in
           (power, sqrtf power, atan2f M real_bin imag_bin)
         else
           (real_bin [*] real_bin, real_bin, atan2f M real_bin #0) in
       (aset fft_power k power, aset fft_magnitude k magnitude,
        aset fft_phase k phase))
    (fft_power, fft_magnitude, fft_phase).

(** [for (k = 1; k <= N; k++) if (spectrum[k] > FLT_MIN) return false;] *)
Fixpoint is_empty_loop (spectrum : list num) (n k : nat) : bool :=
  match n with
  | O => true
  | S n' =>
      if aget spectrum k [>] FLT_MIN then false
      else is_empty_loop spectrum n' (S k)
  end.

Definition is_empty (spectrum : list num) (N : nat) : bool :=
  is_empty_loop spectrum N 1.

Definition fft_denoiser_update_wetdry_target (self : FFTDenoiser) (enable : bool)
    : FFTDenoiser :=
  let self := set_wet_dry_target (if enable then #1 else #0) self in
  set_wet_dry
    (wet_dry self
       [+] (tau self [*] (wet_dry_target self [-] wet_dry self) [+] FLT_MIN))
    self.

Definition fft_denoiser_soft_bypass (self : FFTDenoiser) : FFTDenoiser :=
  for_range 1 (half_fft_size self) (fun k self =>
    set_processed_fft_spectrum
      (aset (processed_fft_spectrum self) k
         ((#1 [-] wet_dry self) [*] aget (fft_spectrum self) k
          [+] aget (processed_fft_spectrum self) k [*] wet_dry self))
      self) self.

Definition residual_spectrum_whitening (self : FFTDenoiser) (whitening_factor : num)
    : FFTDenoiser :=
  let self := set_whitening_window_count (S (whitening_window_count self)) self in
  let self :=
    for_range 1 (half_fft_size self) (fun k self =>
      if #(Z.of_nat (whitening_window_count self)) [>] #1 then
        set_residual_max_spectrum
          (aset (residual_max_spectrum self) k
             (fmaxf (fmaxf (aget (residual_spectrum self) k) WHITENING_FLOOR)
                    (aget (residual_max_spectrum self) k [*] max_decay_rate self)))
          self
      else
        set_residual_max_spectrum
          (aset (residual_max_spectrum self) k
             (fmaxf (aget (residual_spectrum self) k) WHITENING_FLOOR))
          self) self in
  for_range 1 (half_fft_size self) (fun k self =>
    if aget (residual_spectrum self) k [>] FLT_MIN then
      let self :=
        set_whitened_residual_spectrum
          (aset (whitened_residual_spectrum self) k
             (aget (residual_spectrum self) k [/] aget (residual_max_spectrum self) k))
          self in
      set_residual_spectrum
        (aset (residual_spectrum self) k
           ((#1 [-] whitening_factor) [*] aget (residual_spectrum self) k
            [+] whitening_factor [*] aget (whitened_residual_spectrum self) k))
        self
    else self) self.

Definition get_denoised_spectrum (self : FFTDenoiser) : FFTDenoiser :=
  for_range 1 (half_fft_size self) (fun k self =>
    set_denoised_spectrum
      (aset (denoised_spectrum self) k
         (aget (fft_spectrum self) k [*] aget (gain_spectrum self) k))
      self) self.

Definition get_residual_spectrum (self : FFTDenoiser) (whitening_factor : num)
    : FFTDenoiser :=
  let self :=
    for_range 1 (half_fft_size self) (fun k self =>
      set_residual_spectrum
        (aset (residual_spectrum self) k
           (aget (fft_spectrum self) k [-] aget (denoised_spectrum self) k))
        self) self in
  if whitening_factor [>] #0
  then residual_spectrum_whitening self whitening_factor
  else self.

Definition get_final_spectrum (self : FFTDenoiser) (residual_listen : bool)
    (reduction_amount : num) : FFTDenoiser :=
  if residual_listen then
    for_range 1 (half_fft_size self) (fun k self =>
      set_processed_fft_spectrum
        (aset (processed_fft_spectrum self) k (aget (residual_spectrum self) k))
        self) self
  else
    for_range 1 (half_fft_size self) (fun k self =>
      set_processed_fft_spectrum
        (aset (processed_fft_spectrum self) k
           (aget (denoised_spectrum self) k
            [+] aget (residual_spectrum self) k [*] reduction_amount))
        self) self.

Definition from_db_to_cv (gain_db : num) : num :=
  expf M (gain_db [/] #10 [*] logf M #10).

(** [fft_denoiser_run] up to the emptiness test: the wet/dry update, the
    copy of the frame and its decomposition into power, magnitude and
    phase. *)
Definition fft_denoiser_run_analysis (self : FFTDenoiser) (fft_spectrum_io : list num)
    : FFTDenoiser :=
  let self := fft_denoiser_update_wetdry_target self (enable (denoise_parameters self)) in
  let self :=
    set_fft_spectrum
      (memcpy (fft_spectrum self) fft_spectrum_io (sizeof_float * fft_size self))
      self in
  let '(pw, mg, ph) :=
    get_info_from_bins (power_spectrum self) (magnitude_spectrum self)
      (phase_spectrum self) (half_fft_size self) (fft_size self)
      (fft_spectrum self) in
  set_phase_spectrum ph (set_magnitude_spectrum mg (set_power_spectrum pw self)).

(** The block of [fft_denoiser_run] guarded by [is_empty]: estimation of the
    noise, or of the gain with the denoised, residual and final spectra. *)
Definition fft_denoiser_run_processing (self : FFTDenoiser) : FFTDenoiser :=
  let p := denoise_parameters self in
  let transient_protection := transient_threshold p in
  let masking := masking_ceiling_limit p [/] #100 in
  let release := release_time p in
  let noise_rescale := noise_rescale p in
  let reduction_amount := from_db_to_cv (reduction_amount p [*] #(-1)) in
  let whitening_factor := whitening_factor p in
  let noise_spectrum := noise_profile_values (noise_profile self) in
  if negb (is_empty (power_spectrum self) (half_fft_size self)) then
    if learn_noise p then
      let '(ne, noise_spectrum) :=
        noise_estimation_run E (noise_estimation self) noise_spectrum
          (power_spectrum self) in
      set_noise_profile
        {| noise_profile_size := noise_profile_size (noise_profile self);
           noise_profile_values := noise_spectrum |}
        (set_noise_estimation ne self)
    else if is_noise_estimation_available E (noise_estimation self) then
      let '(ge, gain) :=
        gain_estimation_run E (gain_estimation self) (power_spectrum self)
          noise_spectrum (gain_spectrum self)
          transient_protection masking release noise_rescale in
      let self := set_gain_spectrum gain (set_gain_estimation ge self) in
      let self := get_denoised_spectrum self in
      let self := get_residual_spectrum self whitening_factor in
      get_final_spectrum self (residual_listen p) reduction_amount
    else self
  else self.

(** [fft_denoiser_run]: the new state and the frame as the call leaves it. *)
Definition fft_denoiser_run (self : FFTDenoiser) (fft_spectrum_io : list num)
    : FFTDenoiser * list num :=
  let self := fft_denoiser_run_analysis self fft_spectrum_io in
  let self := fft_denoiser_run_processing self in
  let self := fft_denoiser_soft_bypass self in
  (self,
   memcpy fft_spectrum_io (processed_fft_spectrum self)
     (sizeof_float * half_fft_size self + 1)).
End FftDenoiser.

Arguments FFTDenoiser {A} E.
Arguments fft_denoiser_initialize {A} M E samp_rate fft_size overlap_factor.

(** ** IEEE-754 binary32

    [SpecFloat] is parameterised by the precision and the exponent of the
    infinities; binary32 is [prec = 24], [emax = 128]. *)

Module B32.
Definition float32 : Type := spec_float.

(** Correctly rounded conversion from an integer. *)
Definition b32_of_int (z : Z) : float32 := binary_normalize 24 128 z 0 false.

Definition b32_zero : float32 := S754_zero false.
Definition b32_one : float32 := S754_finite false 8388608 (-23).
(** [FLT_MIN = 2^-126] *)
Definition b32_FLT_MIN : float32 := S754_finite false 8388608 (-149).
(** [0.02f = 10737418 * 2^-29] *)
Definition b32_0_02 : float32 := S754_finite false 10737418 (-29).

Definition b32_fmaxf (a b : float32) : float32 :=
  match a, b with
  | S754_nan, _ => b
  | _, S754_nan => a
  | _, _ => if SFltb a b then b else a
  end.

(** The 32 bits of a value, and the value of 32 bits (a NaN carries no
    payload in [spec_float]; it is written as the quiet NaN [0x7fc00000]). *)
Definition bits_of_b32 (x : float32) : Z :=
  let sign (s : bool) : Z := if s then 2147483648%Z else 0%Z in
  match x with
  | S754_zero s => sign s
  | S754_infinity s => sign s + 2139095040
  | S754_nan => 2143289344
  | S754_finite s m e =>
      if Z.eqb (Zpos (digits2_pos m)) 24
      then sign s + (e + 150) * 8388608 + (Zpos m - 8388608)
      else sign s + Zpos m
  end%Z.

Definition b32_of_bits (z : Z) : float32 :=
  let s := Z.testbit z 31 in
  let e := ((z / 8388608) mod 256)%Z in
  let f := (z mod 8388608)%Z in
  if Z.eqb e 0 then
    match f with
    | Zpos m => S754_finite s m (-149)
    | _ => S754_zero s
    end
  else if Z.eqb e 255 then
    if Z.eqb f 0 then S754_infinity s else S754_nan
  else
    match (f + 8388608)%Z with
    | Zpos m => S754_finite s m (e - 150)
    | _ => S754_nan
    end.

(** Little-endian memory: the first [n] bytes are the low-order ones. *)
Definition b32_overlay_bytes (n : nat) (src dst : float32) : float32 :=
  let k := (256 ^ Z.of_nat n)%Z in
  b32_of_bits ((bits_of_b32 dst / k) * k + bits_of_b32 src mod k)%Z.
End B32.

Definition b32 : Arith :=
  {| num := B32.float32;
     of_int := B32.b32_of_int;
     FLT_MIN := B32.b32_FLT_MIN;
     lit_0_02 := B32.b32_0_02;
     add := SFadd 24 128;
     sub := SFsub 24 128;
     mul := SFmul 24 128;
     div := SFdiv 24 128;
     lt := SFltb;
     le := SFleb;
     sqrtf := SFsqrt 24 128;
     fabsf := SFabs;
     fmaxf := B32.b32_fmaxf;
     overlay_bytes := B32.b32_overlay_bytes |}.

(** ** Exact real arithmetic *)

Module RealArith.
Definition Rltb (a b : R) : bool := if Rlt_dec a b then true else false.
Definition Rleb (a b : R) : bool := if Rle_dec a b then true else false.

(** The two-argument arc tangent. *)
Definition Ratan2 (y x : R) : R :=
  if Rlt_dec 0 x then atan (y / x)
  else if Rlt_dec x 0 then
    (if Rle_dec 0 y then atan (y / x) + PI else atan (y / x) - PI)
  else if Rlt_dec 0 y then PI / 2
  else if Rlt_dec y 0 then - PI / 2
  else 0.
End RealArith.

(** A real number has no bytes: a partial overlay leaves the destination. *)
Definition Rarith : Arith :=
  {| num := R;
     of_int := IZR;
     FLT_MIN := (/ 2 ^ 126)%R;
     lit_0_02 := (2 / 100)%R;
     add := Rplus;
     sub := Rminus;
     mul := Rmult;
     div := Rdiv;
     lt := RealArith.Rltb;
     le := RealArith.Rleb;
     sqrtf := sqrt;
     fabsf := Rabs;
     fmaxf := Rmax;
     overlay_bytes := fun _ _ dst => dst |}.

Definition Rlibm : @Libm Rarith :=
  {| expf := exp : @num Rarith -> @num Rarith;
     logf := ln;
     atan2f := RealArith.Ratan2;
     wet_dry_exponent := fun samp_rate => (-2 * PI * 25 * 64 / INR samp_rate)%R |}.

(** ** [transient_detector.c] *)

Module Transient.
Section TransientDetector.
Context {A : Arith}.

Definition TP_UPPER_LIMIT : num := #5.

Record TransientDetector : Type := {
  fft_size : nat;
  half_fft_size : nat;
  spectrum : list num;
  previous_spectrum : list num;
  rolling_mean : num;
  transient_present : bool;
  window_count : num
}.

Definition transient_detector_initialize (fft_size : nat) : TransientDetector :=
  let half_fft_size := (fft_size / 2)%nat in
  {| fft_size := fft_size;
     half_fft_size := half_fft_size;
     spectrum := calloc (half_fft_size + 1);
     previous_spectrum := calloc (half_fft_size + 1);
     window_count := #0;
     rolling_mean := #0;
     transient_present := false |}.

(** [for (int i = 1; i <= half_fft_size; i++)] with a [float] bound: each
    test converts [i].  [fuel] bounds the number of iterations. *)
Fixpoint spectral_flux_loop (fuel : nat) (spectrum spectrum_prev : list num)
    (half_fft_size : num) (i : nat) (spectral_flux : num) : num :=
  match fuel with
  | O => spectral_flux
  | S fuel' =>
      if #(Z.of_nat i) [<=] half_fft_size then
        let temp := sqrtf (aget spectrum i) [-] sqrtf (aget spectrum_prev i) in
        spectral_flux_loop fuel' spectrum spectrum_prev half_fft_size (S i)
          (spectral_flux [+] (temp [+] fabsf temp) [/] #2)
      else spectral_flux
  end.

Definition spectral_flux (fuel : nat) (spectrum spectrum_prev : list num)
    (half_fft_size : num) : num :=
  spectral_flux_loop fuel spectrum spectrum_prev half_fft_size 1 #0.

(** The loop of [spectral_flux] is given one iteration more than the
    [half_fft_size] bins it is meant to visit, so that it ends by its own
    test. *)
Definition transient_detector_run (self : TransientDetector)
    (transient_threshold : num) : TransientDetector * bool :=
  let reduction_function :=
    spectral_flux (S (half_fft_size self)) (spectrum self) (previous_spectrum self)
      #(Z.of_nat (half_fft_size self)) in
  let window_count := window_count self [+] #1 in
  let rolling_mean :=
    if window_count [>] #1
    then rolling_mean self [+] ((reduction_function [-] rolling_mean self) [/] window_count)
    else reduction_function in
  let adapted_threshold := (TP_UPPER_LIMIT [-] transient_threshold) [*] rolling_mean in
  let previous_spectrum :=
    memcpy (previous_spectrum self) (spectrum self)
      (sizeof_float * (half_fft_size self + 1)) in
  ({| fft_size := fft_size self;
      half_fft_size := half_fft_size self;
      spectrum := spectrum self;
      previous_spectrum := previous_spectrum;
      rolling_mean := rolling_mean;
      transient_present := transient_present self;
      window_count := window_count |},
   reduction_function [>] adapted_threshold).
End TransientDetector.
End Transient.

(** ** The plugin state: saving and restoring the noise profile *)

Module PluginState.
Local Open Scope Z_scope.

(** Byte-addressed memory. *)
Definition memory : Type := Z -> byte.

Definition load_bytes (mem : memory) (addr : Z) (n : nat) : list byte :=
  map (fun i => mem (addr + Z.of_nat i)) (seq 0 n).

Definition store_bytes (mem : memory) (addr : Z) (bs : list byte) : memory :=
  fun a =>
    if (addr <=? a) && (a <? addr + Z.of_nat (length bs))
    then nth (Z.to_nat (a - addr)) bs Byte.x00
    else mem a.

(** Sizes on an LP64 platform. *)
Definition sizeof_int : nat := 4.
Definition sizeof_pointer : nat := 8.
(** [sizeof(LV2_Atom)]: a 32-bit size and a 32-bit type. *)
Definition sizeof_LV2_Atom : nat := 8.

(** The object representation of [NoiseProfile]: the 32-bit size, four
    bytes of padding, the pointer to the magnitudes. *)
Definition write_noise_profile_struct (mem : memory) (addr : Z)
    (noise_profile_size : Z) (padding : list byte) (array : Z) : memory :=
  store_bytes
    (store_bytes (store_bytes mem addr (le_split 4 noise_profile_size))
       (addr + 4) (firstn 4 (padding ++ repeat Byte.x00 4)))
    (addr + 8) (le_split 8 array).

(** An array of [float] written at [addr], four bytes an entry. *)
Definition write_floats (mem : memory) (addr : Z) (values : list B32.float32) : memory :=
  store_bytes mem addr
    (flat_map (fun v => le_split 4 (B32.bits_of_b32 v)) values).

Record PluginState : Type := {
  atom_Int : Z;
  atom_Vector : Z;
  property_fft_size : Z;
  property_saved_noise_profile : Z
}.

(** What the host keeps for a key: the bytes, the type and the flags. *)
Record StateValue : Type := {
  sv_value : list byte;
  sv_type : Z;
  sv_flags : Z
}.

Definition LV2_State_Handle : Type := list (Z * StateValue).

Definition LV2_STATE_IS_POD : Z := 1.
Definition LV2_STATE_IS_PORTABLE : Z := 2.

(** [LV2_State_Store_Function]: the host copies [size] bytes from
    [value]. *)
Definition store (mem : memory) (handle : LV2_State_Handle) (key : Z)
    (value : Z) (size : nat) (type flags : Z) : LV2_State_Handle :=
  (key, {| sv_value := load_bytes mem value size;
           sv_type := type; sv_flags := flags |}) :: handle.

(** [LV2_State_Retrieve_Function]: the value kept for a key, if any. *)
Fixpoint retrieve (handle : LV2_State_Handle) (key : Z) : option StateValue :=
  match handle with
  | [] => None
  | (k, v) :: rest => if Z.eqb k key then Some v else retrieve rest key
  end.

(** [plugin_state_savestate]; [fft_size] is the by-value argument, whose
    address the first [store] is given; [noise_profile] is the address of
    the [NoiseProfile] object. *)
Definition plugin_state_savestate (self : PluginState) (mem : memory)
    (handle : LV2_State_Handle) (fft_size : Z) (noise_profile : Z)
    : LV2_State_Handle :=
  let fft_size_addr := -4 in
  let mem_local := store_bytes mem fft_size_addr (le_split sizeof_int fft_size) in
  let handle :=
    store mem_local handle (property_fft_size self) fft_size_addr sizeof_int
      (atom_Int self) (Z.lor LV2_STATE_IS_POD LV2_STATE_IS_PORTABLE) in
  store mem handle (property_saved_noise_profile self) noise_profile
    sizeof_pointer (atom_Vector self)
    (Z.lor LV2_STATE_IS_POD LV2_STATE_IS_PORTABLE).

(** [LV2_ATOM_BODY(atom)]: the bytes after the atom header. *)
Definition LV2_ATOM_BODY (atom : list byte) : list byte :=
  skipn sizeof_LV2_Atom atom.

(** A C [int] from its four bytes. *)
Definition int_of_bytes (bs : list byte) : Z :=
  let u := le_combine (firstn 4 bs) in
  if u <? 2147483648 then u else u - 4294967296.

(** [plugin_state_restorestate]: [None] when it returns [false]; else the
    restored [fft_size] and the bytes of the retrieved value that
    [set_noise_profile] is handed, those from [LV2_ATOM_BODY] on. *)
Definition plugin_state_restorestate (self : PluginState)
    (handle : LV2_State_Handle) : option (Z * list byte) :=
  match retrieve handle (property_fft_size self) with
  | None => None
  | Some fftsize =>
      if negb (Z.eqb (sv_type fftsize) (atom_Int self)) then None
      else
        match retrieve handle (property_saved_noise_profile self) with
        | None => None
        | Some saved_noise_profile =>
            if negb (Nat.eqb (length (sv_value saved_noise_profile)) sizeof_pointer)
               || negb (Z.eqb (sv_type saved_noise_profile) (atom_Vector self))
            then None
            else Some (int_of_bytes (sv_value fftsize),
                       LV2_ATOM_BODY (sv_value saved_noise_profile))
        end
  end.
End PluginState.

(** ** The real value of a binary32 number

    [F2R m e] is [m * 2^e]; [B2R] is the value of a finite number, [Bext]
    extends it to the infinities as [+-2^128]; [rounds_to x r] states that
    [r] is a result of rounding the real [x] to nearest: it is a number of
    the format, it lies between the numbers of the format below and above
    [x], and it is within half a unit in the last place of [x]. *)

Section FloatValues.
Local Open Scope R_scope.

Definition bpow (e : Z) : R := powerRZ 2 e.

Definition F2R (m e : Z) : R := IZR m * bpow e.

Definition located (m e : Z) (l : location) (x : R) : Prop :=
  match l with
  | loc_Exact => x = F2R m e
  | loc_Inexact Lt => F2R m e < x < F2R m e + bpow e / 2
  | loc_Inexact Eq => x = F2R m e + bpow e / 2
  | loc_Inexact Gt => F2R m e + bpow e / 2 < x < F2R m e + bpow e
  end.

Definition valid32 (x : spec_float) : bool := valid_binary 24 128 x.

Definition is_nan (x : spec_float) : bool :=
  match x with S754_nan => true | _ => false end.

Definition is_finite (x : spec_float) : bool :=
  match x with S754_zero _ | S754_finite _ _ _ => true | _ => false end.

Definition B2R (x : spec_float) : R :=
  match x with
  | S754_finite s m e => F2R (cond_Zopp s (Zpos m)) e
  | _ => 0
  end.

Definition Bext (x : spec_float) : R :=
  match x with
  | S754_infinity false => bpow 128
  | S754_infinity true => - bpow 128
  | _ => B2R x
  end.

Record rounds_to (x : R) (r : spec_float) : Prop := {
  rt_valid : valid32 r = true;
  rt_nonnan : is_nan r = false;
  rt_lo : forall y, valid32 y = true -> is_finite y = true ->
          B2R y <= x -> B2R y <= Bext r;
  rt_hi : forall y, valid32 y = true -> is_finite y = true ->
          x <= B2R y -> Bext r <= B2R y;
  rt_err : forall k, (k <= 128)%Z -> Rabs x < bpow k ->
           Rabs (Bext r - x) <= bpow (fexp 24 128 k) / 2
}.

Definition sgn (s : bool) (t : R) : R := if s then - t else t.

Definition sign_is (s : bool) (r : spec_float) : Prop :=
  match r with
  | S754_nan => False
  | S754_zero s' | S754_infinity s' | S754_finite s' _ _ => s' = s
  end.
End FloatValues.

Arguments bpow : simpl never.
Arguments F2R : simpl never.

(** ** [plugin_state_configure] *)

Module PluginConfigure.
Import PluginState.
Import String.StringSyntax.
Local Open Scope string_scope.
Local Open Scope Z_scope.

(** The URIs the file takes from macros defined elsewhere, in the LV2 headers
    and in the headers of the plugin. *)
Record URIs : Type := {
  LV2_URID__map : String.string;
  LV2_ATOM__Int : String.string;
  LV2_ATOM__Vector : String.string;
  NOISEREPELLENT_URI : String.string
}.

(** [LV2_URID_Map]: the host's function from URIs to ids, with its handle. *)
Definition LV2_URID_Map : Type := String.string -> Z.

(** An entry of the null-terminated array [features]; [data] is a pointer,
    [None] when it is null. *)
Record LV2_Feature : Type := {
  URI : String.string;
  data : option LV2_URID_Map
}.

(** [struct PluginState] with its [map] field; [None] is the null pointer. *)
Record ConfiguredState : Type := {
  map : option LV2_URID_Map;
  urids : PluginState
}.

(** The loop [for (int i = 0; features[i]; ++i)]: every entry whose URI is
    that of the URID map is stored, one over the other. *)
Definition find_map (U : URIs) (self : ConfiguredState)
    (features : list LV2_Feature) : ConfiguredState :=
  fold_left
    (fun self f =>
       if String.eqb (URI f) (LV2_URID__map U)
       then {| map := data f; urids := urids self |}
       else self)
    features self.

(** The four ids [plugin_state_configure] asks the map for. *)
Definition mapped_urids (U : URIs) (m : LV2_URID_Map) : PluginState :=
  {| atom_Int := m (LV2_ATOM__Int U);
     atom_Vector := m (LV2_ATOM__Vector U);
     property_fft_size := m (String.append (NOISEREPELLENT_URI U) "#fftsize");
     property_saved_noise_profile :=
       m (String.append (NOISEREPELLENT_URI U) "#savednoiseprofile") |}.

Definition plugin_state_configure (U : URIs) (self : ConfiguredState)
    (features : list LV2_Feature) : ConfiguredState * bool :=
  let self := find_map U self features in
  match map self with
  | None => (self, false)
  | Some m => ({| map := Some m; urids := mapped_urids U m |}, true)
  end.

(** The last entry of [features] with the URI of the URID map, if any. *)
Fixpoint last_map (U : URIs) (features : list LV2_Feature) : option LV2_Feature :=
  match features with
  | [] => None
  | f :: rest =>
      match last_map U rest with
      | Some g => Some g
      | None => if String.eqb (URI f) (LV2_URID__map U) then Some f else None
      end
  end.
End PluginConfigure.

(** ** Predicates and examples the statements are written with *)

Section PassThroughNotions.
Local Open Scope R_scope.
Local Open Scope arith_scope.

Section Binary32.
#[local] Existing Instance b32.

(** The claim C1 read for one rule. *)
Definition pass_through_invariant
    (rule : nat -> list (@num b32) -> list (@num b32) -> list (@num b32) -> list (@num b32))
    : Prop :=
  forall fft_size_2 spectrum noise_thresholds Gk k,
    (k <= fft_size_2)%nat -> (k < length Gk)%nat ->
    aget noise_thresholds k [<=] FLT_MIN = true ->
    aget (rule fft_size_2 spectrum noise_thresholds Gk) k = #1.
End Binary32.
End PassThroughNotions.

Section FloatNotions.
Local Open Scope R_scope.
Local Open Scope arith_scope.

Definition finite32 (x : spec_float) : Prop :=
  valid32 x = true /\ is_finite x = true.

Definition in_unit (g : spec_float) : Prop :=
  SFleb (S754_zero false) g = true /\ SFleb g (S754_finite false 8388608 (-23)) = true.
End FloatNotions.

Section SignNotions.
Local Open Scope R_scope.
Local Open Scope arith_scope.

(** valid, not a NaN, and not negative: a positive number, a zero or
    [+infinity] *)
Definition pos_ext (a : spec_float) : Prop :=
  valid32 a = true /\ is_nan a = false /\ 0 <= Bext a.
End SignNotions.

Section GainNotions.
Local Open Scope R_scope.
Local Open Scope arith_scope.

Section Binary32.
#[local] Existing Instance b32.

(** What a rule gives at a bin whose signal value is zero, by C2: gain 0, or
    the pass-through gain 1 when the noise threshold of the bin is at or below
    [FLT_MIN]. *)
Definition zero_signal_gain
    (rule : nat -> list (@num b32) -> list (@num b32) -> list (@num b32) -> list (@num b32))
    : Prop :=
  forall fft_size_2 spectrum noise_thresholds Gk k,
    (k <= fft_size_2)%nat -> (k < length Gk)%nat ->
    (forall j, (j <= fft_size_2)%nat ->
               finite32 (aget spectrum j) /\ #0 [<=] aget spectrum j = true) ->
    (forall j, (j <= fft_size_2)%nat ->
               finite32 (aget noise_thresholds j) /\
               #0 [<=] aget noise_thresholds j = true) ->
    aget spectrum k = #0 ->
    aget (rule fft_size_2 spectrum noise_thresholds Gk) k = #0 \/
    (aget noise_thresholds k [<=] FLT_MIN = true /\
     aget (rule fft_size_2 spectrum noise_thresholds Gk) k = #1).

(** Clamping a gain directly to [[0, 1]]. *)
Definition clamp_to_unit (gain : @num b32) : @num b32 :=
  if gain [<] #0 then #0 else if gain [>] #1 then #1 else gain.

(** The claim C8: the clamp of the rule, taken on [1 - gain], gives what
    clamping the gain gives. *)
Definition clamp_on_complement_is_clamp : Prop :=
  forall snr_influence spectrum_k noise_k : @num b32,
    valid32 snr_influence = true -> finite32 spectrum_k -> finite32 noise_k ->
    noise_k [>] FLT_MIN = true ->
    nonlinear_clamp (nonlinear_gain snr_influence spectrum_k noise_k) =
    clamp_to_unit (nonlinear_gain snr_influence spectrum_k noise_k).
End Binary32.
End GainNotions.

Section StateNotions.
Local Open Scope arith_scope.

(** The buffers have the sizes [fft_denoiser_initialize] gives them. *)
Definition well_formed {A : Arith} {E : Estimators} (self : FFTDenoiser E) : Prop :=
  half_fft_size self = (fft_size self / 2)%nat /\
  length (fft_spectrum self) = fft_size self /\
  length (processed_fft_spectrum self) = (half_fft_size self + 1)%nat.

(** What the stages between the analysis and the blend leave alone: the
    copy of the frame, the wet/dry state, the sizes, and entry 0 of the
    processed spectrum. *)
Definition same_frame {A : Arith} {E : Estimators} (s0 s : FFTDenoiser E) : Prop :=
  fft_spectrum s = fft_spectrum s0 /\
  wet_dry s = wet_dry s0 /\
  fft_size s = fft_size s0 /\
  half_fft_size s = half_fft_size s0 /\
  denoise_parameters s = denoise_parameters s0 /\
  length (processed_fft_spectrum s) = length (processed_fft_spectrum s0) /\
  aget (processed_fft_spectrum s) 0 = aget (processed_fft_spectrum s0) 0.
End StateNotions.

Section ReachabilityNotions.
Local Open Scope arith_scope.

(** The states of a denoiser between calls. *)
Inductive reachable {A : Arith} (M : Libm) (E : Estimators) : FFTDenoiser E -> Prop :=
| reachable_initialize : forall samp_rate fft_size overlap_factor,
    reachable M E (fft_denoiser_initialize M E samp_rate fft_size overlap_factor)
| reachable_parameters : forall self new_parameters,
    reachable M E self ->
    reachable M E (load_denoise_parameters self new_parameters)
| reachable_profile : forall self noise_profile,
    reachable M E self ->
    reachable M E (load_noise_profile self noise_profile)
| reachable_run : forall self fft_spectrum,
    reachable M E self ->
    length fft_spectrum = fft_size self ->
    reachable M E (fst (fft_denoiser_run M self fft_spectrum)).
End ReachabilityNotions.

Section BlendNotions.
Local Open Scope arith_scope.

(** An environment for worked examples in binary32: a [<math.h>] reduced to
    the values a denoiser at 44.1 kHz asks for, and estimators that have
    learnt nothing. *)
Definition example_libm : @Libm b32 :=
  {| expf := fun _ => S754_finite false 13357265 (-24) : @num b32;
     logf := fun _ => S754_finite false 9657742 (-22) : @num b32;
     atan2f := fun _ _ => S754_zero false : @num b32;
     wet_dry_exponent := fun _ => S754_finite true 15298229 (-26) : @num b32 |}.

Definition example_estimators : @Estimators b32 :=
  {| NoiseEstimator := unit;
     GainEstimator := unit;
     noise_estimation_initialize := fun _ => tt;
     gain_estimation_initialize := fun _ _ _ => tt;
     noise_estimation_run := fun ne noise_spectrum _ => (ne, noise_spectrum);
     is_noise_estimation_available := fun _ => false;
     gain_estimation_run := fun ge _ _ gain_spectrum _ _ _ _ => (ge, gain_spectrum) |}.

(** A denoiser for the worked examples: initialised at 44.1 kHz with overlap
    factor 1, with a zero noise profile of [fft_size / 2 + 1] bins loaded. *)
Definition example_denoiser (fft_size : nat) : FFTDenoiser example_estimators :=
  load_noise_profile
    (fft_denoiser_initialize example_libm example_estimators 44100 fft_size 1)
    {| noise_profile_size := fft_size / 2 + 1;
       noise_profile_values := @calloc b32 (fft_size / 2 + 1) |}.

(** The claim C3: the blend at every bin from 0 to [half_fft_size]. *)
Definition blend_on_all_bins : Prop :=
  forall (M : @Libm b32) (E : @Estimators b32) (self : FFTDenoiser E) f_raw k,
    reachable M E self -> length f_raw = fft_size self ->
    (k <= half_fft_size self)%nat ->
    let processed :=
      processed_fft_spectrum
        (fft_denoiser_run_processing M (fft_denoiser_run_analysis M self f_raw)) in
    let wetdry := wet_dry (fst (fft_denoiser_run M self f_raw)) in
    aget (snd (fft_denoiser_run M self f_raw)) k =
    (#1 [-] wetdry) [*] aget f_raw k [+] wetdry [*] aget processed k.
End BlendNotions.

Section FinalSpectrumNotions.
Local Open Scope arith_scope.

(** Estimators over the reals with a profile at hand, whose gain estimation
    leaves the gain spectrum as it finds it. *)
Definition profiled_estimators : @Estimators Rarith :=
  {| NoiseEstimator := unit;
     GainEstimator := unit;
     noise_estimation_initialize := fun _ => tt;
     gain_estimation_initialize := fun _ _ _ => tt;
     noise_estimation_run := fun ne noise_spectrum _ => (ne, noise_spectrum);
     is_noise_estimation_available := fun _ => true;
     gain_estimation_run := fun ge _ _ gain_spectrum _ _ _ _ => (ge, gain_spectrum) |}.

(** The composition of the final spectrum with the multiplier [r] computed
    from the reduction amount [dB] by [exponent], over exact reals. *)
Definition final_spectrum_composed (exponent : R -> R) : Prop :=
  forall (E : @Estimators Rarith) (self : FFTDenoiser E) fft_spectrum k,
    reachable Rlibm E self ->
    let analysed := fft_denoiser_run_analysis Rlibm self fft_spectrum in
    let final := fft_denoiser_run_processing Rlibm analysed in
    let p := denoise_parameters self in
    is_empty (power_spectrum analysed) (half_fft_size self) = false ->
    learn_noise p = false ->
    is_noise_estimation_available E (noise_estimation self) = true ->
    (k <= half_fft_size self)%nat ->
    aget (processed_fft_spectrum final) k =
    if residual_listen p then aget (residual_spectrum final) k
    else (aget (denoised_spectrum final) k
          + aget (residual_spectrum final) k
            * Rpower 10 (exponent (reduction_amount p)))%R.

(** Entry 0 of the denoised, the residual and the processed spectrum is
    zero. *)
Definition dc_bins_zero {A : Arith} {E : Estimators} (s : FFTDenoiser E) : Prop :=
  aget (denoised_spectrum s) 0 = #0 /\
  aget (residual_spectrum s) 0 = #0 /\
  aget (processed_fft_spectrum s) 0 = #0.

Definition example_real_parameters : @DenoiseParameters Rarith :=
  {| enable := true; learn_noise := false; residual_listen := false;
     reduction_amount := @of_int Rarith 10; release_time := @of_int Rarith 150;
     masking_ceiling_limit := @of_int Rarith 1; whitening_factor := @of_int Rarith 0;
     transient_threshold := @of_int Rarith 1; noise_rescale := @of_int Rarith 0 |}.

Definition example_real_denoiser : FFTDenoiser profiled_estimators :=
  load_denoise_parameters
    (load_noise_profile
       (fft_denoiser_initialize Rlibm profiled_estimators 44100 2 1)
       {| noise_profile_size := 2;
          noise_profile_values := [@of_int Rarith 1; @of_int Rarith 1] |})
    example_real_parameters.
End FinalSpectrumNotions.

Section WetDryNotions.
Local Open Scope R_scope.

(** The claim C7 on the states the denoiser reaches. *)
Definition wet_dry_converges_monotonically : Prop :=
  forall (M : @Libm b32) (E : @Estimators b32) (self : FFTDenoiser E) (enable : bool),
    reachable M E self ->
    let target : @num b32 := if enable then @of_int b32 1 else @of_int b32 0 in
    let w := wet_dry self in
    let w' := wet_dry (fft_denoiser_update_wetdry_target self enable) in
    (@le b32 (@of_int b32 0) w' = true /\ @le b32 w' (@of_int b32 1) = true) /\
    (@le b32 w target = true -> @le b32 w w' = true /\ @le b32 w' target = true) /\
    (@le b32 target w = true -> @le b32 w' w = true /\ @le b32 target w' = true).
End WetDryNotions.

Section TransientNotions.
Local Open Scope R_scope.

Section Generic.
Context {A : Arith}.
Local Open Scope arith_scope.



End Generic.

Section Binary32.
#[local] Existing Instance b32.
Local Open Scope arith_scope.
Import Transient.




End Binary32.
End TransientNotions.

Section GainLoopNotions.
Local Open Scope arith_scope.

Section Generic.
Context {A : Arith}.
Local Open Scope arith_scope.

(** What one call of a gain rule does to the gain array [Gk]: [bin k] at the
    bins up to [fft_size_2] that the array holds, nothing anywhere else. *)
Definition writes_bins (fft_size_2 : nat) (bin : nat -> num) (Gk Gk' : list num)
    : Prop :=
  length Gk' = length Gk /\
  (forall k, (k <= fft_size_2)%nat -> (k < length Gk)%nat -> aget Gk' k = bin k) /\
  (forall k, (fft_size_2 < k)%nat -> aget Gk' k = aget Gk k).
End Generic.
End GainLoopNotions.

Section SuppressionNotions.
Local Open Scope arith_scope.

(** A denoiser over the reals with a profile at hand, whitening off and a
    reduction amount of 0 dB. *)
Definition example_transparent_denoiser : FFTDenoiser profiled_estimators :=
  load_denoise_parameters
    (load_noise_profile
       (fft_denoiser_initialize Rlibm profiled_estimators 44100 4 1)
       {| noise_profile_size := 3;
          noise_profile_values :=
            [@of_int Rarith 1; @of_int Rarith 1; @of_int Rarith 1] |})
    {| enable := true; learn_noise := false; residual_listen := false;
       reduction_amount := @of_int Rarith 0; release_time := @of_int Rarith 150;
       masking_ceiling_limit := @of_int Rarith 1;
       whitening_factor := @of_int Rarith 0;
       transient_threshold := @of_int Rarith 1; noise_rescale := @of_int Rarith 0 |}.
End SuppressionNotions.

Section DetectorNotions.
Local Open Scope arith_scope.

(** The detectors the functions of [transient_detector.c] produce: the
    structure is private to the file, and [transient_detector_initialize] and
    [transient_detector_run] are the functions that write it. *)
Inductive detector_reachable {A : Arith} : Transient.TransientDetector -> Prop :=
| detector_initialized : forall fft_size,
    detector_reachable (Transient.transient_detector_initialize fft_size)
| detector_run : forall self transient_threshold,
    detector_reachable self ->
    detector_reachable
      (fst (Transient.transient_detector_run self transient_threshold)).

Section Binary32.
#[local] Existing Instance b32.
Local Open Scope arith_scope.
Import Transient.

(** Both spectra hold zeros and the running mean is zero. *)
Definition detector_at_rest (self : TransientDetector) : Prop :=
  (forall k, aget (spectrum self) k = #0) /\
  (forall k, aget (previous_spectrum self) k = #0) /\
  rolling_mean self = #0.
End Binary32.
End DetectorNotions.

Section BinInfoNotions.
Local Open Scope arith_scope.

(** Power, magnitude and phase of bin [k] as [get_info_from_bins] computes
    them from the frame: bin 0 and bin [half_fft_size] have a real part only. *)
Definition bin_info {A : Arith} (M : Libm) (half_fft_size fft_size : nat)
    (fft_buffer : list num) (k : nat) : num * num * num :=
  let real_bin := aget fft_buffer k in
  let imag_bin := aget fft_buffer (fft_size - k) in
  if ((1 <=? k) && (k <? half_fft_size))%nat then
    (real_bin [*] real_bin [+] imag_bin [*] imag_bin,
     sqrtf (real_bin [*] real_bin [+] imag_bin [*] imag_bin),
     atan2f M real_bin imag_bin)
  else (real_bin [*] real_bin, real_bin, atan2f M real_bin #0).
End BinInfoNotions.

Section WhiteningNotions.
Local Open Scope arith_scope.

Section Generic.
Context {A : Arith}.
Local Open Scope arith_scope.

(** The value the first loop of [residual_spectrum_whitening] writes at bin
    [k]. *)
Definition residual_max_update (count : nat) (decay residual_k max_k : num) : num :=
  if #(Z.of_nat count) [>] #1
  then fmaxf (fmaxf residual_k WHITENING_FLOOR) (max_k [*] decay)
  else fmaxf residual_k WHITENING_FLOOR.
End Generic.
End WhiteningNotions.

Section RoundingTheory.
Local Open Scope R_scope.

(** * Part II: proofs *)

(** ** Binary32 arithmetic: powers of two and digits *)

Lemma bpow_gt_0 e : 0 < bpow e.
Proof. unfold bpow. apply powerRZ_lt. lra. Qed.

Lemma bpow_add e1 e2 : bpow (e1 + e2) = bpow e1 * bpow e2.
Proof. unfold bpow. apply powerRZ_add. lra. Qed.

Lemma bpow_0 : bpow 0 = 1.
Proof. reflexivity. Qed.

Lemma bpow_1 : bpow 1 = 2.
Proof. unfold bpow. simpl. lra. Qed.

Lemma bpow_succ e : bpow (e + 1) = 2 * bpow e.
Proof. rewrite bpow_add, bpow_1. lra. Qed.

Lemma bpow_pred e : bpow (e - 1) = bpow e / 2.
Proof.
  replace e with ((e - 1) + 1)%Z at 2 by lia. rewrite bpow_succ. lra.
Qed.

Lemma bpow_IZR e : (0 <= e)%Z -> bpow e = IZR (2 ^ e).
Proof.
  intros He. pattern e. apply natlike_ind; auto.
  intros x Hx IH. unfold Z.succ. rewrite bpow_succ, IH.
  rewrite Z.pow_add_r by lia. rewrite mult_IZR. simpl. lra.
Qed.

Lemma bpow_lt e1 e2 : (e1 < e2)%Z -> bpow e1 < bpow e2.
Proof.
  intros H. replace e2 with (e1 + (e2 - e1))%Z by lia.
  rewrite bpow_add.
  assert (1 < bpow (e2 - e1)).
  { rewrite bpow_IZR by lia. apply IZR_lt.
    assert (2 ^ 0 < 2 ^ (e2 - e1))%Z by (apply Z.pow_lt_mono_r; lia).
    simpl in *. lia. }
  pose proof (bpow_gt_0 e1). nra.
Qed.

Lemma bpow_le e1 e2 : (e1 <= e2)%Z -> bpow e1 <= bpow e2.
Proof.
  intros H. destruct (Z.eq_dec e1 e2) as [->|]. lra.
  left. apply bpow_lt. lia.
Qed.

Lemma bpow_lt_inv e1 e2 : bpow e1 < bpow e2 -> (e1 < e2)%Z.
Proof.
  intros H. destruct (Z_lt_le_dec e1 e2); auto.
  pose proof (bpow_le e2 e1 ltac:(lia)). lra.
Qed.

Lemma F2R_bpow_shift m e k :
  (0 <= k)%Z -> F2R (m * 2 ^ k) e = F2R m (e + k).
Proof.
  intros Hk. unfold F2R. rewrite mult_IZR, bpow_add, (bpow_IZR k) by lia.
  ring.
Qed.

(** digits *)
Lemma digits2_pos_bounds (p : positive) :
  (2 ^ (Zpos (digits2_pos p) - 1) <= Zpos p < 2 ^ Zpos (digits2_pos p))%Z.
Proof.
  induction p as [p IH|p IH|]; simpl digits2_pos.
  - rewrite Pos2Z.inj_succ.
    replace (Z.succ (Z.pos (digits2_pos p)) - 1)%Z with (Z.succ (Z.pos (digits2_pos p) - 1))%Z by lia.
    rewrite !Z.pow_succ_r by lia. lia.
  - rewrite Pos2Z.inj_succ.
    replace (Z.succ (Z.pos (digits2_pos p)) - 1)%Z with (Z.succ (Z.pos (digits2_pos p) - 1))%Z by lia.
    rewrite !Z.pow_succ_r by lia. lia.
  - simpl. lia.
Qed.

Lemma Zdigits2_bounds (m : Z) :
  (0 < m)%Z -> (2 ^ (Zdigits2 m - 1) <= m < 2 ^ Zdigits2 m)%Z.
Proof.
  destruct m; try lia. intros _. apply digits2_pos_bounds.
Qed.

Lemma Zdigits2_pos (m : Z) : (0 < m)%Z -> (0 < Zdigits2 m)%Z.
Proof. destruct m; simpl; lia. Qed.

Lemma Zdigits2_nonneg (m : Z) : (0 <= Zdigits2 m)%Z.
Proof. destruct m; simpl; lia. Qed.

(** characterisation of digits by bounds *)
Lemma Zdigits2_unique (m d : Z) :
  (2 ^ (d - 1) <= m < 2 ^ d)%Z -> (0 < d)%Z -> Zdigits2 m = d.
Proof.
  intros [H1 H2] Hd.
  assert (0 < m)%Z. { assert (0 < 2 ^ (d - 1))%Z by (apply Z.pow_pos_nonneg; lia). lia. }
  pose proof (Zdigits2_bounds m H) as [H3 H4].
  pose proof (Zdigits2_pos m H).
  destruct (Z.lt_trichotomy (Zdigits2 m) d) as [Hlt|[Heq|Hgt]]; auto.
  - assert (2 ^ Zdigits2 m <= 2 ^ (d - 1))%Z by (apply Z.pow_le_mono_r; lia). lia.
  - assert (2 ^ d <= 2 ^ (Zdigits2 m - 1))%Z by (apply Z.pow_le_mono_r; lia). lia.
Qed.

Lemma F2R_digits_bounds (m e : Z) :
  (0 < m)%Z -> bpow (Zdigits2 m - 1 + e) <= F2R m e < bpow (Zdigits2 m + e).
Proof.
  intros Hm. pose proof (Zdigits2_bounds m Hm) as [H1 H2].
  pose proof (Zdigits2_pos m Hm).
  unfold F2R. rewrite !bpow_add.
  rewrite (bpow_IZR (Zdigits2 m - 1)), (bpow_IZR (Zdigits2 m)) by lia.
  pose proof (bpow_gt_0 e).
  apply IZR_le in H1. apply IZR_lt in H2. split; nra.
Qed.

Lemma fexp32_eq e : fexp 24 128 e = Z.max (e - 24) (-149).
Proof. reflexivity. Qed.

Lemma located_bounds m e l x :
  located m e l x -> F2R m e <= x < F2R m e + bpow e.
Proof.
  pose proof (bpow_gt_0 e).
  destruct l as [|[| |]]; simpl; intros; lra.
Qed.

Lemma loc_of_shr_record_of_loc m l :
  loc_of_shr_record (shr_record_of_loc m l) = l.
Proof. destruct l as [|[| |]]; reflexivity. Qed.

Lemma shr_m_shr_record_of_loc m l : shr_m (shr_record_of_loc m l) = m.
Proof. destruct l as [|[| |]]; reflexivity. Qed.

Lemma IZR_xO p : IZR (Zpos p~0) = 2 * IZR (Zpos p).
Proof. rewrite Pos2Z.inj_xO, mult_IZR. reflexivity. Qed.

Lemma IZR_xI p : IZR (Zpos p~1) = 2 * IZR (Zpos p) + 1.
Proof. rewrite Pos2Z.inj_xI, plus_IZR, mult_IZR. reflexivity. Qed.

Lemma shr_1_located mrs e x :
  (0 <= shr_m mrs)%Z ->
  located (shr_m mrs) e (loc_of_shr_record mrs) x ->
  located (shr_m (shr_1 mrs)) (e + 1) (loc_of_shr_record (shr_1 mrs)) x
  /\ (0 <= shr_m (shr_1 mrs))%Z.
Proof.
  destruct mrs as [m r s]. cbn [shr_m]. intros Hm H.
  pose proof (bpow_gt_0 e) as Hb.
  assert (E0 : F2R 0 e = 0) by (unfold F2R; lra).
  assert (E0' : F2R 0 (e + 1) = 0) by (unfold F2R; lra).
  assert (E1 : F2R 1 e = bpow e) by (unfold F2R; lra).
  assert (EO : forall p, F2R (Zpos p~0) e = F2R (Zpos p) (e + 1)).
  { intros p. unfold F2R. rewrite IZR_xO, bpow_succ. ring. }
  assert (EI : forall p, F2R (Zpos p~1) e = F2R (Zpos p) (e + 1) + bpow e).
  { intros p. unfold F2R. rewrite IZR_xI, bpow_succ. ring. }
  destruct m as [|p|p]; [ | destruct p as [p|p|] | lia ];
    destruct r, s; cbn [shr_1 shr_m loc_of_shr_record located orb] in *;
    rewrite ?EO, ?EI, ?E0, ?E1 in H; rewrite ?E0'; rewrite ?bpow_succ;
    (split; [ | lia ]); lra.
Qed.

Lemma iter_shr_1_located p : forall mrs e x,
  (0 <= shr_m mrs)%Z ->
  located (shr_m mrs) e (loc_of_shr_record mrs) x ->
  located (shr_m (iter_pos shr_1 p mrs)) (e + Zpos p)
    (loc_of_shr_record (iter_pos shr_1 p mrs)) x
  /\ (0 <= shr_m (iter_pos shr_1 p mrs))%Z.
Proof.
  induction p as [p IH|p IH|]; intros mrs e x Hm H; simpl iter_pos.
  - destruct (shr_1_located mrs e x Hm H) as [H1 Hm1].
    destruct (IH _ _ _ Hm1 H1) as [H2 Hm2].
    destruct (IH _ _ _ Hm2 H2) as [H3 Hm3].
    replace (e + Z.pos p~1)%Z with (e + 1 + Z.pos p + Z.pos p)%Z by lia.
    auto.
  - destruct (IH _ _ _ Hm H) as [H2 Hm2].
    destruct (IH _ _ _ Hm2 H2) as [H3 Hm3].
    replace (e + Z.pos p~0)%Z with (e + Z.pos p + Z.pos p)%Z by lia.
    auto.
  - apply shr_1_located; auto.
Qed.

Lemma shr_located mrs e n x :
  (0 <= shr_m mrs)%Z ->
  located (shr_m mrs) e (loc_of_shr_record mrs) x ->
  located (shr_m (fst (shr mrs e n))) (snd (shr mrs e n))
    (loc_of_shr_record (fst (shr mrs e n))) x
  /\ (0 <= shr_m (fst (shr mrs e n)))%Z
  /\ snd (shr mrs e n) = Z.max e (e + n).
Proof.
  intros Hm H. destruct n as [|p|p]; simpl.
  - repeat split; auto; lia.
  - destruct (iter_shr_1_located p mrs e x Hm H). repeat split; auto; lia.
  - repeat split; auto; lia.
Qed.

Lemma shr_fexp_located m e l x :
  (0 <= m)%Z -> located m e l x ->
  located (shr_m (fst (shr_fexp 24 128 m e l))) (snd (shr_fexp 24 128 m e l))
    (loc_of_shr_record (fst (shr_fexp 24 128 m e l))) x
  /\ (0 <= shr_m (fst (shr_fexp 24 128 m e l)))%Z
  /\ snd (shr_fexp 24 128 m e l) = Z.max e (fexp 24 128 (Zdigits2 m + e)).
Proof.
  intros Hm H. unfold shr_fexp.
  pose proof (shr_located (shr_record_of_loc m l) e
                (fexp 24 128 (Zdigits2 m + e) - e) x) as K.
  rewrite shr_m_shr_record_of_loc, loc_of_shr_record_of_loc in K.
  destruct (K Hm H) as (K1 & K2 & K3).
  repeat split; auto. rewrite K3. f_equal. lia.
Qed.

(** F2R helpers *)
Lemma F2R_0 e : F2R 0 e = 0.
Proof. unfold F2R. lra. Qed.

Lemma F2R_succ m e : F2R (m + 1) e = F2R m e + bpow e.
Proof. unfold F2R. rewrite plus_IZR. ring. Qed.

Lemma F2R_opp m e : F2R (- m) e = - F2R m e.
Proof. unfold F2R. rewrite opp_IZR. ring. Qed.

Lemma F2R_lt a b e : (a < b)%Z -> F2R a e < F2R b e.
Proof.
  intros H. unfold F2R. apply IZR_lt in H. pose proof (bpow_gt_0 e). nra.
Qed.

Lemma F2R_le a b e : (a <= b)%Z -> F2R a e <= F2R b e.
Proof.
  intros H. unfold F2R. apply IZR_le in H. pose proof (bpow_gt_0 e). nra.
Qed.

Lemma F2R_lt_inv a b e : F2R a e < F2R b e -> (a < b)%Z.
Proof.
  intros H. destruct (Z_lt_le_dec a b); auto.
  pose proof (F2R_le b a e ltac:(lia)). lra.
Qed.

Lemma F2R_le_inv a b e : F2R a e <= F2R b e -> (a <= b)%Z.
Proof.
  intros H. destruct (Z_le_gt_dec a b); auto.
  pose proof (F2R_lt b a e ltac:(lia)). lra.
Qed.

Lemma F2R_bpow e k : (0 <= k)%Z -> F2R (2 ^ k) e = bpow (e + k).
Proof.
  intros Hk. unfold F2R. rewrite bpow_add, (bpow_IZR k) by lia. ring.
Qed.

Lemma F2R_nonneg m e : (0 <= m)%Z -> 0 <= F2R m e.
Proof. intros. rewrite <- (F2R_0 e). apply F2R_le; auto. Qed.

Lemma F2R_pos m e : (0 < m)%Z -> 0 < F2R m e.
Proof. intros. rewrite <- (F2R_0 e). apply F2R_lt; auto. Qed.

(** validity *)
Lemma bounded_inv m e :
  bounded 24 128 m e = true ->
  (Z.max (Zpos (digits2_pos m) + e - 24) (-149) = e /\ e <= 104)%Z.
Proof.
  unfold bounded, canonical_mantissa. rewrite andb_true_iff.
  intros [H1 H2]. apply Z.eqb_eq in H1. apply Z.leb_le in H2.
  rewrite fexp32_eq in H1. split; [exact H1|]. exact H2.
Qed.

Lemma bounded_intro m e :
  (Z.max (Zpos (digits2_pos m) + e - 24) (-149) = e)%Z -> (e <= 104)%Z ->
  bounded 24 128 m e = true.
Proof.
  intros H1 H2. unfold bounded, canonical_mantissa. rewrite andb_true_iff.
  split. apply Z.eqb_eq. rewrite fexp32_eq. exact H1.
  apply Z.leb_le. exact H2.
Qed.

Lemma bounded_lt_bpow m e :
  bounded 24 128 m e = true -> F2R (Zpos m) e < bpow (e + 24).
Proof.
  intros H. apply bounded_inv in H. destruct H as [H1 H2].
  pose proof (F2R_digits_bounds (Zpos m) e ltac:(lia)) as [_ K].
  eapply Rlt_le_trans; [exact K|]. apply bpow_le. simpl Zdigits2. lia.
Qed.

Lemma bounded_normal_ge m e :
  bounded 24 128 m e = true -> (-149 < e)%Z -> bpow (e + 23) <= F2R (Zpos m) e.
Proof.
  intros H He. apply bounded_inv in H. destruct H as [H1 H2].
  pose proof (F2R_digits_bounds (Zpos m) e ltac:(lia)) as [K _].
  eapply Rle_trans; [|exact K]. apply bpow_le. simpl Zdigits2. lia.
Qed.

(** No representable number lies strictly inside a cell of the grid. *)
Lemma grid_gap m1 e1 my ey :
  (0 <= m1)%Z -> (-149 <= e1)%Z -> (e1 = -149 \/ 2 ^ 23 <= m1)%Z ->
  bounded 24 128 my ey = true ->
  ~ (F2R m1 e1 < F2R (Zpos my) ey < F2R m1 e1 + bpow e1).
Proof.
  intros Hm1 He1 Hn Hb [L U].
  destruct (Z_le_gt_dec e1 ey) as [Hle|Hgt].
  - assert (E : F2R (Zpos my) ey = F2R (Zpos my * 2 ^ (ey - e1)) e1).
    { rewrite F2R_bpow_shift by lia. f_equal. lia. }
    rewrite E in L, U. rewrite <- F2R_succ in U.
    apply F2R_lt_inv in L. apply F2R_lt_inv in U. lia.
  - pose proof (bounded_lt_bpow _ _ Hb) as K.
    pose proof (bounded_inv _ _ Hb) as [K1 K2].
    assert (Hm : (2 ^ 23 <= m1)%Z) by lia.
    assert (bpow (e1 + 23) <= F2R m1 e1).
    { rewrite <- F2R_bpow by lia. apply F2R_le. exact Hm. }
    assert (bpow (ey + 24) <= bpow (e1 + 23)) by (apply bpow_le; lia).
    lra.
Qed.

Lemma round_nearest_even_spec m l e x :
  located m e l x ->
  (m <= round_nearest_even m l <= m + 1)%Z /\
  (round_nearest_even m l = (m + 1)%Z -> F2R m e < x) /\
  Rabs (F2R (round_nearest_even m l) e - x) <= bpow e / 2.
Proof.
  intros H. pose proof (bpow_gt_0 e) as Hb.
  destruct l as [|[| |]]; cbn [round_nearest_even located] in *.
  - subst x. repeat split; try lia.
    replace (F2R m e - F2R m e) with 0 by ring. rewrite Rabs_R0. lra.
  - destruct (Z.even m).
    + repeat split; try lia. subst x.
      replace (F2R m e - (F2R m e + bpow e / 2)) with (- (bpow e / 2)) by ring.
      rewrite Rabs_Ropp, Rabs_pos_eq; lra.
    + repeat split; try lia. intros _; lra.
      subst x. rewrite F2R_succ.
      replace (F2R m e + bpow e - (F2R m e + bpow e / 2)) with (bpow e / 2) by field.
      rewrite Rabs_pos_eq; lra.
  - repeat split; try lia.
    rewrite Rabs_left1 by lra. lra.
  - repeat split; try lia. intros _; lra.
    rewrite F2R_succ. rewrite Rabs_pos_eq by lra. lra.
Qed.

Lemma shr_fexp_noop m e l :
  (fexp 24 128 (Zdigits2 m + e) <= e)%Z ->
  shr_fexp 24 128 m e l = (shr_record_of_loc m l, e).
Proof.
  intros H. unfold shr_fexp, shr.
  destruct (fexp 24 128 (Zdigits2 m + e) - e)%Z eqn:E; try reflexivity. lia.
Qed.

Lemma shr_fexp_2p24 e1 :
  (-149 <= e1)%Z ->
  shr_fexp 24 128 16777216 e1 loc_Exact =
  ({| shr_m := 8388608; shr_r := false; shr_s := false |}, (e1 + 1)%Z).
Proof.
  intros H. unfold shr_fexp.
  replace (fexp 24 128 (Zdigits2 16777216 + e1) - e1)%Z with 1%Z.
  reflexivity.
  rewrite fexp32_eq. simpl Zdigits2. lia.
Qed.

Lemma fexp32_mono a b : (a <= b)%Z -> (fexp 24 128 a <= fexp 24 128 b)%Z.
Proof. rewrite !fexp32_eq. lia. Qed.

(** The first two steps of [binary_round_aux]: truncation to the exponent
    of the format, and the choice of the neighbour. *)
Lemma round_core m e l x :
  (0 <= m)%Z -> located m e l x -> (e <= fexp 24 128 (Zdigits2 m + e))%Z ->
  forall e1 mrs1 m2,
  e1 = fexp 24 128 (Zdigits2 m + e) ->
  mrs1 = fst (shr_fexp 24 128 m e l) ->
  m2 = round_nearest_even (shr_m mrs1) (loc_of_shr_record mrs1) ->
  snd (shr_fexp 24 128 m e l) = e1 /\
  (0 <= m2 <= 2 ^ 24)%Z /\
  (-149 <= e1)%Z /\
  (e1 = -149 \/ 2 ^ 23 <= m2)%Z /\
  (forall y, valid32 y = true -> is_finite y = true ->
     B2R y <= x -> B2R y <= F2R m2 e1) /\
  (forall y, valid32 y = true -> is_finite y = true ->
     x <= B2R y -> F2R m2 e1 <= B2R y) /\
  Rabs (F2R m2 e1 - x) <= bpow e1 / 2 /\
  (forall k, x < bpow k -> (e1 <= fexp 24 128 k)%Z).
Proof.
  intros Hm Hloc HP e1 mrs1 m2 De1 Dmrs1 Dm2.
  destruct (shr_fexp_located m e l x Hm Hloc) as (L1 & Hm1 & He1).
  rewrite <- Dmrs1 in L1, Hm1.
  assert (Ee1 : snd (shr_fexp 24 128 m e l) = e1).
  { rewrite He1. rewrite De1. lia. }
  rewrite Ee1 in L1. clear He1.
  remember (shr_m mrs1) as m1 eqn:Dm1.
  remember (loc_of_shr_record mrs1) as l1 eqn:Dl1.
  rewrite fexp32_eq in De1, HP.
  assert (He1lo : (-149 <= e1)%Z) by lia.
  pose proof (located_bounds _ _ _ _ L1) as [B1 B2].
  pose proof (located_bounds _ _ _ _ Hloc) as [B3 B4].
  pose proof (F2R_nonneg m1 e1 Hm1) as Hv1.
  (* magnitude of x *)
  assert (Hxhi : x < bpow (Zdigits2 m + e)).
  { destruct (Z.eq_dec m 0) as [->|Hne].
    - rewrite F2R_0 in B4. simpl Zdigits2. rewrite Z.add_0_l. lra.
    - assert (Hpos : (0 < m)%Z) by lia.
      pose proof (Zdigits2_bounds m Hpos) as [_ K].
      rewrite <- F2R_succ in B4.
      eapply Rlt_le_trans; [exact B4|].
      replace (Zdigits2 m + e)%Z with (e + Zdigits2 m)%Z by lia.
      rewrite <- (F2R_bpow e (Zdigits2 m)) by (pose proof (Zdigits2_pos m Hpos); lia).
      apply F2R_le. lia. }
  assert (Hm1hi : (m1 < 2 ^ 24)%Z).
  { apply (F2R_lt_inv _ _ e1). rewrite F2R_bpow by lia.
    eapply Rle_lt_trans; [exact B1|]. eapply Rlt_le_trans; [exact Hxhi|].
    apply bpow_le. lia. }
  assert (Hnorm : (e1 = -149 \/ 2 ^ 23 <= m1)%Z).
  { destruct (Z.eq_dec e1 (-149)) as [E|NE]; [left; exact E|right].
    assert (Hpos : (0 < m)%Z).
    { destruct (Z.eq_dec m 0) as [->|]; [|lia].
      simpl Zdigits2 in *. lia. }
    assert (Ee : (e1 = Zdigits2 m + e - 24)%Z) by lia.
    pose proof (F2R_digits_bounds m e Hpos) as [K _].
    assert (Hxlo : bpow (e1 + 23) <= x).
    { eapply Rle_trans; [|exact B3]. eapply Rle_trans; [|exact K].
      apply bpow_le. lia. }
    assert (2 ^ 23 < m1 + 1)%Z; [|lia].
    apply (F2R_lt_inv _ _ e1). rewrite F2R_bpow by lia. rewrite F2R_succ. lra. }
  destruct (round_nearest_even_spec m1 l1 e1 x L1) as (R1 & R2 & R3).
  rewrite <- Dm2 in R1, R2, R3.
  assert (Hm2norm : (e1 = -149 \/ 2 ^ 23 <= m2)%Z) by lia.
  repeat split; try assumption; try lia.
  - (* lower neighbours *)
    intros y Vy Fy Hy.
    pose proof (F2R_nonneg m2 e1 ltac:(lia)) as Hv2.
    destruct y as [sy| | |sy my ey]; try discriminate; cbn [B2R] in *.
    + exact Hv2.
    + pose proof (F2R_pos (Zpos my) ey ltac:(lia)) as Hy0.
      destruct sy; unfold cond_Zopp in *.
      * rewrite F2R_opp. lra.
      * destruct (Rle_lt_dec (F2R (Zpos my) ey) (F2R m1 e1)) as [Hle|Hgt].
        -- eapply Rle_trans; [exact Hle|]. apply F2R_le. lia.
        -- exfalso. apply (grid_gap m1 e1 my ey Hm1 He1lo); auto. lra.
  - (* upper neighbours *)
    intros y Vy Fy Hy.
    assert (Hcase : m2 = m1 \/ m2 = (m1 + 1)%Z) by lia.
    destruct y as [sy| | |sy my ey]; try discriminate; cbn [B2R] in *.
    + destruct Hcase as [E|E]; rewrite E.
      * lra.
      * specialize (R2 E). lra.
    + pose proof (F2R_pos (Zpos my) ey ltac:(lia)) as Hy0.
      destruct sy; unfold cond_Zopp in *.
      * rewrite F2R_opp in *. lra.
      * destruct Hcase as [E|E]; rewrite E.
        -- lra.
        -- specialize (R2 E). rewrite F2R_succ.
           destruct (Rle_lt_dec (F2R m1 e1 + bpow e1) (F2R (Zpos my) ey)) as [Hle|Hgt]; auto.
           exfalso. apply (grid_gap m1 e1 my ey Hm1 He1lo); auto. lra.
  - intros k Hk. rewrite fexp32_eq.
    destruct (Z.eq_dec m 0) as [->|Hne].
    + simpl Zdigits2 in *. lia.
    + assert (Hpos : (0 < m)%Z) by lia.
      pose proof (F2R_digits_bounds m e Hpos) as [K _].
      assert (Zdigits2 m - 1 + e < k)%Z; [|lia].
      apply bpow_lt_inv. lra.
Qed.

Lemma F2R_cond_Zopp s m e : F2R (cond_Zopp s m) e = sgn s (F2R m e).
Proof. destruct s; simpl; [apply F2R_opp|reflexivity]. Qed.

Lemma Zdigits2_le_24 m : (0 < m < 2 ^ 24)%Z -> (Zdigits2 m <= 24)%Z.
Proof.
  intros [H0 H1]. pose proof (Zdigits2_bounds m H0) as [K _].
  pose proof (Zdigits2_pos m H0).
  destruct (Z_le_gt_dec (Zdigits2 m) 24); auto.
  assert (2 ^ 24 <= 2 ^ (Zdigits2 m - 1))%Z by (apply Z.pow_le_mono_r; lia).
  lia.
Qed.

Lemma finish_spec sx m2 e1 mrs3 e3 :
  (0 <= m2 <= 2 ^ 24)%Z -> (-149 <= e1)%Z -> (e1 = -149 \/ 2 ^ 23 <= m2)%Z ->
  shr_fexp 24 128 m2 e1 loc_Exact = (mrs3, e3) ->
  forall r,
  r = match shr_m mrs3 with
      | Z0 => S754_zero sx
      | Zpos p => if Z.leb e3 (128 - 24) then S754_finite sx p e3
                  else S754_infinity sx
      | Zneg _ => S754_nan
      end ->
  valid32 r = true /\ is_nan r = false /\
  Bext r = sgn sx (Rmin (F2R m2 e1) (bpow 128)).
Proof.
  intros Hm2 He1 Hn E r ->.
  pose proof (bpow_gt_0 128) as Hb.
  destruct (Z.eq_dec m2 (2 ^ 24)) as [E24|N24].
  - subst m2. change (2 ^ 24)%Z with 16777216%Z in E.
    rewrite shr_fexp_2p24 in E by lia. inversion E; subst mrs3 e3; clear E.
    cbn [shr_m].
    assert (EV : F2R (2 ^ 24) e1 = bpow (e1 + 24)) by (apply F2R_bpow; lia).
    destruct (Z.leb_spec (e1 + 1) (128 - 24)) as [Hle|Hgt].
    + repeat split.
      * apply bounded_intro; simpl digits2_pos; lia.
      * cbn [Bext B2R]. rewrite F2R_cond_Zopp. f_equal.
        change 8388608%Z with (2 ^ 23)%Z. rewrite F2R_bpow by lia.
        rewrite EV. rewrite Rmin_left.
        -- f_equal. lia.
        -- left. apply bpow_lt. lia.
    + repeat split. rewrite EV, Rmin_right.
      * destruct sx; reflexivity.
      * apply bpow_le. lia.
  - assert (Hno : (fexp 24 128 (Zdigits2 m2 + e1) <= e1)%Z).
    { rewrite fexp32_eq. destruct (Z.eq_dec m2 0) as [->|]; [simpl; lia|].
      pose proof (Zdigits2_le_24 m2 ltac:(lia)). lia. }
    rewrite shr_fexp_noop in E by exact Hno.
    inversion E; subst mrs3 e3; clear E. cbn [shr_record_of_loc shr_m].
    destruct m2 as [|p|p]; [ | | lia].
    + repeat split. cbn [Bext B2R]. rewrite F2R_0, Rmin_left by lra.
      destruct sx; simpl; lra.
    + pose proof (F2R_digits_bounds (Zpos p) e1 ltac:(lia)) as [K1 K2].
      pose proof (Zdigits2_le_24 (Zpos p) ltac:(lia)) as Hd.
      destruct (Z.leb_spec e1 (128 - 24)) as [Hle|Hgt].
      * assert (Hb2 : bounded 24 128 p e1 = true).
        { apply bounded_intro; [|lia].
          destruct Hn as [Hn|Hn].
          - simpl Zdigits2 in Hd. lia.
          - assert (Zdigits2 (Zpos p) = 24%Z) by (apply Zdigits2_unique; lia).
            simpl Zdigits2 in *. lia. }
        repeat split; auto.
        cbn [Bext B2R]. rewrite F2R_cond_Zopp. f_equal.
        rewrite Rmin_left; auto. left.
        eapply Rlt_le_trans; [apply bounded_lt_bpow; exact Hb2|].
        apply bpow_le. lia.
      * repeat split. rewrite Rmin_right.
        -- destruct sx; reflexivity.
        -- assert (2 ^ 23 <= Zpos p)%Z by lia.
           eapply Rle_trans; [|apply (F2R_le (2 ^ 23) (Zpos p) e1); lia].
           rewrite F2R_bpow by lia. apply bpow_le. lia.
Qed.

Lemma Rabs_le_inv a b : Rabs a <= b -> - b <= a <= b.
Proof. unfold Rabs. destruct (Rcase_abs a); lra. Qed.

Lemma B2R_lt_bpow128 y :
  valid32 y = true -> is_finite y = true -> Rabs (B2R y) < bpow 128.
Proof.
  intros V F. pose proof (bpow_gt_0 128).
  destruct y as [s| | |s m e]; try discriminate; cbn [B2R].
  - rewrite Rabs_R0. lra.
  - rewrite F2R_cond_Zopp.
    assert (Rabs (sgn s (F2R (Zpos m) e)) = F2R (Zpos m) e) as ->.
    { pose proof (F2R_pos (Zpos m) e ltac:(lia)).
      destruct s; simpl; [rewrite Rabs_Ropp|]; apply Rabs_pos_eq; lra. }
    simpl in V. pose proof (bounded_inv _ _ V) as [_ K].
    eapply Rlt_le_trans; [apply bounded_lt_bpow; exact V|].
    apply bpow_le. lia.
Qed.

Lemma valid32_opp y : valid32 (SFopp y) = valid32 y.
Proof. destruct y; reflexivity. Qed.

Lemma is_finite_opp y : is_finite (SFopp y) = is_finite y.
Proof. destruct y; reflexivity. Qed.

Lemma B2R_opp y : B2R (SFopp y) = - B2R y.
Proof.
  destruct y as [s| | |s m e]; cbn [SFopp B2R]; try lra.
  rewrite !F2R_cond_Zopp. destruct s; simpl; lra.
Qed.

Theorem binary_round_aux_correct sx m e l x :
  (0 <= m)%Z -> located m e l x -> (e <= fexp 24 128 (Zdigits2 m + e))%Z ->
  rounds_to (sgn sx x) (binary_round_aux 24 128 sx m e l).
Proof.
  intros Hm Hloc HP.
  pose proof (round_core m e l x Hm Hloc HP _ _ _ eq_refl eq_refl eq_refl)
    as (Ee1 & Hm2 & He1 & Hn & LO & HI & ERR & MAG).
  unfold binary_round_aux.
  destruct (shr_fexp 24 128 m e l) as [mrs1 e1] eqn:E1.
  cbn [fst snd] in *. subst e1.
  set (e1 := fexp 24 128 (Zdigits2 m + e)) in *.
  set (m2 := round_nearest_even (shr_m mrs1) (loc_of_shr_record mrs1)) in *.
  destruct (shr_fexp 24 128 m2 e1 loc_Exact) as [mrs3 e3] eqn:E3.
  destruct (finish_spec sx m2 e1 mrs3 e3 Hm2 He1 Hn E3 _ eq_refl) as (V & NN & BE).
  pose proof (located_bounds _ _ _ _ Hloc) as [X1 X2].
  pose proof (F2R_nonneg m e Hm) as X0.
  pose proof (F2R_nonneg m2 e1 ltac:(lia)) as V0.
  pose proof (bpow_gt_0 128) as Hb.
  constructor; auto.
  - intros y Vy Fy Hy. rewrite BE.
    pose proof (B2R_lt_bpow128 y Vy Fy) as By. apply Rabs_def2 in By.
    destruct sx; cbn [sgn] in *.
    + assert (K : F2R m2 e1 <= B2R (SFopp y)).
      { apply HI. rewrite valid32_opp; auto. rewrite is_finite_opp; auto.
        rewrite B2R_opp. lra. }
      rewrite B2R_opp in K.
      pose proof (Rmin_l (F2R m2 e1) (bpow 128)). lra.
    + specialize (LO y Vy Fy Hy).
      apply Rmin_case; lra.
  - intros y Vy Fy Hy. rewrite BE.
    pose proof (B2R_lt_bpow128 y Vy Fy) as By. apply Rabs_def2 in By.
    destruct sx; cbn [sgn] in *.
    + assert (K : B2R (SFopp y) <= F2R m2 e1).
      { apply LO. rewrite valid32_opp; auto. rewrite is_finite_opp; auto.
        rewrite B2R_opp. lra. }
      rewrite B2R_opp in K.
      apply Rmin_case; lra.
    + specialize (HI y Vy Fy Hy).
      pose proof (Rmin_l (F2R m2 e1) (bpow 128)). lra.
  - intros k Hk Hx. rewrite BE.
    assert (Hx' : x < bpow k).
    { destruct sx; cbn [sgn] in Hx; [rewrite Rabs_Ropp in Hx|];
        rewrite Rabs_pos_eq in Hx; lra. }
    pose proof (MAG k Hx') as Hek.
    assert (Hxk : x < bpow 128).
    { eapply Rlt_le_trans; [exact Hx'|]. apply bpow_le; lia. }
    assert (Rabs (Rmin (F2R m2 e1) (bpow 128) - x) <= bpow e1 / 2).
    { apply Rabs_le. apply Rabs_le_inv in ERR.
      pose proof (bpow_gt_0 e1).
      destruct (Rle_dec (F2R m2 e1) (bpow 128)).
      - rewrite Rmin_left; lra.
      - rewrite Rmin_right; lra. }
    assert (bpow e1 <= bpow (fexp 24 128 k)) by (apply bpow_le; exact Hek).
    destruct sx; cbn [sgn].
    + replace (- Rmin (F2R m2 e1) (bpow 128) - - x)
        with (- (Rmin (F2R m2 e1) (bpow 128) - x)) by ring.
      rewrite Rabs_Ropp. lra.
    + lra.
Qed.

(** ** Comparison *)

Lemma bounded_exp_lt m1 e1 m2 e2 :
  bounded 24 128 m1 e1 = true -> bounded 24 128 m2 e2 = true ->
  (e1 < e2)%Z -> F2R (Zpos m1) e1 < F2R (Zpos m2) e2.
Proof.
  intros H1 H2 He.
  pose proof (bounded_lt_bpow _ _ H1).
  pose proof (bounded_inv _ _ H1) as [K1 _].
  pose proof (bounded_normal_ge _ _ H2 ltac:(lia)).
  assert (bpow (e1 + 24) <= bpow (e2 + 23)) by (apply bpow_le; lia).
  lra.
Qed.

Lemma SFcompare_Bext a b :
  valid32 a = true -> valid32 b = true ->
  is_nan a = false -> is_nan b = false ->
  match SFcompare a b with
  | Some Lt => Bext a < Bext b
  | Some Eq => Bext a = Bext b
  | Some Gt => Bext b < Bext a
  | None => False
  end.
Proof.
  intros Va Vb Na Nb.
  pose proof (bpow_gt_0 128) as Hb.
  destruct a as [sa|sa| |sa ma ea]; try discriminate;
  destruct b as [sb|sb| |sb mb eb]; try discriminate.
  - simpl. reflexivity.
  - destruct sb; simpl; lra.
  - cbn [SFcompare Bext B2R]. rewrite F2R_cond_Zopp.
    pose proof (F2R_pos (Zpos mb) eb ltac:(lia)).
    destruct sb; simpl; lra.
  - destruct sa; simpl; lra.
  - destruct sa, sb; simpl; lra.
  - pose proof (B2R_lt_bpow128 _ Vb eq_refl) as K. apply Rabs_def2 in K.
    destruct sa; cbn [SFcompare Bext] in *; lra.
  - cbn [SFcompare Bext B2R]. rewrite F2R_cond_Zopp.
    pose proof (F2R_pos (Zpos ma) ea ltac:(lia)).
    destruct sa; simpl; lra.
  - pose proof (B2R_lt_bpow128 _ Va eq_refl) as K. apply Rabs_def2 in K.
    destruct sb; cbn [SFcompare Bext] in *; lra.
  - cbn [SFcompare Bext B2R]. rewrite !F2R_cond_Zopp.
    pose proof (F2R_pos (Zpos ma) ea ltac:(lia)).
    pose proof (F2R_pos (Zpos mb) eb ltac:(lia)).
    simpl in Va, Vb.
    assert (CMP : match Z.compare ea eb with
                  | Lt => F2R (Zpos ma) ea < F2R (Zpos mb) eb
                  | Gt => F2R (Zpos mb) eb < F2R (Zpos ma) ea
                  | Eq => match Pos.compare_cont Eq ma mb with
                          | Lt => F2R (Zpos ma) ea < F2R (Zpos mb) eb
                          | Gt => F2R (Zpos mb) eb < F2R (Zpos ma) ea
                          | Eq => F2R (Zpos ma) ea = F2R (Zpos mb) eb
                          end
                  end).
    { destruct (Z.compare_spec ea eb) as [E|L|G].
      - subst eb. change (Pos.compare_cont Eq ma mb) with (Pos.compare ma mb).
        destruct (Pos.compare_spec ma mb) as [E|L|G].
        + subst; reflexivity.
        + apply F2R_lt. lia.
        + apply F2R_lt. lia.
      - apply bounded_exp_lt; auto.
      - apply bounded_exp_lt; auto. }
    destruct sa, sb; simpl; try lra;
      destruct (Z.compare ea eb); try lra;
      destruct (Pos.compare_cont Eq ma mb); simpl; lra.
Qed.

Lemma SFltb_Bext a b :
  valid32 a = true -> valid32 b = true ->
  is_nan a = false -> is_nan b = false ->
  (SFltb a b = true <-> Bext a < Bext b).
Proof.
  intros Va Vb Na Nb. pose proof (SFcompare_Bext a b Va Vb Na Nb) as H.
  unfold SFltb. destruct (SFcompare a b) as [[| |]|]; split; intros; try lra;
    try discriminate; try reflexivity; try contradiction.
Qed.

Lemma SFleb_Bext a b :
  valid32 a = true -> valid32 b = true ->
  is_nan a = false -> is_nan b = false ->
  (SFleb a b = true <-> Bext a <= Bext b).
Proof.
  intros Va Vb Na Nb. pose proof (SFcompare_Bext a b Va Vb Na Nb) as H.
  unfold SFleb. destruct (SFcompare a b) as [[| |]|]; split; intros; try lra;
    try discriminate; try reflexivity; try contradiction.
Qed.

Lemma SFltb_nonnan a b : SFltb a b = true -> is_nan a = false /\ is_nan b = false.
Proof.
  unfold SFltb. destruct a, b; simpl; intros; try discriminate; auto.
Qed.

Lemma SFleb_nonnan a b : SFleb a b = true -> is_nan a = false /\ is_nan b = false.
Proof.
  unfold SFleb. destruct a, b; simpl; intros; try discriminate; auto.
Qed.

(** Antisymmetry of the comparison, for all values. *)
Lemma SFcompare_swap a b :
  SFcompare b a = match SFcompare a b with
                  | Some c => Some (CompOpp c)
                  | None => None
                  end.
Proof.
  destruct a as [sa|sa| |sa ma ea], b as [sb|sb| |sb mb eb]; simpl;
    try reflexivity;
    try (destruct sa; reflexivity); try (destruct sb; reflexivity);
    try (destruct sa, sb; reflexivity).
  destruct sa, sb; try reflexivity;
    rewrite (Z.compare_antisym ea eb);
    destruct (Z.compare ea eb) eqn:E; simpl; try reflexivity;
    change (Pos.compare_cont Eq mb ma) with (Pos.compare mb ma);
    change (Pos.compare_cont Eq ma mb) with (Pos.compare ma mb);
    rewrite (Pos.compare_antisym ma mb);
    destruct (Pos.compare ma mb); reflexivity.
Qed.

Lemma SFleb_SFltb_false a b : SFleb a b = true -> SFltb b a = false.
Proof.
  unfold SFleb, SFltb. rewrite (SFcompare_swap a b).
  destruct (SFcompare a b) as [[| |]|]; simpl; intros; try discriminate; reflexivity.
Qed.

Lemma SFltb_SFleb a b : SFltb a b = true -> SFleb a b = true.
Proof.
  unfold SFleb, SFltb.
  destruct (SFcompare a b) as [[| |]|]; simpl; intros; try discriminate; reflexivity.
Qed.

(** ** Exact results *)

Lemma rounds_to_exact y :
  valid32 y = true -> is_finite y = true -> rounds_to (B2R y) y.
Proof.
  intros V F.
  assert (Bext y = B2R y) as E by (destruct y; try discriminate; reflexivity).
  constructor; auto.
  - destruct y; try discriminate; reflexivity.
  - intros. rewrite E. auto.
  - intros. rewrite E. auto.
  - intros k Hk Hx. rewrite E.
    replace (B2R y - B2R y) with 0 by ring. rewrite Rabs_R0.
    pose proof (bpow_gt_0 (fexp 24 128 k)). lra.
Qed.

Lemma Bext_finite r :
  is_nan r = false -> - bpow 128 < Bext r < bpow 128 ->
  is_finite r = true /\ Bext r = B2R r.
Proof.
  intros N H. destruct r as [s|s| |s m e]; try discriminate; auto.
  destruct s; cbn [Bext] in H; lra.
Qed.

Lemma rounds_to_between x r ylo yhi :
  rounds_to x r ->
  valid32 ylo = true -> is_finite ylo = true ->
  valid32 yhi = true -> is_finite yhi = true ->
  B2R ylo <= x <= B2R yhi ->
  is_finite r = true /\ B2R ylo <= B2R r <= B2R yhi.
Proof.
  intros H V1 F1 V2 F2 [L U].
  pose proof (rt_lo _ _ H ylo V1 F1 L) as K1.
  pose proof (rt_hi _ _ H yhi V2 F2 U) as K2.
  pose proof (B2R_lt_bpow128 ylo V1 F1) as B1. apply Rabs_def2 in B1.
  pose proof (B2R_lt_bpow128 yhi V2 F2) as B2. apply Rabs_def2 in B2.
  destruct (Bext_finite r (rt_nonnan _ _ H)) as [Fr Er]. lra.
  rewrite <- Er. auto.
Qed.

Lemma rounds_to_representable x r y :
  rounds_to x r -> valid32 y = true -> is_finite y = true -> B2R y = x ->
  is_finite r = true /\ B2R r = x.
Proof.
  intros H V F E.
  destruct (rounds_to_between x r y y H V F V F ltac:(lra)) as [Fr K].
  split; auto. lra.
Qed.

Lemma Zpos_iter_xO d : forall m,
  Zpos (Pos.iter xO m d) = (Zpos m * 2 ^ Zpos d)%Z.
Proof.
  induction d as [|d IH] using Pos.peano_ind; intros m.
  - simpl. lia.
  - rewrite Pos.iter_succ, Pos2Z.inj_xO, IH, Pos2Z.inj_succ, Z.pow_succ_r by lia.
    lia.
Qed.

Lemma Zdigits2_mul_pow2 m k :
  (0 < m)%Z -> (0 <= k)%Z -> Zdigits2 (m * 2 ^ k) = (Zdigits2 m + k)%Z.
Proof.
  intros Hm Hk. pose proof (Zdigits2_bounds m Hm) as [L U].
  pose proof (Zdigits2_pos m Hm) as Hd.
  assert (0 < 2 ^ k)%Z by (apply Z.pow_pos_nonneg; lia).
  apply Zdigits2_unique; [|lia].
  replace (Zdigits2 m + k - 1)%Z with ((Zdigits2 m - 1) + k)%Z by lia.
  rewrite !Z.pow_add_r by lia. split; nia.
Qed.

Lemma shl_align_spec mx ex ex' :
  F2R (Zpos (fst (shl_align mx ex ex'))) (snd (shl_align mx ex ex'))
    = F2R (Zpos mx) ex
  /\ snd (shl_align mx ex ex') = Z.min ex ex'
  /\ (Zdigits2 (Zpos (fst (shl_align mx ex ex'))) + snd (shl_align mx ex ex')
      = Zdigits2 (Zpos mx) + ex)%Z.
Proof.
  unfold shl_align. destruct (ex' - ex)%Z as [|d|d] eqn:E; cbn [fst snd].
  - repeat split; lia.
  - repeat split; lia.
  - rewrite Zpos_iter_xO.
    assert (ex = ex' + Zpos d)%Z by lia.
    repeat split.
    + rewrite F2R_bpow_shift by lia. f_equal. lia.
    + lia.
    + rewrite Zdigits2_mul_pow2 by lia. lia.
Qed.

Lemma binary_round_correct sx mx ex :
  rounds_to (sgn sx (F2R (Zpos mx) ex)) (binary_round 24 128 sx mx ex).
Proof.
  unfold binary_round.
  pose proof (shl_align_spec mx ex (fexp 24 128 (Zpos (digits2_pos mx) + ex)))
    as (V & E & D).
  destruct (shl_align mx ex (fexp 24 128 (Zpos (digits2_pos mx) + ex))) as [mz ez].
  cbn [fst snd] in *. rewrite <- V.
  apply binary_round_aux_correct.
  - lia.
  - reflexivity.
  - rewrite D. simpl Zdigits2. rewrite E. lia.
Qed.

Lemma binary_normalize_correct m e :
  rounds_to (F2R m e) (binary_normalize 24 128 m e false).
Proof.
  destruct m as [|p|p]; cbn [binary_normalize].
  - rewrite F2R_0. apply (rounds_to_exact (S754_zero false)); reflexivity.
  - apply (binary_round_correct false).
  - change (Zneg p) with (- Zpos p)%Z. rewrite F2R_opp.
    apply (binary_round_correct true).
Qed.

(** ** Addition and subtraction *)

Lemma SFadd_finite_correct sx mx ex sy my ey :
  rounds_to (B2R (S754_finite sx mx ex) + B2R (S754_finite sy my ey))
    (SFadd 24 128 (S754_finite sx mx ex) (S754_finite sy my ey)).
Proof.
  cbn [SFadd B2R].
  pose proof (shl_align_spec mx ex (Z.min ex ey)) as (V1 & E1 & _).
  pose proof (shl_align_spec my ey (Z.min ex ey)) as (V2 & E2 & _).
  replace (Z.min ex (Z.min ex ey)) with (Z.min ex ey) in E1 by lia.
  replace (Z.min ey (Z.min ex ey)) with (Z.min ex ey) in E2 by lia.
  rewrite E1 in V1. rewrite E2 in V2.
  match goal with |- rounds_to ?x (binary_normalize _ _ ?m ?e _) =>
    replace x with (F2R m e) end.
  apply binary_normalize_correct.
  rewrite !F2R_cond_Zopp. rewrite <- V1, <- V2.
  unfold F2R. rewrite plus_IZR.
  destruct sx, sy; cbn [cond_Zopp sgn]; rewrite ?opp_IZR; ring.
Qed.

Lemma SFsub_finite_correct sx mx ex sy my ey :
  rounds_to (B2R (S754_finite sx mx ex) - B2R (S754_finite sy my ey))
    (SFsub 24 128 (S754_finite sx mx ex) (S754_finite sy my ey)).
Proof.
  cbn [SFsub B2R].
  pose proof (shl_align_spec mx ex (Z.min ex ey)) as (V1 & E1 & _).
  pose proof (shl_align_spec my ey (Z.min ex ey)) as (V2 & E2 & _).
  replace (Z.min ex (Z.min ex ey)) with (Z.min ex ey) in E1 by lia.
  replace (Z.min ey (Z.min ex ey)) with (Z.min ex ey) in E2 by lia.
  rewrite E1 in V1. rewrite E2 in V2.
  match goal with |- rounds_to ?x (binary_normalize _ _ ?m ?e _) =>
    replace x with (F2R m e) end.
  apply binary_normalize_correct.
  rewrite !F2R_cond_Zopp. rewrite <- V1, <- V2.
  unfold F2R. rewrite minus_IZR.
  destruct sx, sy; cbn [cond_Zopp sgn]; rewrite ?opp_IZR; ring.
Qed.

Lemma SFadd_correct a b :
  valid32 a = true -> valid32 b = true ->
  is_finite a = true -> is_finite b = true ->
  rounds_to (B2R a + B2R b) (SFadd 24 128 a b).
Proof.
  intros Va Vb Fa Fb.
  destruct a as [sa| | |sa ma ea]; try discriminate;
  destruct b as [sb| | |sb mb eb]; try discriminate.
  - replace (B2R (S754_zero sa) + B2R (S754_zero sb)) with 0 by (simpl; lra).
    destruct sa, sb; cbn [SFadd];
      first [apply (rounds_to_exact (S754_zero true)); reflexivity
            |apply (rounds_to_exact (S754_zero false)); reflexivity].
  - replace (B2R (S754_zero sa) + B2R (S754_finite sb mb eb))
      with (B2R (S754_finite sb mb eb)) by (simpl; lra).
    apply rounds_to_exact; auto.
  - replace (B2R (S754_finite sa ma ea) + B2R (S754_zero sb))
      with (B2R (S754_finite sa ma ea)) by (simpl; lra).
    apply rounds_to_exact; auto.
  - apply SFadd_finite_correct.
Qed.

Lemma SFsub_correct a b :
  valid32 a = true -> valid32 b = true ->
  is_finite a = true -> is_finite b = true ->
  rounds_to (B2R a - B2R b) (SFsub 24 128 a b).
Proof.
  intros Va Vb Fa Fb.
  destruct a as [sa| | |sa ma ea]; try discriminate;
  destruct b as [sb| | |sb mb eb]; try discriminate.
  - replace (B2R (S754_zero sa) - B2R (S754_zero sb)) with 0 by (simpl; lra).
    destruct sa, sb; cbn [SFsub];
      first [apply (rounds_to_exact (S754_zero true)); reflexivity
            |apply (rounds_to_exact (S754_zero false)); reflexivity].
  - replace (B2R (S754_zero sa) - B2R (S754_finite sb mb eb))
      with (B2R (S754_finite (negb sb) mb eb)).
    + cbn [SFsub]. apply rounds_to_exact; auto.
    + cbn [B2R]. rewrite !F2R_cond_Zopp. destruct sb; simpl; lra.
  - replace (B2R (S754_finite sa ma ea) - B2R (S754_zero sb))
      with (B2R (S754_finite sa ma ea)) by (simpl; lra).
    apply rounds_to_exact; auto.
  - apply SFsub_finite_correct.
Qed.

(** ** Multiplication *)

Lemma Zdigits2_mul_ge a b :
  (0 < a)%Z -> (0 < b)%Z -> (Zdigits2 a + Zdigits2 b - 1 <= Zdigits2 (a * b))%Z.
Proof.
  intros Ha Hb.
  pose proof (Zdigits2_bounds a Ha) as [La Ua].
  pose proof (Zdigits2_bounds b Hb) as [Lb Ub].
  pose proof (Zdigits2_pos a Ha). pose proof (Zdigits2_pos b Hb).
  assert (Hab : (0 < a * b)%Z) by nia.
  pose proof (Zdigits2_bounds (a * b) Hab) as [_ Uab].
  pose proof (Zdigits2_pos (a * b) Hab).
  destruct (Z_le_gt_dec (Zdigits2 a + Zdigits2 b - 1) (Zdigits2 (a * b))); auto.
  exfalso.
  assert (2 ^ Zdigits2 (a * b) <= 2 ^ (Zdigits2 a - 1 + (Zdigits2 b - 1)))%Z
    by (apply Z.pow_le_mono_r; lia).
  rewrite Z.pow_add_r in * by lia.
  assert (2 ^ (Zdigits2 a - 1) * 2 ^ (Zdigits2 b - 1) <= a * b)%Z.
  { apply Z.mul_le_mono_nonneg; try lia;
      apply Z.lt_le_incl, Z.pow_pos_nonneg; lia. }
  lia.
Qed.

Lemma SFmul_finite_correct sx mx ex sy my ey :
  bounded 24 128 mx ex = true -> bounded 24 128 my ey = true ->
  rounds_to (B2R (S754_finite sx mx ex) * B2R (S754_finite sy my ey))
    (SFmul 24 128 (S754_finite sx mx ex) (S754_finite sy my ey)).
Proof.
  intros Bx By. cbn [SFmul B2R].
  replace (F2R (cond_Zopp sx (Zpos mx)) ex * F2R (cond_Zopp sy (Zpos my)) ey)
    with (sgn (xorb sx sy) (F2R (Zpos (mx * my)) (ex + ey))).
  - apply binary_round_aux_correct.
    + lia.
    + reflexivity.
    + pose proof (bounded_inv _ _ Bx) as [Cx _].
      pose proof (bounded_inv _ _ By) as [Cy _].
      pose proof (Zdigits2_mul_ge (Zpos mx) (Zpos my) ltac:(lia) ltac:(lia)) as K.
      simpl Zdigits2 in K. rewrite fexp32_eq. simpl Zdigits2.
      change (Z.pos mx * Z.pos my)%Z with (Z.pos (mx * my)) in K.
      lia.
  - rewrite !F2R_cond_Zopp. unfold F2R.
    rewrite Pos2Z.inj_mul, mult_IZR, bpow_add.
    destruct sx, sy; simpl; ring.
Qed.

Lemma SFmul_correct a b :
  valid32 a = true -> valid32 b = true ->
  is_finite a = true -> is_finite b = true ->
  rounds_to (B2R a * B2R b) (SFmul 24 128 a b).
Proof.
  intros Va Vb Fa Fb.
  destruct a as [sa| | |sa ma ea]; try discriminate;
  destruct b as [sb| | |sb mb eb]; try discriminate.
  - replace (B2R (S754_zero sa) * B2R (S754_zero sb)) with 0 by (simpl; lra).
    cbn [SFmul]. apply (rounds_to_exact (S754_zero (xorb sa sb))); reflexivity.
  - replace (B2R (S754_zero sa) * B2R (S754_finite sb mb eb)) with 0 by (simpl; lra).
    cbn [SFmul]. apply (rounds_to_exact (S754_zero (xorb sa sb))); reflexivity.
  - replace (B2R (S754_finite sa ma ea) * B2R (S754_zero sb)) with 0 by (simpl; lra).
    cbn [SFmul]. apply (rounds_to_exact (S754_zero (xorb sa sb))); reflexivity.
  - apply SFmul_finite_correct; auto.
Qed.

(** ** Division *)

Lemma new_location_located my r q e' x :
  (0 < my)%Z -> (0 <= r < my)%Z ->
  x = (IZR q + IZR r / IZR my) * bpow e' ->
  located q e' (new_location my r) x.
Proof.
  intros Hmy Hr ->.
  pose proof (bpow_gt_0 e') as Hb.
  assert (Hmy' : 0 < IZR my) by (apply IZR_lt; lia).
  assert (Hr0 : 0 <= IZR r) by (apply IZR_le; lia).
  set (f := IZR r / IZR my).
  assert (Ex : (IZR q + f) * bpow e' = F2R q e' + f * bpow e')
    by (unfold F2R; ring).
  rewrite Ex.
  assert (Hf : forall c, (2 * r ?= my)%Z = c ->
             match c with
             | Lt => f < 1 / 2
             | Eq => f = 1 / 2
             | Gt => 1 / 2 < f
             end).
  { intros c <-. unfold f.
    destruct (Z.compare_spec (2 * r) my) as [E|L|G].
    - rewrite <- E, mult_IZR. field.
      apply IZR_lt in Hmy. rewrite <- E, mult_IZR in Hmy. lra.
    - apply IZR_lt in L. rewrite mult_IZR in L.
      apply (Rmult_lt_reg_r (IZR my)); auto.
      unfold Rdiv. rewrite Rmult_assoc, Rinv_l by lra. lra.
    - apply IZR_lt in G. rewrite mult_IZR in G.
      apply (Rmult_lt_reg_r (IZR my)); auto.
      unfold Rdiv at 2. rewrite Rmult_assoc, Rinv_l by lra. lra. }
  assert (Hf1 : f < 1).
  { unfold f. apply (Rmult_lt_reg_r (IZR my)); auto.
    unfold Rdiv. rewrite Rmult_assoc, Rinv_l by lra.
    assert (IZR r < IZR my) by (apply IZR_lt; lia). lra. }
  assert (Hf0 : r <> 0%Z -> 0 < f).
  { intros Hne. unfold f. apply Rdiv_lt_0_compat; auto. apply IZR_lt. lia. }
  unfold new_location.
  destruct (Z.even my) eqn:Ev.
  - unfold new_location_even.
    destruct (Z.eqb_spec r 0) as [->|Hne].
    + cbn [located]. unfold f. unfold Rdiv. rewrite Rmult_0_l. lra.
    + specialize (Hf0 Hne). specialize (Hf _ eq_refl).
      destruct (2 * r ?= my)%Z; cbn [located]; nra.
  - unfold new_location_odd.
    destruct (Z.eqb_spec r 0) as [->|Hne].
    + cbn [located]. unfold f. unfold Rdiv. rewrite Rmult_0_l. lra.
    + specialize (Hf0 Hne).
      assert (Hodd : (2 * r <> my)%Z).
      { intros E. rewrite <- E in Ev. rewrite Z.even_mul in Ev. discriminate. }
      destruct (Z.compare_spec (2 * r + 1) my) as [E|L|G].
      * pose proof (Hf Lt ltac:(apply Z.compare_lt_iff; lia)) as K.
        cbn [located]. nra.
      * pose proof (Hf Lt ltac:(apply Z.compare_lt_iff; lia)) as K.
        cbn [located]. nra.
      * pose proof (Hf Gt ltac:(apply Z.compare_gt_iff; lia)) as K.
        cbn [located]. nra.
Qed.

Lemma Zdigits2_ge m k : (0 <= k)%Z -> (2 ^ k <= m)%Z -> (k + 1 <= Zdigits2 m)%Z.
Proof.
  intros Hk H.
  assert (0 < 2 ^ k)%Z by (apply Z.pow_pos_nonneg; lia).
  pose proof (Zdigits2_bounds m ltac:(lia)) as [_ U].
  destruct (Z_le_gt_dec (k + 1) (Zdigits2 m)); auto.
  pose proof (Zdigits2_nonneg m).
  assert (2 ^ Zdigits2 m <= 2 ^ k)%Z by (apply Z.pow_le_mono_r; lia). lia.
Qed.

Lemma SFdiv_core_binary_spec mx ex my ey :
  forall q e' l,
  SFdiv_core_binary 24 128 (Zpos mx) ex (Zpos my) ey = (q, e', l) ->
  (0 <= q)%Z /\
  located q e' l (F2R (Zpos mx) ex / F2R (Zpos my) ey) /\
  (e' <= fexp 24 128 (Zdigits2 q + e'))%Z.
Proof.
  intros q e' l. unfold SFdiv_core_binary.
  set (d1 := Zdigits2 (Zpos mx)). set (d2 := Zdigits2 (Zpos my)).
  set (e0 := Z.min (fexp 24 128 (d1 + ex - (d2 + ey))) (ex - ey)).
  set (s := (ex - ey - e0)%Z).
  assert (Hs : (0 <= s)%Z) by (unfold s, e0; lia).
  set (m' := match s with
             | 0%Z => Zpos mx
             | Zpos _ => Z.shiftl (Zpos mx) s
             | Zneg _ => 0%Z
             end).
  assert (Em : m' = (Zpos mx * 2 ^ s)%Z).
  { unfold m'. destruct s as [|p|p] eqn:Es.
    - simpl. lia.
    - apply Z.shiftl_mul_pow2. lia.
    - lia. }
  pose proof (Z_div_mod m' (Zpos my) ltac:(lia)) as DM.
  destruct (Z.div_eucl m' (Zpos my)) as [q0 r0].
  destruct DM as [DM1 DM2].
  intros E. inversion E; subst q0 e' l; clear E.
  assert (H2s : (0 < 2 ^ s)%Z) by (apply Z.pow_pos_nonneg; lia).
  assert (Hm' : (0 < m')%Z) by (rewrite Em; nia).
  assert (Hq : (0 <= q)%Z) by nia.
  split; [exact Hq|]. split.
  - apply new_location_located; try lia.
    assert (Hy : 0 < IZR (Zpos my)) by (apply IZR_lt; lia).
    pose proof (bpow_gt_0 ey). pose proof (bpow_gt_0 e0).
    assert (IZR (Zpos mx) * bpow s = IZR (Zpos my) * IZR q + IZR r0) as K.
    { rewrite bpow_IZR by lia. rewrite <- mult_IZR, <- Em, DM1.
      rewrite plus_IZR, mult_IZR. reflexivity. }
    unfold F2R.
    replace ex with (e0 + s + ey)%Z by (unfold s; lia).
    rewrite !bpow_add.
    replace (IZR (Z.pos mx) * (bpow e0 * bpow s * bpow ey) / (IZR (Z.pos my) * bpow ey))
      with ((IZR (Zpos mx) * bpow s) / IZR (Zpos my) * bpow e0) by (field; lra).
    rewrite K. field. lra.
  - (* enough digits *)
    rewrite fexp32_eq.
    assert (He0 : (e0 <= Z.max (d1 + ex - (d2 + ey) - 24) (-149))%Z).
    { unfold e0. rewrite fexp32_eq. lia. }
    pose proof (Zdigits2_nonneg q) as Hdq.
    destruct (Z_le_gt_dec d2 (d1 + s - 1)) as [Hge|Hlt].
    + (* q has at least d1 + s - d2 digits *)
      assert (Hq2 : (2 ^ (d1 + s - 1 - d2) <= q)%Z).
      { pose proof (Zdigits2_bounds (Zpos mx) ltac:(lia)) as [L1 _].
        pose proof (Zdigits2_bounds (Zpos my) ltac:(lia)) as [_ U2].
        pose proof (Zdigits2_pos (Zpos mx) ltac:(lia)).
        pose proof (Zdigits2_pos (Zpos my) ltac:(lia)).
        fold d1 in L1, H. fold d2 in U2, H0.
        assert (2 ^ (d1 - 1) * 2 ^ s <= m')%Z by (rewrite Em; nia).
        rewrite <- Z.pow_add_r in H1 by lia.
        replace (d1 - 1 + s)%Z with ((d1 + s - 1 - d2) + d2)%Z in H1 by lia.
        rewrite Z.pow_add_r in H1 by lia.
        assert (0 < 2 ^ (d1 + s - 1 - d2))%Z by (apply Z.pow_pos_nonneg; lia).
        destruct (Z_le_gt_dec (2 ^ (d1 + s - 1 - d2)) q); auto.
        exfalso.
        assert (q + 1 <= 2 ^ (d1 + s - 1 - d2))%Z by lia.
        assert (Z.pos my * (q + 1) <= 2 ^ d2 * 2 ^ (d1 + s - 1 - d2))%Z.
        { apply Z.mul_le_mono_nonneg; lia. }
        nia. }
      pose proof (Zdigits2_ge q (d1 + s - 1 - d2) ltac:(lia) Hq2).
      unfold s in *. lia.
    + unfold s in *. lia.
Qed.

Lemma SFdiv_finite_correct sx mx ex sy my ey :
  rounds_to (B2R (S754_finite sx mx ex) / B2R (S754_finite sy my ey))
    (SFdiv 24 128 (S754_finite sx mx ex) (S754_finite sy my ey)).
Proof.
  cbn [SFdiv B2R].
  pose proof (SFdiv_core_binary_spec mx ex my ey) as K.
  destruct (SFdiv_core_binary 24 128 (Zpos mx) ex (Zpos my) ey) as [[q e'] l].
  destruct (K q e' l eq_refl) as (Hq & Hl & HP).
  replace (F2R (cond_Zopp sx (Zpos mx)) ex / F2R (cond_Zopp sy (Zpos my)) ey)
    with (sgn (xorb sx sy) (F2R (Zpos mx) ex / F2R (Zpos my) ey)).
  - apply binary_round_aux_correct; auto.
  - rewrite !F2R_cond_Zopp.
    pose proof (F2R_pos (Zpos my) ey ltac:(lia)).
    destruct sx, sy; simpl; field; lra.
Qed.

Lemma SFdiv_correct a sy my ey :
  valid32 a = true -> is_finite a = true ->
  rounds_to (B2R a / B2R (S754_finite sy my ey))
    (SFdiv 24 128 a (S754_finite sy my ey)).
Proof.
  intros Va Fa. destruct a as [sa| | |sa ma ea]; try discriminate.
  - replace (B2R (S754_zero sa) / B2R (S754_finite sy my ey)) with 0.
    + cbn [SFdiv]. apply (rounds_to_exact (S754_zero (xorb sa sy))); reflexivity.
    + cbn [B2R]. unfold Rdiv. rewrite Rmult_0_l. reflexivity.
  - apply SFdiv_finite_correct.
Qed.

(** ** Signs *)

Lemma located_exists m e l : exists x, located m e l x.
Proof.
  pose proof (bpow_gt_0 e).
  destruct l as [|[| |]]; cbn [located].
  - eexists; reflexivity.
  - eexists; reflexivity.
  - exists (F2R m e + bpow e / 4). lra.
  - exists (F2R m e + 3 * bpow e / 4). lra.
Qed.

Lemma shr_fexp_nonneg m e l :
  (0 <= m)%Z -> (0 <= shr_m (fst (shr_fexp 24 128 m e l)))%Z.
Proof.
  intros Hm. destruct (located_exists m e l) as [x Hx].
  apply (shr_fexp_located m e l x Hm Hx).
Qed.

Lemma binary_round_aux_sign sx m e l :
  (0 <= m)%Z -> sign_is sx (binary_round_aux 24 128 sx m e l).
Proof.
  intros Hm. unfold binary_round_aux.
  pose proof (shr_fexp_nonneg m e l Hm) as H1.
  destruct (shr_fexp 24 128 m e l) as [mrs1 e1]. cbn [fst] in H1.
  assert (H2 : (0 <= round_nearest_even (shr_m mrs1) (loc_of_shr_record mrs1))%Z).
  { destruct (loc_of_shr_record mrs1) as [|[| |]]; cbn [round_nearest_even];
      try lia. destruct (Z.even (shr_m mrs1)); lia. }
  pose proof (shr_fexp_nonneg _ e1 loc_Exact H2) as H3.
  destruct (shr_fexp 24 128 _ e1 loc_Exact) as [mrs3 e3]. cbn [fst] in H3.
  destruct (shr_m mrs3); try lia; cbn [sign_is]; auto.
  destruct (Z.leb e3 (128 - 24)); reflexivity.
Qed.

Lemma SFsqrt_sign x :
  sign_is false x -> sign_is false (SFsqrt 24 128 x).
Proof.
  destruct x as [s|s| |s m e]; cbn [sign_is]; intros H; try contradiction;
    subst s; cbn [SFsqrt sign_is]; auto.
  destruct (SFsqrt_core_binary 24 128 (Zpos m) e) as [[q e'] l] eqn:E.
  apply binary_round_aux_sign.
  unfold SFsqrt_core_binary in E.
  match type of E with context [Z.sqrtrem ?a] =>
    pose proof (Z.sqrtrem_sqrt a) as K; destruct (Z.sqrtrem a) as [q0 r0] end.
  cbn [fst] in K. inversion E; subst. apply Z.sqrt_nonneg.
Qed.

Lemma sign_is_false_Bext r : sign_is false r -> is_nan r = false /\ 0 <= Bext r.
Proof.
  pose proof (bpow_gt_0 128).
  destruct r as [s|s| |s m e]; cbn [sign_is]; intros Hs; try contradiction; subst;
    split; auto; cbn [Bext B2R cond_Zopp]; try lra.
  apply F2R_nonneg. lia.
Qed.
End RoundingTheory.

Section GainRuleFacts.
Local Open Scope R_scope.
Local Open Scope arith_scope.

(** ** Arrays and loops *)

Section ArrayLemmas.
Context {A : Arith}.

Lemma aset_length (a : list num) k v : length (aset a k v) = length a.
Proof.
  revert k. induction a as [|h t IH]; intros [|k]; simpl; auto.
Qed.

Lemma aget_aset_same (a : list num) k v :
  (k < length a)%nat -> aget (aset a k v) k = v.
Proof.
  unfold aget. revert k. induction a as [|h t IH]; intros [|k] H; simpl in *;
    try lia; auto. apply IH. lia.
Qed.

Lemma aget_aset_other (a : list num) k j v :
  j <> k -> aget (aset a k v) j = aget a j.
Proof.
  unfold aget. revert k j. induction a as [|h t IH]; intros [|k] [|j] H; simpl;
    try congruence; auto.
Qed.

Lemma aget_calloc n k : aget (calloc n) k = #0.
Proof.
  unfold aget, calloc. revert k. induction n; intros [|k]; simpl; auto.
Qed.

Lemma calloc_length n : length (calloc n) = n.
Proof. apply repeat_length. Qed.
End ArrayLemmas.

Lemma for_loop_inv {St : Type} (P : St -> Prop) (body : nat -> St -> St) (lo : nat) :
  (forall k s, (lo <= k)%nat -> P s -> P (body k s)) ->
  forall n k s, (lo <= k)%nat -> P s -> P (for_loop n k body s).
Proof.
  intros Hb. induction n as [|n IH]; intros k s Hk Hs; simpl.
  - exact Hs.
  - apply IH; [lia|]. apply Hb; assumption.
Qed.

Lemma for_range_inv {St : Type} (P : St -> Prop) (body : nat -> St -> St) lo hi s :
  (forall k s, (lo <= k)%nat -> P s -> P (body k s)) ->
  P s -> P (for_range lo hi body s).
Proof. intros Hb Hs. unfold for_range. apply (for_loop_inv P body lo); auto. Qed.

(** A loop that writes each entry of its range once. *)
Section WriteLoop.
Context {A : Arith}.

Lemma for_loop_write (f : nat -> num) : forall n k0 (G : list num) j,
  (j < length G)%nat ->
  aget (for_loop n k0 (fun k G => aset G k (f k)) G) j =
  if ((k0 <=? j) && (j <? k0 + n))%nat then f j else aget G j.
Proof.
  induction n as [|n IH]; intros k0 G j Hj; simpl.
  - destruct (Nat.leb_spec k0 j), (Nat.ltb_spec j (k0 + 0)); simpl; auto; lia.
  - rewrite IH by (rewrite aset_length; auto).
    destruct (Nat.eq_dec j k0) as [->|Hne].
    + rewrite aget_aset_same by auto.
      replace (S k0 <=? k0)%nat with false by (symmetry; apply Nat.leb_gt; lia).
      replace (k0 <=? k0)%nat with true by (symmetry; apply Nat.leb_le; lia).
      replace (k0 <? k0 + S n)%nat with true by (symmetry; apply Nat.ltb_lt; lia).
      reflexivity.
    + rewrite aget_aset_other by auto.
      replace (j <? S k0 + n)%nat with (j <? k0 + S n)%nat by (f_equal; lia).
      destruct (Nat.leb_spec (S k0) j), (Nat.leb_spec k0 j); simpl; auto; lia.
Qed.

Lemma for_range_write (f : nat -> num) hi (G : list num) j :
  (j <= hi)%nat -> (j < length G)%nat ->
  aget (for_range 0 hi (fun k G => aset G k (f k)) G) j = f j.
Proof.
  intros H1 H2. unfold for_range. rewrite for_loop_write by auto.
  destruct (Nat.leb_spec 0 j), (Nat.ltb_spec j (0 + (S hi - 0))); simpl; auto; lia.
Qed.
End WriteLoop.

(** ** The suppression rules on binary32 *)

Section GainRulesB32.
#[local] Existing Instance b32.

Lemma b32_noise_floor_test (n : @num b32) :
  n [<=] FLT_MIN = true -> n [>] FLT_MIN = false.
Proof. apply SFleb_SFltb_false. Qed.

Lemma spectral_gating_bin_pass s n :
  n [<=] FLT_MIN = true -> spectral_gating_bin s n = #1.
Proof. intros H. unfold spectral_gating_bin. rewrite b32_noise_floor_test; auto. Qed.

Lemma power_sustraction_bin_pass s n :
  n [<=] FLT_MIN = true -> power_sustraction_bin s n = #1.
Proof. intros H. unfold power_sustraction_bin. rewrite b32_noise_floor_test; auto. Qed.

Lemma nonlinear_power_sustraction_bin_pass snr s n :
  n [<=] FLT_MIN = true -> nonlinear_power_sustraction_bin snr s n = #1.
Proof.
  intros H. unfold nonlinear_power_sustraction_bin.
  rewrite b32_noise_floor_test; auto.
Qed.

Lemma wideband_gating_bin_pass x n :
  n [<=] FLT_MIN = true -> wideband_gating_bin x n = #1.
Proof. intros H. unfold wideband_gating_bin. rewrite b32_noise_floor_test; auto. Qed.

Lemma wideband_gating_at fft_size_2 spectrum noise Gk k :
  (k <= fft_size_2)%nat -> (k < length Gk)%nat ->
  aget (wideband_gating fft_size_2 spectrum noise Gk) k =
  wideband_gating_bin (fst (wideband_sums fft_size_2 spectrum noise))
                      (snd (wideband_sums fft_size_2 spectrum noise)).
Proof.
  intros H1 H2. unfold wideband_gating.
  destruct (wideband_sums fft_size_2 spectrum noise) as [x n]. cbn [fst snd].
  apply (for_range_write (fun _ => wideband_gating_bin x n)); auto.
Qed.

(** C1 (as amended): with a noise threshold at or below [FLT_MIN] at bin
    [k], spectral gating, power subtraction and nonlinear power subtraction
    give gain 1 at bin [k]; wideband gating tests the sum of the noise
    thresholds instead, and gives gain 1 at every bin when that sum is at or
    below [FLT_MIN]. *)
Theorem pass_through_below_noise_floor
    (snr_influence : @num b32) fft_size_2 spectrum noise_thresholds Gk k :
  (k <= fft_size_2)%nat -> (k < length Gk)%nat ->
  (aget noise_thresholds k [<=] FLT_MIN = true ->
     aget (spectral_gating fft_size_2 spectrum noise_thresholds Gk) k = #1 /\
     aget (power_sustraction fft_size_2 spectrum noise_thresholds Gk) k = #1 /\
     aget (nonlinear_power_sustraction snr_influence fft_size_2 spectrum
             noise_thresholds Gk) k = #1) /\
  (snd (wideband_sums fft_size_2 spectrum noise_thresholds) [<=] FLT_MIN = true ->
     aget (wideband_gating fft_size_2 spectrum noise_thresholds Gk) k = #1).
Proof.
  intros Hk Hl. split.
  - intros Hn. repeat split.
    + unfold spectral_gating.
      rewrite (for_range_write (fun k => spectral_gating_bin (aget spectrum k)
                 (aget noise_thresholds k))) by auto.
      apply spectral_gating_bin_pass; auto.
    + unfold power_sustraction.
      rewrite (for_range_write (fun k => power_sustraction_bin (aget spectrum k)
                 (aget noise_thresholds k))) by auto.
      apply power_sustraction_bin_pass; auto.
    + unfold nonlinear_power_sustraction.
      rewrite (for_range_write (fun k => nonlinear_power_sustraction_bin
                 snr_influence (aget spectrum k) (aget noise_thresholds k))) by auto.
      apply nonlinear_power_sustraction_bin_pass; auto.
  - intros Hn. rewrite wideband_gating_at by auto.
    apply wideband_gating_bin_pass; auto.
Qed.

Lemma pass_through_below_noise_floor_witness :
  let z := (#0 : @num b32) in
  aget (spectral_gating 1 [#3; #3] [z; #1] [z; z]) 0 = #1 /\
  aget (wideband_gating 1 [z; z] [z; z] [z; z]) 1 = #1.
Proof.
  intros z. split.
  - refine (proj1 (proj1 (pass_through_below_noise_floor #0 1 [#3; #3]
                            [z; #1] [z; z] 0 _ _) _)).
    + simpl; lia.
    + simpl; lia.
    + vm_compute; reflexivity.
  - refine (proj2 (pass_through_below_noise_floor #0 1 [z; z]
                     [z; z] [z; z] 1 _ _) _).
    + simpl; lia.
    + simpl; lia.
    + vm_compute; reflexivity.
Defined.

(** C1 fails for wideband gating: a bin whose own threshold is zero is
    gated with the others. *)
Lemma wideband_gating_not_pass_through : ~ pass_through_invariant wideband_gating.
Proof.
  intros H.
  specialize (H 1%nat [#0; #0] [#0; #1] [#0; #0] 0%nat).
  vm_compute in H.
  assert (K : S754_zero false = S754_finite false 8388608 (-23)).
  { apply H; auto. }
  discriminate K.
Qed.
End GainRulesB32.
End GainRuleFacts.

(** ** Gains in the unit interval *)

Section UnitInterval.
Local Open Scope R_scope.
Local Open Scope arith_scope.

Section B32Facts.
#[local] Existing Instance b32.

Lemma b32_zero_eq : (#0 : @num b32) = S754_zero false.
Proof. reflexivity. Qed.

Lemma b32_one_eq : (#1 : @num b32) = S754_finite false 8388608 (-23).
Proof. reflexivity. Qed.

Lemma B2R_one : B2R (S754_finite false 8388608 (-23)) = 1.
Proof.
  cbn [B2R cond_Zopp]. change 8388608%Z with (2 ^ 23)%Z.
  rewrite F2R_bpow by lia. reflexivity.
Qed.

Lemma finite32_one : finite32 (S754_finite false 8388608 (-23)).
Proof. split; reflexivity. Qed.

Lemma finite32_zero s : finite32 (S754_zero s).
Proof. split; reflexivity. Qed.

Lemma B2R_FLT_MIN : B2R (@FLT_MIN b32) = bpow (-126).
Proof.
  cbn [FLT_MIN b32 B32.b32_FLT_MIN B2R cond_Zopp]. change 8388608%Z with (2 ^ 23)%Z.
  rewrite F2R_bpow by lia. reflexivity.
Qed.

Lemma finite32_Bext x : finite32 x -> Bext x = B2R x.
Proof. intros [_ F]. destruct x; try discriminate; reflexivity. Qed.

Lemma finite32_nonnan x : finite32 x -> is_nan x = false.
Proof. intros [_ F]. destruct x; try discriminate; reflexivity. Qed.

Lemma SFltb_B2R a b : finite32 a -> finite32 b ->
  (SFltb a b = true <-> B2R a < B2R b).
Proof.
  intros Fa Fb. rewrite <- (finite32_Bext a Fa), <- (finite32_Bext b Fb).
  apply SFltb_Bext; try apply Fa; try apply Fb; apply finite32_nonnan; auto.
Qed.

Lemma SFleb_B2R a b : finite32 a -> finite32 b ->
  (SFleb a b = true <-> B2R a <= B2R b).
Proof.
  intros Fa Fb. rewrite <- (finite32_Bext a Fa), <- (finite32_Bext b Fb).
  apply SFleb_Bext; try apply Fa; try apply Fb; apply finite32_nonnan; auto.
Qed.

Lemma in_unit_B2R g : finite32 g -> (in_unit g <-> 0 <= B2R g <= 1).
Proof.
  intros Fg. unfold in_unit.
  rewrite (SFleb_B2R _ _ (finite32_zero false) Fg).
  rewrite (SFleb_B2R _ _ Fg finite32_one). rewrite B2R_one.
  cbn [B2R]. tauto.
Qed.

Lemma finite32_positive x :
  finite32 x -> 0 < B2R x -> exists m e, x = S754_finite false m e.
Proof.
  intros [V F] H. destruct x as [s| | |s m e]; try discriminate.
  - simpl in H. lra.
  - destruct s; [|eauto]. cbn [B2R] in H. rewrite F2R_cond_Zopp in H.
    pose proof (F2R_pos (Zpos m) e ltac:(lia)). simpl in H. lra.
Qed.

Lemma rounds_to_finite32 x r ylo yhi :
  rounds_to x r -> finite32 ylo -> finite32 yhi ->
  B2R ylo <= x <= B2R yhi ->
  finite32 r /\ B2R ylo <= B2R r <= B2R yhi.
Proof.
  intros H [V1 F1] [V2 F2] B.
  destruct (rounds_to_between x r ylo yhi H V1 F1 V2 F2 B) as [Fr K].
  split; auto. split; auto. apply (rt_valid _ _ H).
Qed.

(** A quotient of two positive finite numbers, the first at most the
    second, is in [[0, 1]]. *)
Lemma SFdiv_unit w s :
  finite32 w -> finite32 s -> 0 <= B2R w <= B2R s -> 0 < B2R s ->
  finite32 (SFdiv 24 128 w s) /\ 0 <= B2R (SFdiv 24 128 w s) <= 1.
Proof.
  intros Fw Fs Hw Hs.
  destruct (finite32_positive s Fs Hs) as (m & e & ->).
  pose proof (SFdiv_correct w false m e (proj1 Fw) (proj2 Fw)) as R.
  assert (Hq : 0 <= B2R w / B2R (S754_finite false m e) <= 1).
  { split.
    - apply Rmult_le_pos; [lra|]. left. apply Rinv_0_lt_compat. exact Hs.
    - apply (Rmult_le_reg_r (B2R (S754_finite false m e))); auto.
      unfold Rdiv. rewrite Rmult_assoc, Rinv_l by lra. lra. }
  destruct (rounds_to_finite32 _ _ (S754_zero false) (S754_finite false 8388608 (-23))
              R (finite32_zero false) finite32_one) as [Fq Bq].
  { rewrite B2R_one. cbn [B2R]. exact Hq. }
  rewrite B2R_one in Bq. cbn [B2R] in Bq. split; auto.
Qed.

Lemma power_sustraction_bin_unit (s n : @num b32) :
  finite32 s -> finite32 n ->
  in_unit (power_sustraction_bin s n).
Proof.
  intros Fs Fn. unfold power_sustraction_bin.
  destruct (n [>] FLT_MIN) eqn:En; [|split; reflexivity].
  destruct (s [>] n) eqn:Es; [|split; reflexivity].
  change (SFltb FLT_MIN n = true) in En. change (SFltb n s = true) in Es.
  assert (Ff : finite32 (@FLT_MIN b32)) by (split; reflexivity).
  apply (SFltb_B2R _ _ Ff Fn) in En. rewrite B2R_FLT_MIN in En.
  apply (SFltb_B2R _ _ Fn Fs) in Es.
  pose proof (bpow_gt_0 (-126)) as Hb.
  pose proof (SFsub_correct s n (proj1 Fs) (proj1 Fn) (proj2 Fs) (proj2 Fn)) as R.
  destruct (rounds_to_finite32 _ _ (S754_zero false) s R (finite32_zero false) Fs)
    as [Fd Bd].
  { cbn [B2R]. lra. }
  cbn [B2R] in Bd.
  destruct (SFdiv_unit _ s Fd Fs Bd ltac:(lra)) as [Fq Bq].
  apply in_unit_B2R; auto.
Qed.
End B32Facts.
End UnitInterval.

(** ** The over-subtraction formula *)

Section NonlinearGain.
Local Open Scope R_scope.
Local Open Scope arith_scope.

Section NonlinearB32.
#[local] Existing Instance b32.

Lemma SFdiv_sign sx mx ex sy my ey :
  sign_is (xorb sx sy) (SFdiv 24 128 (S754_finite sx mx ex) (S754_finite sy my ey)).
Proof.
  cbn [SFdiv].
  pose proof (SFdiv_core_binary_spec mx ex my ey) as K.
  destruct (SFdiv_core_binary 24 128 (Zpos mx) ex (Zpos my) ey) as [[q e'] l].
  destruct (K q e' l eq_refl) as (Hq & _).
  apply binary_round_aux_sign. exact Hq.
Qed.

Lemma rounds_to_pos_ext x r : rounds_to x r -> 0 <= x -> pos_ext r.
Proof.
  intros H Hx. split; [apply (rt_valid _ _ H)|]. split; [apply (rt_nonnan _ _ H)|].
  apply (rt_lo _ _ H (S754_zero false)); auto.
Qed.

Lemma pos_ext_cases a :
  pos_ext a ->
  (finite32 a /\ 0 <= B2R a) \/ a = S754_infinity false.
Proof.
  intros (V & N & P). pose proof (bpow_gt_0 128).
  destruct a as [s|s| |s m e]; try discriminate.
  - left. split; [split; reflexivity|]. simpl. lra.
  - destruct s; [cbn [Bext] in P; lra|right; reflexivity].
  - left. split; [split; auto|]. exact P.
Qed.

Lemma alpha_pos_ext (snr s n : @num b32) ms es mn en :
  valid32 snr = true ->
  s = S754_finite false ms es -> n = S754_finite false mn en ->
  pos_ext (if snr [>] #0 then snr [+] sqrtf (s [/] n) else #1).
Proof.
  intros Vs -> ->.
  destruct (snr [>] #0) eqn:E.
  2:{ repeat split. change (0 <= B2R (S754_finite false 8388608 (-23))).
      rewrite B2R_one. lra. }
  change (SFltb (S754_zero false) snr = true) in E.
  pose proof (proj2 (SFltb_nonnan _ _ E)) as Nsnr.
  apply (SFltb_Bext (S754_zero false) snr eq_refl Vs eq_refl Nsnr) in E. cbn [Bext B2R] in E.
  pose proof (SFsqrt_sign _ (SFdiv_sign false ms es false mn en)) as Hq.
  cbn [xorb] in Hq.
  change (pos_ext (SFadd 24 128 snr (SFsqrt 24 128
            (SFdiv 24 128 (S754_finite false ms es) (S754_finite false mn en))))).
  set (q := SFsqrt 24 128 _) in *.
  pose proof (bpow_gt_0 128) as Hb.
  destruct snr as [ss|ss| |ss msn esn]; try discriminate.
  - cbn [Bext B2R] in E. lra.
  - destruct ss; [cbn [Bext] in E; lra|].
    destruct q as [sq|sq| |sq mq eq]; cbn [sign_is] in Hq; try contradiction;
      subst; cbn [SFadd]; repeat split; cbn [Bext]; lra.
  - assert (ss = false) as ->.
    { destruct ss; auto. cbn [Bext B2R] in E. rewrite F2R_cond_Zopp in E.
      pose proof (F2R_pos (Zpos msn) esn ltac:(lia)). simpl in E. lra. }
    destruct q as [sq|sq| |sq mq eq]; cbn [sign_is] in Hq; try contradiction; subst.
    + cbn [SFadd]. repeat split; auto. cbn [Bext] in *. lra.
    + cbn [SFadd]. repeat split. cbn [Bext]. lra.
    + apply (rounds_to_pos_ext _ _ (SFadd_finite_correct false msn esn false mq eq)).
      cbn [Bext B2R cond_Zopp] in *.
      pose proof (F2R_pos (Zpos mq) eq ltac:(lia)). lra.
Qed.

Lemma nonlinear_gain_unit (snr s n : @num b32) :
  valid32 snr = true -> finite32 s -> finite32 n -> n [>] FLT_MIN = true ->
  finite32 (nonlinear_gain snr s n) /\ 0 <= B2R (nonlinear_gain snr s n) <= 1.
Proof.
  intros Vsnr Fs Fn En. unfold nonlinear_gain. cbv zeta.
  destruct (s [>] #0) eqn:Es.
  2:{ split; [apply finite32_zero|]. simpl. lra. }
  change (SFltb (S754_zero false) s = true) in Es.
  apply (SFltb_B2R _ _ (finite32_zero false) Fs) in Es. cbn [B2R] in Es.
  change (SFltb FLT_MIN n = true) in En.
  assert (Ff : finite32 (@FLT_MIN b32)) by (split; reflexivity).
  apply (SFltb_B2R _ _ Ff Fn) in En. rewrite B2R_FLT_MIN in En.
  pose proof (bpow_gt_0 (-126)) as Hb.
  destruct (finite32_positive s Fs Es) as (ms & es & Hs).
  destruct (finite32_positive n Fn ltac:(lra)) as (mn & en & Hn).
  remember (if snr [>] #0 then snr [+] sqrtf (s [/] n) else #1) as alpha eqn:Dalpha.
  assert (Ha : pos_ext alpha).
  { rewrite Dalpha. apply (alpha_pos_ext snr s n ms es mn en Vsnr Hs Hn). }
  clear Dalpha.
  (* the subtracted amount *)
  assert (Ht : pos_ext (alpha [*] n)).
  { destruct (pos_ext_cases _ Ha) as [[Fa Pa]|Ea].
    - apply (rounds_to_pos_ext _ _
               (SFmul_correct alpha n (proj1 Fa) (proj1 Fn) (proj2 Fa) (proj2 Fn))).
      apply Rmult_le_pos; [lra|]. lra.
    - rewrite Ea, Hn. cbn [mul b32 SFmul xorb]. repeat split.
      cbn [Bext]. pose proof (bpow_gt_0 128). lra. }
  remember (alpha [*] n) as t eqn:Dt. clear Dt.
  assert (Hu : valid32 (s [-] t) = true /\ is_nan (s [-] t) = false /\
               Bext (s [-] t) <= B2R s).
  { destruct (pos_ext_cases _ Ht) as [[Ft Pt]|Et].
    - pose proof (SFsub_correct s t (proj1 Fs) (proj1 Ft) (proj2 Fs) (proj2 Ft)) as R.
      split; [apply (rt_valid _ _ R)|]. split; [apply (rt_nonnan _ _ R)|].
      apply (rt_hi _ _ R s); try apply Fs. lra.
    - rewrite Et, Hs. cbn [sub b32 SFsub negb]. repeat split.
      cbn [Bext B2R cond_Zopp]. pose proof (bpow_gt_0 128).
      pose proof (F2R_pos (Zpos ms) es ltac:(lia)). lra. }
  remember (s [-] t) as u eqn:Du. clear Du. destruct Hu as (Vu & Nu & Bu).
  assert (Hw : finite32 (MAX u #0) /\ 0 <= B2R (MAX u #0) <= B2R s).
  { unfold MAX. destruct (u [>] #0) eqn:Eu.
    - change (SFltb (S754_zero false) u = true) in Eu.
      apply (SFltb_Bext (S754_zero false) u eq_refl Vu eq_refl Nu) in Eu. cbn [Bext B2R] in Eu.
      pose proof (B2R_lt_bpow128 s (proj1 Fs) (proj2 Fs)) as K. apply Rabs_def2 in K.
      destruct (Bext_finite u Nu ltac:(lra)) as [Fu Eu'].
      split; [split; auto|]. lra.
    - split; [apply finite32_zero|]. simpl. lra. }
  destruct Hw as [Fw Bw].
  apply SFdiv_unit; auto.
Qed.

Lemma B2R_sub_one (g : @num b32) :
  finite32 g -> 0 <= B2R g <= 1 ->
  finite32 (#1 [-] g) /\ 0 <= B2R (#1 [-] g) <= 1 /\
  Rabs (B2R (#1 [-] g) - (1 - B2R g)) <= bpow (-25).
Proof.
  intros Fg Bg.
  pose proof (SFsub_correct _ g (proj1 finite32_one) (proj1 Fg)
                (proj2 finite32_one) (proj2 Fg)) as R.
  rewrite B2R_one in R.
  destruct (rounds_to_finite32 _ _ (S754_zero false) (S754_finite false 8388608 (-23))
              R (finite32_zero false) finite32_one) as [Fr Br].
  { rewrite B2R_one. cbn [B2R]. lra. }
  rewrite B2R_one in Br. cbn [B2R] in Br.
  change (SFsub 24 128 (S754_finite false 8388608 (-23)) g) with (#1 [-] g) in *.
  split; auto. split; auto.
  pose proof (bpow_gt_0 (-25)) as Hb.
  destruct (Req_dec (B2R g) 0) as [E0|N0].
  - (* exact *)
    destruct (rounds_to_representable _ _ (S754_finite false 8388608 (-23)) R
                (proj1 finite32_one) (proj2 finite32_one)) as [_ E].
    { rewrite B2R_one. lra. }
    rewrite E. replace (1 - B2R g - (1 - B2R g)) with 0 by ring.
    rewrite Rabs_R0. lra.
  - pose proof (rt_err _ _ R 0%Z ltac:(lia)) as K.
    rewrite (finite32_Bext _ Fr) in K.
    replace (bpow (fexp 24 128 0) / 2) with (bpow (-25)) in K.
    + apply K. rewrite Rabs_pos_eq by lra. rewrite bpow_0. lra.
    + change (fexp 24 128 0) with (-24)%Z. rewrite <- bpow_pred. reflexivity.
Qed.

(** The clamp of [nonlinear_power_sustraction] on a gain that is already in
    [[0, 1]]: no branch is taken, and two roundings separate the result from
    the gain. *)
Lemma nonlinear_clamp_unit (g : @num b32) :
  finite32 g -> 0 <= B2R g <= 1 ->
  (#1 [-] g) [<] #0 = false /\
  (#1 [-] g) [>] #1 = false /\
  nonlinear_clamp g = #1 [-] (#1 [-] g) /\
  in_unit (nonlinear_clamp g) /\
  Rabs (B2R (nonlinear_clamp g) - B2R g) <= bpow (-24).
Proof.
  intros Fg Bg.
  destruct (B2R_sub_one g Fg Bg) as (FF & BF & EF).
  destruct (B2R_sub_one _ FF BF) as (FG & BG & EG).
  assert (L1 : (#1 [-] g) [<] #0 = false).
  { destruct ((#1 [-] g) [<] #0) eqn:E; auto.
    change (SFltb (#1 [-] g) (S754_zero false) = true) in E.
    apply (SFltb_B2R _ _ FF (finite32_zero false)) in E. cbn [B2R] in E. lra. }
  assert (L2 : (#1 [-] g) [>] #1 = false).
  { destruct ((#1 [-] g) [>] #1) eqn:E; auto.
    change (SFltb (S754_finite false 8388608 (-23)) (#1 [-] g) = true) in E.
    apply (SFltb_B2R _ _ finite32_one FF) in E. rewrite B2R_one in E. lra. }
  assert (E : nonlinear_clamp g = #1 [-] (#1 [-] g)).
  { unfold nonlinear_clamp. rewrite L1, L2. reflexivity. }
  rewrite E. repeat split; auto.
  - apply in_unit_B2R; auto.
  - apply in_unit_B2R; auto.
  - apply Rabs_le_inv in EF. apply Rabs_le_inv in EG. apply Rabs_le.
    replace (bpow (-24)) with (2 * bpow (-25)).
    + lra.
    + replace (-24)%Z with (-25 + 1)%Z by lia. rewrite bpow_succ. reflexivity.
Qed.

Lemma nonlinear_power_sustraction_bin_unit (snr s n : @num b32) :
  valid32 snr = true -> finite32 s -> finite32 n ->
  in_unit (nonlinear_power_sustraction_bin snr s n).
Proof.
  intros Vsnr Fs Fn. unfold nonlinear_power_sustraction_bin.
  destruct (n [>] FLT_MIN) eqn:En; [|split; reflexivity].
  destruct (nonlinear_gain_unit snr s n Vsnr Fs Fn En) as [Fg Bg].
  apply (nonlinear_clamp_unit _ Fg Bg).
Qed.

Lemma above_noise_floor_positive (n : @num b32) :
  finite32 n -> n [>] FLT_MIN = true -> 0 < B2R n.
Proof.
  intros Fn En. change (SFltb FLT_MIN n = true) in En.
  assert (Ff : finite32 (@FLT_MIN b32)) by (split; reflexivity).
  apply (SFltb_B2R _ _ Ff Fn) in En. rewrite B2R_FLT_MIN in En.
  pose proof (bpow_gt_0 (-126)). lra.
Qed.
End NonlinearB32.
End NonlinearGain.

(** ** The gain rules: range, zero signal, clamp *)

Section GainRuleClaims.
Local Open Scope R_scope.
Local Open Scope arith_scope.

Section GainClaims.
#[local] Existing Instance b32.

(** C2 fails for wideband gating: a bin without signal takes the gain 1 of
    the frame, whatever its own noise threshold. *)
Lemma wideband_gating_zero_signal_gain_fails : ~ zero_signal_gain wideband_gating.
Proof.
  intros H.
  assert (K : aget (wideband_gating 1 [#0; #3] [#1; #1] [#0; #0]) 0 = #0 \/
              (aget [#1; #1] 0 [<=] FLT_MIN = true /\
               aget (wideband_gating 1 [#0; #3] [#1; #1] [#0; #0]) 0 = #1)).
  { apply H.
    - simpl; lia.
    - simpl; lia.
    - intros [|[|j]] Hj; [vm_compute; auto ..|lia].
    - intros [|[|j]] Hj; [vm_compute; auto ..|lia].
    - reflexivity. }
  vm_compute in K. destruct K as [K|[K _]]; discriminate K.
Qed.

Lemma zero_signal_tests (sz : bool) (n : @num b32) :
  finite32 n -> n [>] FLT_MIN = true ->
  (S754_zero sz : @num b32) [>=] n = false /\ (S754_zero sz : @num b32) [>] n = false /\
  (S754_zero sz : @num b32) [>] #0 = false.
Proof.
  intros Fn En. pose proof (above_noise_floor_positive n Fn En) as Hn.
  repeat split.
  - destruct (SFleb n (S754_zero sz)) eqn:E; auto.
    apply (SFleb_B2R _ _ Fn (finite32_zero sz)) in E. cbn [B2R] in E. lra.
  - destruct (SFltb n (S754_zero sz)) eqn:E; auto.
    apply (SFltb_B2R _ _ Fn (finite32_zero sz)) in E. cbn [B2R] in E. lra.
Qed.

(** C2 (as amended): at a bin with finite signal and noise values every
    rule gives a gain in [[0, 1]], never a NaN or an infinity; when the signal
    value of the bin is zero, spectral gating, power subtraction and nonlinear
    power subtraction give gain 0, or the pass-through gain 1 when the noise
    threshold is not above [FLT_MIN]; wideband gating gives every bin the one
    gain, 0 or 1, decided on the sums over the frame. *)
Theorem gain_within_unit_interval
    (snr_influence : @num b32) fft_size_2 spectrum noise_thresholds Gk k :
  valid32 snr_influence = true ->
  finite32 (aget spectrum k) -> finite32 (aget noise_thresholds k) ->
  (k <= fft_size_2)%nat -> (k < length Gk)%nat ->
  let gate := aget (spectral_gating fft_size_2 spectrum noise_thresholds Gk) k in
  let wide := aget (wideband_gating fft_size_2 spectrum noise_thresholds Gk) k in
  let power := aget (power_sustraction fft_size_2 spectrum noise_thresholds Gk) k in
  let nonlinear :=
    aget (nonlinear_power_sustraction snr_influence fft_size_2 spectrum
            noise_thresholds Gk) k in
  (in_unit gate /\ in_unit wide /\ in_unit power /\ in_unit nonlinear) /\
  (forall sz, aget spectrum k = S754_zero sz ->
     let expected := if aget noise_thresholds k [>] FLT_MIN then #0 else #1 in
     gate = expected /\ power = expected /\ nonlinear = expected) /\
  (wide = #0 \/ wide = #1) /\
  wide = wideband_gating_bin (fst (wideband_sums fft_size_2 spectrum noise_thresholds))
                             (snd (wideband_sums fft_size_2 spectrum noise_thresholds)).
Proof.
  intros Vsnr Fs Fn Hk Hl gate wide power nonlinear.
  assert (Eg : gate = spectral_gating_bin (aget spectrum k) (aget noise_thresholds k)).
  { unfold gate, spectral_gating.
    apply (for_range_write (fun k => spectral_gating_bin (aget spectrum k)
             (aget noise_thresholds k))); auto. }
  assert (Ep : power = power_sustraction_bin (aget spectrum k) (aget noise_thresholds k)).
  { unfold power, power_sustraction.
    apply (for_range_write (fun k => power_sustraction_bin (aget spectrum k)
             (aget noise_thresholds k))); auto. }
  assert (En : nonlinear = nonlinear_power_sustraction_bin snr_influence
                 (aget spectrum k) (aget noise_thresholds k)).
  { unfold nonlinear, nonlinear_power_sustraction.
    apply (for_range_write (fun k => nonlinear_power_sustraction_bin snr_influence
             (aget spectrum k) (aget noise_thresholds k))); auto. }
  assert (Ew : wide = wideband_gating_bin
                 (fst (wideband_sums fft_size_2 spectrum noise_thresholds))
                 (snd (wideband_sums fft_size_2 spectrum noise_thresholds))).
  { unfold wide. apply wideband_gating_at; auto. }
  assert (Hw : wide = #0 \/ wide = #1).
  { rewrite Ew. unfold wideband_gating_bin.
    destruct (_ [>] FLT_MIN); [destruct (_ [>=] _)|]; auto. }
  assert (Ug : in_unit gate).
  { rewrite Eg. unfold spectral_gating_bin.
    destruct (_ [>] FLT_MIN); [destruct (_ [>=] _)|]; split; reflexivity. }
  assert (Uw : in_unit wide).
  { destruct Hw as [-> | ->]; split; reflexivity. }
  assert (Up : in_unit power).
  { rewrite Ep. apply power_sustraction_bin_unit; auto. }
  assert (Un : in_unit nonlinear).
  { rewrite En. apply nonlinear_power_sustraction_bin_unit; auto. }
  split; [exact (conj Ug (conj Uw (conj Up Un)))|].
  split; [|exact (conj Hw Ew)].
  intros sz Hz expected. unfold expected.
  rewrite Eg, Ep, En, Hz.
  unfold spectral_gating_bin, power_sustraction_bin,
    nonlinear_power_sustraction_bin, nonlinear_gain.
  destruct (aget noise_thresholds k [>] FLT_MIN) eqn:E; auto.
  destruct (zero_signal_tests sz _ Fn E) as (T1 & T2 & T3).
  rewrite T1, T2, T3. repeat split; reflexivity.
Qed.

Lemma gain_within_unit_interval_witness :
  in_unit (aget (power_sustraction 1 [#3; #0] [#2; #1] [#0; #0]) 0) /\
  aget (nonlinear_power_sustraction #1 1 [#3; #0] [#2; #1] [#0; #0]) 1 = #0.
Proof.
  split.
  - refine (proj1 (proj2 (proj2 (proj1
      (gain_within_unit_interval #1 1 [#3; #0] [#2; #1] [#0; #0] 0 _ _ _ _ _))))).
    + reflexivity.
    + split; reflexivity.
    + split; reflexivity.
    + simpl; lia.
    + simpl; lia.
  - refine (proj2 (proj2 (proj1 (proj2
      (gain_within_unit_interval #1 1 [#3; #0] [#2; #1] [#0; #0] 1 _ _ _ _ _))
      false _))).
    + reflexivity.
    + split; reflexivity.
    + split; reflexivity.
    + simpl; lia.
    + simpl; lia.
    + reflexivity.
Defined.

(** C8 fails in single precision: with signal 3 and noise 2 the gain is the
    number next to 1/3, and [1 - (1 - gain)] is the number after it. *)
Lemma clamp_on_complement_differs : ~ clamp_on_complement_is_clamp.
Proof.
  intros H. specialize (H #0 #3 #2).
  vm_compute in H.
  assert (K : S754_finite false 11184812 (-25) = S754_finite false 11184811 (-25)).
  { apply H; auto. }
  discriminate K.
Qed.

(** C8 (as amended): with a finite signal value and a finite noise threshold
    above [FLT_MIN], the gain of the over-subtraction formula lies in
    [[0, 1]], so clamping it directly leaves it as it is and neither clamp
    branch of the rule is taken; the rule returns [1 - (1 - gain)] evaluated
    in single precision, which is in [[0, 1]] and within [2^-24] of the gain,
    not always equal to it. *)
Theorem nonlinear_clamp_never_fires (snr_influence spectrum_k noise_k : @num b32) :
  valid32 snr_influence = true -> finite32 spectrum_k -> finite32 noise_k ->
  noise_k [>] FLT_MIN = true ->
  let gain := nonlinear_gain snr_influence spectrum_k noise_k in
  in_unit gain /\
  clamp_to_unit gain = gain /\
  (#1 [-] gain) [<] #0 = false /\
  (#1 [-] gain) [>] #1 = false /\
  nonlinear_power_sustraction_bin snr_influence spectrum_k noise_k
    = #1 [-] (#1 [-] gain) /\
  in_unit (nonlinear_power_sustraction_bin snr_influence spectrum_k noise_k) /\
  Rabs (B2R (nonlinear_power_sustraction_bin snr_influence spectrum_k noise_k)
        - B2R gain) <= bpow (-24).
Proof.
  intros Vsnr Fs Fn En gain.
  destruct (nonlinear_gain_unit _ _ _ Vsnr Fs Fn En) as [Fg Bg]. fold gain in Fg, Bg.
  destruct (nonlinear_clamp_unit gain Fg Bg) as (L1 & L2 & E & U & D).
  assert (Ebin : nonlinear_power_sustraction_bin snr_influence spectrum_k noise_k
                 = nonlinear_clamp gain).
  { unfold nonlinear_power_sustraction_bin. rewrite En. reflexivity. }
  rewrite Ebin.
  assert (Ug : in_unit gain) by (apply in_unit_B2R; auto).
  repeat split; auto; try apply Ug; try apply U.
  unfold clamp_to_unit.
  assert (T1 : gain [<] #0 = false).
  { destruct (gain [<] #0) eqn:T; auto.
    change (SFltb gain (S754_zero false) = true) in T.
    apply (SFltb_B2R _ _ Fg (finite32_zero false)) in T. cbn [B2R] in T. lra. }
  assert (T2 : gain [>] #1 = false).
  { destruct (gain [>] #1) eqn:T; auto.
    change (SFltb (S754_finite false 8388608 (-23)) gain = true) in T.
    apply (SFltb_B2R _ _ finite32_one Fg) in T. rewrite B2R_one in T. lra. }
  rewrite T1, T2. reflexivity.
Qed.

Lemma nonlinear_clamp_never_fires_witness :
  nonlinear_power_sustraction_bin #0 #3 #2
    = #1 [-] (#1 [-] nonlinear_gain (#0 : @num b32) #3 #2).
Proof.
  refine (proj1 (proj2 (proj2 (proj2 (proj2
    (nonlinear_clamp_never_fires #0 #3 #2 _ _ _ _)))))).
  - reflexivity.
  - split; reflexivity.
  - split; reflexivity.
  - reflexivity.
Defined.
End GainClaims.
End GainRuleClaims.

(** ** Loops over the fields of a state, and memcpy *)

Section Loops.
Local Open Scope arith_scope.

Lemma for_loop_ext {St : Type} (b1 b2 : nat -> St -> St) :
  (forall k s, b1 k s = b2 k s) ->
  forall n k s, for_loop n k b1 s = for_loop n k b2 s.
Proof.
  intros H. induction n as [|n IH]; intros k s; simpl; auto.
  rewrite H. apply IH.
Qed.

Section FieldLoops.
Context {A : Arith} {St : Type}.
Variable getf : St -> list num.
Variable setf : list num -> St -> St.
Variable g : nat -> St -> num -> num.
Hypothesis get_set : forall v s, getf (setf v s) = v.
Hypothesis g_set : forall k v s x, g k (setf v s) x = g k s x.

(** A loop that rewrites one array of the state entry by entry, from values
    that do not depend on the array except through the entry itself, acts on
    that array alone. *)
Lemma for_loop_field : forall n k0 s,
  getf (for_loop n k0
          (fun k s => setf (aset (getf s) k (g k s (aget (getf s) k))) s) s)
  = for_loop n k0 (fun k G => aset G k (g k s (aget G k))) (getf s).
Proof.
  induction n as [|n IH]; intros k0 s; simpl; auto.
  rewrite IH. rewrite get_set.
  apply for_loop_ext. intros k G. rewrite g_set. reflexivity.
Qed.
End FieldLoops.

Section UpdateLoop.
Context {A : Arith}.

Lemma for_loop_update (h : nat -> num -> num) : forall n k0 (G : list num) j,
  (j < length G)%nat ->
  aget (for_loop n k0 (fun k G => aset G k (h k (aget G k))) G) j =
  if ((k0 <=? j) && (j <? k0 + n))%nat then h j (aget G j) else aget G j.
Proof.
  induction n as [|n IH]; intros k0 G j Hj; simpl.
  - destruct (Nat.leb_spec k0 j), (Nat.ltb_spec j (k0 + 0)); simpl; auto; lia.
  - rewrite IH by (rewrite aset_length; auto).
    destruct (Nat.eq_dec j k0) as [->|Hne].
    + rewrite aget_aset_same by auto.
      replace (S k0 <=? k0)%nat with false by (symmetry; apply Nat.leb_gt; lia).
      replace (k0 <=? k0)%nat with true by (symmetry; apply Nat.leb_le; lia).
      replace (k0 <? k0 + S n)%nat with true by (symmetry; apply Nat.ltb_lt; lia).
      reflexivity.
    + rewrite aget_aset_other by auto.
      replace (j <? S k0 + n)%nat with (j <? k0 + S n)%nat by (f_equal; lia).
      destruct (Nat.leb_spec (S k0) j), (Nat.leb_spec k0 j); simpl; auto; lia.
Qed.

Lemma for_loop_update_length (h : nat -> num -> num) : forall n k0 (G : list num),
  length (for_loop n k0 (fun k G => aset G k (h k (aget G k))) G) = length G.
Proof.
  induction n as [|n IH]; intros k0 G; simpl; auto.
  rewrite IH, aset_length. reflexivity.
Qed.

Lemma aget_overflow (a : list num) k : (length a <= k)%nat -> aget a k = #0.
Proof. intros H. unfold aget. apply nth_overflow. exact H. Qed.

(** [memcpy] *)
Lemma memcpy_whole_length (src : list num) : forall idx (dst : list num),
  length (fold_left (fun d k => aset d k (aget src k)) idx dst) = length dst.
Proof.
  induction idx as [|i idx IH]; intros dst; simpl; auto.
  rewrite IH, aset_length. reflexivity.
Qed.

Lemma memcpy_whole_get (src : list num) : forall q a (dst : list num) j,
  (j < length dst)%nat ->
  aget (fold_left (fun d k => aset d k (aget src k)) (seq a q) dst) j =
  if ((a <=? j) && (j <? a + q))%nat then aget src j else aget dst j.
Proof.
  induction q as [|q IH]; intros a dst j Hj; simpl.
  - destruct (Nat.leb_spec a j), (Nat.ltb_spec j (a + 0)); simpl; auto; lia.
  - rewrite IH by (rewrite aset_length; auto).
    destruct (Nat.eq_dec j a) as [->|Hne].
    + rewrite aget_aset_same by auto.
      replace (S a <=? a)%nat with false by (symmetry; apply Nat.leb_gt; lia).
      replace (a <=? a)%nat with true by (symmetry; apply Nat.leb_le; lia).
      replace (a <? a + S q)%nat with true by (symmetry; apply Nat.ltb_lt; lia).
      reflexivity.
    + rewrite aget_aset_other by auto.
      replace (j <? S a + q)%nat with (j <? a + S q)%nat by (f_equal; lia).
      destruct (Nat.leb_spec (S a) j), (Nat.leb_spec a j); simpl; auto; lia.
Qed.

Lemma memcpy_length (dst src : list num) n :
  length (memcpy dst src n) = length dst.
Proof.
  unfold memcpy. destruct (n mod sizeof_float)%nat.
  - apply memcpy_whole_length.
  - rewrite aset_length. apply memcpy_whole_length.
Qed.

(** The entries a [memcpy] copies whole. *)
Lemma memcpy_get_copied (dst src : list num) n j :
  (j < n / sizeof_float)%nat -> (j < length dst)%nat ->
  aget (memcpy dst src n) j = aget src j.
Proof.
  intros Hq Hj. unfold memcpy.
  assert (K : aget (fold_left (fun d k => aset d k (aget src k))
                      (seq 0 (n / sizeof_float)) dst) j = aget src j).
  { rewrite memcpy_whole_get by auto.
    destruct (Nat.leb_spec 0 j), (Nat.ltb_spec j (0 + n / sizeof_float));
      simpl; auto; lia. }
  destruct (n mod sizeof_float)%nat; auto.
  rewrite aget_aset_other by lia. exact K.
Qed.

(** The entries past the last byte are left as they were. *)
Lemma memcpy_get_beyond (dst src : list num) n j :
  (n / sizeof_float < j)%nat ->
  aget (memcpy dst src n) j = aget dst j.
Proof.
  intros Hq. unfold memcpy.
  assert (K : aget (fold_left (fun d k => aset d k (aget src k))
                      (seq 0 (n / sizeof_float)) dst) j = aget dst j).
  { destruct (Nat.lt_ge_cases j (length dst)) as [Hj|Hj].
    - rewrite memcpy_whole_get by auto.
      destruct (Nat.leb_spec 0 j), (Nat.ltb_spec j (0 + n / sizeof_float));
        simpl; auto; lia.
    - rewrite (aget_overflow dst) by exact Hj.
      apply aget_overflow. rewrite memcpy_whole_length. exact Hj. }
  destruct (n mod sizeof_float)%nat; auto.
  rewrite aget_aset_other by lia. exact K.
Qed.
End UpdateLoop.
End Loops.

(** ** The stages of the denoiser *)

Section Stages.
Local Open Scope arith_scope.

Section DenoiserStages.
Context {A : Arith} (M : Libm) {E : Estimators}.

Lemma same_frame_refl (s : FFTDenoiser E) : same_frame s s.
Proof. repeat split. Qed.

Lemma same_frame_trans (s0 s1 s2 : FFTDenoiser E) :
  same_frame s0 s1 -> same_frame s1 s2 -> same_frame s0 s2.
Proof.
  unfold same_frame. intros (a1 & a2 & a3 & a4 & a5 & a6 & a7)
    (b1 & b2 & b3 & b4 & b5 & b6 & b7).
  repeat split; congruence.
Qed.

Lemma for_range_same_frame (body : nat -> FFTDenoiser E -> FFTDenoiser E) hi s0 :
  (forall k s, (1 <= k)%nat -> same_frame s0 s -> same_frame s0 (body k s)) ->
  same_frame s0 (for_range 1 hi body s0).
Proof.
  intros H. apply (for_range_inv (same_frame s0) body 1 hi s0 H).
  apply same_frame_refl.
Qed.

Lemma same_frame_set_processed (s0 s : FFTDenoiser E) k v :
  (1 <= k)%nat -> same_frame s0 s ->
  same_frame s0 (set_processed_fft_spectrum (aset (processed_fft_spectrum s) k v) s).
Proof.
  intros Hk (a1 & a2 & a3 & a4 & a5 & a6 & a7).
  repeat split; try assumption.
  - change (length (aset (processed_fft_spectrum s) k v)
            = length (processed_fft_spectrum s0)).
    rewrite aset_length. exact a6.
  - change (aget (aset (processed_fft_spectrum s) k v) 0
            = aget (processed_fft_spectrum s0) 0).
    rewrite aget_aset_other by lia. exact a7.
Qed.

Ltac frame_step H :=
  repeat match goal with
         | |- context [if ?c then _ else _] => destruct c
         end;
  first [ exact H
        | let a1 := fresh in let a2 := fresh in let a3 := fresh in
          let a4 := fresh in let a5 := fresh in let a6 := fresh in
          let a7 := fresh in
          destruct H as (a1 & a2 & a3 & a4 & a5 & a6 & a7);
          repeat split; assumption ].

Lemma get_denoised_spectrum_frame (s : FFTDenoiser E) :
  same_frame s (get_denoised_spectrum s).
Proof.
  unfold get_denoised_spectrum. apply for_range_same_frame.
  intros k s1 Hk H. frame_step H.
Qed.

Lemma residual_spectrum_whitening_frame (s : FFTDenoiser E) w :
  same_frame s (residual_spectrum_whitening s w).
Proof.
  unfold residual_spectrum_whitening. cbv zeta.
  set (s1 := set_whitening_window_count _ s).
  assert (H1 : same_frame s s1) by (repeat split).
  match goal with |- same_frame s (for_range 1 _ ?b2 (for_range 1 ?h1 ?b1 s1)) =>
    assert (H2 : same_frame s1 (for_range 1 h1 b1 s1));
    [|set (s2 := for_range 1 h1 b1 s1) in *;
      assert (H3 : same_frame s2 (for_range 1 (half_fft_size s2) b2 s2))]
  end.
  - apply for_range_same_frame. intros k s2 Hk H. frame_step H.
  - apply for_range_same_frame. intros k s3 Hk H. frame_step H.
  - eapply same_frame_trans; [exact H1|].
    eapply same_frame_trans; [exact H2|]. exact H3.
Qed.

Lemma get_residual_spectrum_frame (s : FFTDenoiser E) w :
  same_frame s (get_residual_spectrum s w).
Proof.
  unfold get_residual_spectrum. cbv zeta.
  match goal with |- same_frame s (if _ then _ ?x _ else ?x) =>
    assert (H1 : same_frame s x) end.
  { apply for_range_same_frame. intros k s1 Hk H. frame_step H. }
  match goal with |- context [if ?c then _ else _] => destruct c end.
  - eapply same_frame_trans; [exact H1|]. apply residual_spectrum_whitening_frame.
  - exact H1.
Qed.

Lemma get_final_spectrum_frame (s : FFTDenoiser E) rl ra :
  same_frame s (get_final_spectrum s rl ra).
Proof.
  unfold get_final_spectrum. destruct rl.
  - apply for_range_same_frame. intros k s1 Hk H.
    apply same_frame_set_processed; auto.
  - apply for_range_same_frame. intros k s1 Hk H.
    apply same_frame_set_processed; auto.
Qed.

Lemma fft_denoiser_run_processing_frame (s : FFTDenoiser E) :
  same_frame s (fft_denoiser_run_processing M s).
Proof.
  unfold fft_denoiser_run_processing.
  destruct (negb (is_empty _ _)); [|apply same_frame_refl].
  destruct (learn_noise _).
  - destruct (noise_estimation_run _ _ _ _) as [ne ns]. repeat split.
  - destruct (is_noise_estimation_available _ _); [|apply same_frame_refl].
    destruct (gain_estimation_run _ _ _ _ _ _ _ _ _) as [ge gain].
    eapply same_frame_trans; [|apply get_final_spectrum_frame].
    eapply same_frame_trans; [|apply get_residual_spectrum_frame].
    eapply same_frame_trans; [|apply get_denoised_spectrum_frame].
    repeat split.
Qed.

Lemma fft_denoiser_soft_bypass_frame (s : FFTDenoiser E) :
  same_frame s (fft_denoiser_soft_bypass s).
Proof.
  unfold fft_denoiser_soft_bypass. apply for_range_same_frame.
  intros k s1 Hk H. apply same_frame_set_processed; auto.
Qed.

(** The analysis stage. *)
Lemma fft_denoiser_run_analysis_fields (s : FFTDenoiser E) f :
  let a := fft_denoiser_run_analysis M s f in
  fft_spectrum a = memcpy (fft_spectrum s) f (sizeof_float * fft_size s) /\
  wet_dry a = wet_dry s [+] (tau s [*] ((if enable (denoise_parameters s)
                                          then #1 else #0) [-] wet_dry s)
                              [+] FLT_MIN) /\
  processed_fft_spectrum a = processed_fft_spectrum s /\
  fft_size a = fft_size s /\ half_fft_size a = half_fft_size s /\
  denoise_parameters a = denoise_parameters s /\
  noise_profile a = noise_profile s /\
  noise_estimation a = noise_estimation s /\
  gain_estimation a = gain_estimation s /\
  gain_spectrum a = gain_spectrum s /\
  denoised_spectrum a = denoised_spectrum s /\
  residual_spectrum a = residual_spectrum s.
Proof.
  unfold fft_denoiser_run_analysis.
  destruct (get_info_from_bins _ _ _ _ _ _ _) as [[pw mg] ph].
  cbn. repeat split.
Qed.

(** The blend, entry by entry. *)
Lemma fft_denoiser_soft_bypass_processed (s : FFTDenoiser E) k :
  (k < length (processed_fft_spectrum s))%nat ->
  aget (processed_fft_spectrum (fft_denoiser_soft_bypass s)) k =
  if ((1 <=? k) && (k <=? half_fft_size s))%nat
  then (#1 [-] wet_dry s) [*] aget (fft_spectrum s) k
       [+] aget (processed_fft_spectrum s) k [*] wet_dry s
  else aget (processed_fft_spectrum s) k.
Proof.
  intros Hk. unfold fft_denoiser_soft_bypass, for_range.
  rewrite (for_loop_field (@processed_fft_spectrum A E) (@set_processed_fft_spectrum A E)
             (fun k s x => (#1 [-] wet_dry s) [*] aget (fft_spectrum s) k
                           [+] x [*] wet_dry s))
    by reflexivity.
  rewrite (for_loop_update
             (fun k x => (#1 [-] wet_dry s) [*] aget (fft_spectrum s) k
                         [+] x [*] wet_dry s)) by exact Hk.
  replace (k <? 1 + (S (half_fft_size s) - 1))%nat with (k <=? half_fft_size s)%nat.
  - reflexivity.
  - destruct (Nat.leb_spec k (half_fft_size s)),
             (Nat.ltb_spec k (1 + (S (half_fft_size s) - 1))); auto; lia.
Qed.

(** The final spectrum, entry by entry. *)
Lemma get_final_spectrum_processed (s : FFTDenoiser E) rl ra k :
  (k < length (processed_fft_spectrum s))%nat ->
  (1 <= k <= half_fft_size s)%nat ->
  aget (processed_fft_spectrum (get_final_spectrum s rl ra)) k =
  if rl then aget (residual_spectrum s) k
  else aget (denoised_spectrum s) k [+] aget (residual_spectrum s) k [*] ra.
Proof.
  intros Hk Hr. unfold get_final_spectrum, for_range. destruct rl.
  - rewrite (for_loop_field (@processed_fft_spectrum A E)
               (@set_processed_fft_spectrum A E)
               (fun k s x => aget (residual_spectrum s) k)) by reflexivity.
    rewrite (for_loop_update (fun k x => aget (residual_spectrum s) k)) by exact Hk.
    destruct (Nat.leb_spec 1 k), (Nat.ltb_spec k (1 + (S (half_fft_size s) - 1)));
      simpl; auto; lia.
  - rewrite (for_loop_field (@processed_fft_spectrum A E)
               (@set_processed_fft_spectrum A E)
               (fun k s x => aget (denoised_spectrum s) k
                             [+] aget (residual_spectrum s) k [*] ra)) by reflexivity.
    rewrite (for_loop_update (fun k x => aget (denoised_spectrum s) k
                             [+] aget (residual_spectrum s) k [*] ra)) by exact Hk.
    destruct (Nat.leb_spec 1 k), (Nat.ltb_spec k (1 + (S (half_fft_size s) - 1)));
      simpl; auto; lia.
Qed.

Lemma get_final_spectrum_others (s : FFTDenoiser E) rl ra :
  denoised_spectrum (get_final_spectrum s rl ra) = denoised_spectrum s /\
  residual_spectrum (get_final_spectrum s rl ra) = residual_spectrum s.
Proof.
  unfold get_final_spectrum, for_range. destruct rl.
  - apply (for_loop_inv (fun s' => denoised_spectrum s' = denoised_spectrum s /\
                                   residual_spectrum s' = residual_spectrum s) _ 1);
      auto.
  - apply (for_loop_inv (fun s' => denoised_spectrum s' = denoised_spectrum s /\
                                   residual_spectrum s' = residual_spectrum s) _ 1);
      auto.
Qed.
End DenoiserStages.
End Stages.

(** ** The states a denoiser reaches *)

Section Reachability.
Local Open Scope arith_scope.

Section DenoiserClaims.
Context {A : Arith} (M : Libm) {E : Estimators}.

Lemma div4_mul (n : nat) : (sizeof_float * n / sizeof_float = n)%nat.
Proof. unfold sizeof_float. rewrite Nat.mul_comm. apply Nat.div_mul. lia. Qed.

Lemma div4_mul_succ (n : nat) : ((sizeof_float * n + 1) / sizeof_float = n)%nat.
Proof.
  unfold sizeof_float.
  rewrite Nat.mul_comm, Nat.div_add_l by lia. simpl. lia.
Qed.

Lemma fft_denoiser_run_well_formed (self : FFTDenoiser E) f :
  well_formed self ->
  well_formed (fst (fft_denoiser_run M self f)) /\
  aget (processed_fft_spectrum (fst (fft_denoiser_run M self f))) 0 =
  aget (processed_fft_spectrum self) 0.
Proof.
  intros (W1 & W2 & W3). unfold fft_denoiser_run. cbn [fst].
  pose proof (fft_denoiser_run_analysis_fields M self f) as K. cbv zeta in K.
  destruct K as (a1 & a2 & a3 & a4 & a5 & _).
  set (a := fft_denoiser_run_analysis M self f) in *.
  pose proof (fft_denoiser_run_processing_frame M a) as (p1 & p2 & p3 & p4 & p5 & p6 & p7).
  set (p := fft_denoiser_run_processing M a) in *.
  pose proof (fft_denoiser_soft_bypass_frame p) as (b1 & b2 & b3 & b4 & b5 & b6 & b7).
  set (b := fft_denoiser_soft_bypass p) in *.
  unfold well_formed. repeat split.
  - congruence.
  - rewrite b1, p1, a1, memcpy_length, b3, p3, a4. exact W2.
  - rewrite b6, p6, a3, b4, p4, a5. exact W3.
  - rewrite b7, p7, a3. reflexivity.
Qed.

Lemma reachable_invariant (self : FFTDenoiser E) :
  reachable M E self ->
  well_formed self /\ aget (processed_fft_spectrum self) 0 = #0.
Proof.
  induction 1 as [sr n ov | self p H IH | self np H IH | self f H IH Hf].
  - split.
    + repeat split; [apply calloc_length | apply calloc_length].
    + apply aget_calloc.
  - exact IH.
  - exact IH.
  - destruct IH as [W Z].
    destruct (fft_denoiser_run_well_formed self f W) as [W' Z'].
    split; auto. congruence.
Qed.

(** The DC bin on frames of two points or more ([half_fft_size >= 1]): after
    every call of [fft_denoiser_run], entry 0 of the frame is [0.f].  Entry 0
    of the processed spectrum is zero from [calloc] on, no stage writes it,
    and the closing copy, which is given [sizeof(float) * half_fft_size + 1]
    bytes, covers entry 0 whole from [half_fft_size = 1] on. *)
Theorem dc_bin_of_output_is_zero (self : FFTDenoiser E) fft_spectrum :
  reachable M E self ->
  (1 <= half_fft_size self)%nat ->
  length fft_spectrum = fft_size self ->
  aget (snd (fft_denoiser_run M self fft_spectrum)) 0 = #0.
Proof.
  intros R Hh Hf.
  destruct (reachable_invariant self R) as [W Z].
  destruct (fft_denoiser_run_well_formed self fft_spectrum W) as [W' Z'].
  destruct W as (W1 & W2 & W3).
  destruct W' as (V1 & V2 & V3).
  unfold fft_denoiser_run in *. cbn [fst snd] in *.
  set (b := fft_denoiser_soft_bypass _) in *.
  assert (Hb : half_fft_size b = half_fft_size self).
  { pose proof (fft_denoiser_run_analysis_fields M self fft_spectrum) as K.
    cbv zeta in K. destruct K as (_ & _ & _ & _ & a5 & _).
    pose proof (fft_denoiser_run_processing_frame M
                  (fft_denoiser_run_analysis M self fft_spectrum))
      as (_ & _ & _ & p4 & _).
    pose proof (fft_denoiser_soft_bypass_frame
                  (fft_denoiser_run_processing M
                     (fft_denoiser_run_analysis M self fft_spectrum)))
      as (_ & _ & _ & b4 & _).
    unfold b. congruence. }
  rewrite memcpy_get_copied.
  - rewrite Z'. exact Z.
  - rewrite div4_mul_succ. lia.
  - rewrite Hf. rewrite W1 in Hh.
    destruct (fft_size self) as [|[|n]]; simpl in Hh; lia.
Qed.
End DenoiserClaims.
End Reachability.

(** ** The wet/dry blend of the frame *)

Section Blend.
Local Open Scope arith_scope.

Section BlendClaims.
#[local] Existing Instance b32.

Lemma SFmul_comm x y : SFmul 24 128 x y = SFmul 24 128 y x.
Proof.
  destruct x as [sx|sx| |sx mx ex], y as [sy|sy| |sy my ey]; cbn [SFmul];
    try reflexivity; try (rewrite xorb_comm; reflexivity).
  rewrite xorb_comm, Pos.mul_comm, Z.add_comm. reflexivity.
Qed.

(** C3 fails at bin 0: the frame [1, 0] comes back with 0 at entry 0, where
    the blend of the raw value 1 would be 1. *)
Lemma blend_fails_at_dc_bin : ~ blend_on_all_bins.
Proof.
  intros H.
  specialize (H example_libm example_estimators
                (example_denoiser 2)
                [#1; #0] 0%nat).
  assert (K : S754_zero false = S754_finite false 8388608 (-23)).
  { apply H.
    - apply reachable_profile, reachable_initialize.
    - reflexivity.
    - apply Nat.le_0_l. }
  discriminate K.
Qed.

(** C3 (as amended): [fft_denoiser_run] rewrites the frame in place, and at
    every bin [k] from 1 to [half_fft_size - 1] the entry it leaves is
    [(1 - wetDry) * f_raw[k] + wetDry * processed[k]], with [wetDry] the state
    after the update of the call and [processed] the processed spectrum
    before the blend. *)
Theorem blend_on_inner_bins (M : @Libm b32) (E : @Estimators b32)
    (self : FFTDenoiser E) f_raw k :
  well_formed self -> length f_raw = fft_size self ->
  (1 <= k < half_fft_size self)%nat ->
  let processed :=
    processed_fft_spectrum
      (fft_denoiser_run_processing M (fft_denoiser_run_analysis M self f_raw)) in
  let wetdry := wet_dry (fst (fft_denoiser_run M self f_raw)) in
  aget (snd (fft_denoiser_run M self f_raw)) k =
    (#1 [-] wetdry) [*] aget f_raw k [+] wetdry [*] aget processed k /\
  wetdry = wet_dry self [+] (tau self [*] ((if enable (denoise_parameters self)
                                            then #1 else #0) [-] wet_dry self)
                             [+] FLT_MIN).
Proof.
  intros (W1 & W2 & W3) Hf Hk processed wetdry.
  unfold fft_denoiser_run in *. cbn [fst snd] in *.
  pose proof (fft_denoiser_run_analysis_fields M self f_raw) as K. cbv zeta in K.
  destruct K as (a1 & a2 & a3 & a4 & a5 & _).
  set (a := fft_denoiser_run_analysis M self f_raw) in *.
  pose proof (fft_denoiser_run_processing_frame M a) as (p1 & p2 & p3 & p4 & p5 & p6 & p7).
  set (p := fft_denoiser_run_processing M a) in *.
  pose proof (fft_denoiser_soft_bypass_frame p) as (b1 & b2 & b3 & b4 & b5 & b6 & b7).
  set (b := fft_denoiser_soft_bypass p) in *.
  assert (Hw : wetdry = wet_dry a) by (unfold wetdry; congruence).
  assert (Hh : (half_fft_size self <= fft_size self)%nat).
  { rewrite W1. apply Nat.Div0.div_le_upper_bound. lia. }
  split.
  - rewrite memcpy_get_copied.
    + unfold b. rewrite fft_denoiser_soft_bypass_processed.
      * replace ((1 <=? k) && (k <=? half_fft_size p))%nat with true.
        -- rewrite p1, a1, p2, <- Hw. fold processed.
           rewrite memcpy_get_copied.
           ++ f_equal. apply SFmul_comm.
           ++ rewrite div4_mul. lia.
           ++ lia.
        -- symmetry. apply andb_true_iff. split.
           ++ apply Nat.leb_le. lia.
           ++ apply Nat.leb_le. rewrite p4, a5. lia.
      * rewrite p6, a3. lia.
    + rewrite div4_mul_succ. rewrite b4, p4, a5. lia.
    + lia.
  - rewrite Hw. exact a2.
Qed.

Lemma blend_on_inner_bins_witness :
  aget (snd (fft_denoiser_run example_libm
               (example_denoiser 4)
               [#1; #3; #0; #0])) 1
  = (#1 [-] FLT_MIN) [*] #3 [+] FLT_MIN [*] #0.
Proof.
  refine (proj1 (blend_on_inner_bins example_libm example_estimators
                   (example_denoiser 4)
                   [#1; #3; #0; #0] 1 _ _ _)).
  - repeat split.
  - reflexivity.
  - simpl; lia.
Defined.

(** The last bin: the closing [memcpy] is given
    [sizeof(float) * half_fft_size + 1] bytes, so of entry [half_fft_size] it
    copies one byte, and the entry keeps the other three bytes of the raw
    value.  On the first frame of an enabled denoiser the blend of the raw
    value 16777215 is 13357264; the entry comes back as 16777168. *)
Lemma last_bin_keeps_raw_bytes :
  let self :=
    load_denoise_parameters
      (example_denoiser 4)
      {| enable := true; learn_noise := false; residual_listen := false;
         reduction_amount := #10; release_time := #150;
         masking_ceiling_limit := #1; whitening_factor := #0;
         transient_threshold := #1; noise_rescale := #0 |} in
  let f_raw := [#1; #3; #16777215; #7] in
  aget (processed_fft_spectrum (fst (fft_denoiser_run example_libm self f_raw))) 2
    = #13357264 /\
  aget (snd (fft_denoiser_run example_libm self f_raw)) 2 = #16777168 /\
  aget (snd (fft_denoiser_run example_libm self f_raw)) 2 =
    overlay_bytes 1 #13357264 #16777215.
Proof. vm_compute. repeat split. Qed.
End BlendClaims.
End Blend.

(** ** Silent frames and the DC bin *)

Section Silence.
Local Open Scope arith_scope.

Section SilentFrameLemmas.
Context {A : Arith} (M : Libm) {E : Estimators}.

Lemma is_empty_loop_true (spectrum : list num) n : forall k,
  (forall j, (k <= j < k + n)%nat -> (aget spectrum j [>] FLT_MIN) = false) ->
  is_empty_loop spectrum n k = true.
Proof.
  induction n as [|n IH]; intros k H; simpl.
  - reflexivity.
  - rewrite (H k) by lia. apply IH. intros j Hj. apply H. lia.
Qed.

Lemma is_empty_true (spectrum : list num) N :
  (forall j, (1 <= j <= N)%nat -> (aget spectrum j [>] FLT_MIN) = false) ->
  is_empty spectrum N = true.
Proof.
  intros H. apply is_empty_loop_true. intros j Hj. apply H. lia.
Qed.

Lemma fft_denoiser_run_processing_empty (s : FFTDenoiser E) :
  is_empty (power_spectrum s) (half_fft_size s) = true ->
  fft_denoiser_run_processing M s = s.
Proof.
  intros H. unfold fft_denoiser_run_processing. rewrite H. reflexivity.
Qed.

(** The blend writes the processed spectrum only. *)
Lemma fft_denoiser_soft_bypass_estimation (s : FFTDenoiser E) :
  let b := fft_denoiser_soft_bypass s in
  noise_profile b = noise_profile s /\
  noise_estimation b = noise_estimation s /\
  gain_estimation b = gain_estimation s /\
  gain_spectrum b = gain_spectrum s /\
  denoised_spectrum b = denoised_spectrum s /\
  residual_spectrum b = residual_spectrum s.
Proof.
  unfold fft_denoiser_soft_bypass.
  apply (for_range_inv (fun b =>
    noise_profile b = noise_profile s /\
    noise_estimation b = noise_estimation s /\
    gain_estimation b = gain_estimation s /\
    gain_spectrum b = gain_spectrum s /\
    denoised_spectrum b = denoised_spectrum s /\
    residual_spectrum b = residual_spectrum s)).
  - intros k s1 _ H. exact H.
  - repeat split.
Qed.
End SilentFrameLemmas.

Section SilentFrame.
#[local] Existing Instance b32.

(** C6: when no bin from 1 to [half_fft_size] of the power spectrum of the
    frame exceeds [FLT_MIN], the guarded block of [fft_denoiser_run] does not
    run: the state after the call is the state after the analysis with only
    the blend applied, and the noise profile, both estimators, the gain
    spectrum, the denoised and the residual spectrum are those the call
    started with. *)
Theorem silent_frame_skips_estimation (M : @Libm b32) (E : @Estimators b32)
    (self : FFTDenoiser E) fft_spectrum :
  let analysed := fft_denoiser_run_analysis M self fft_spectrum in
  (forall k, (1 <= k <= half_fft_size self)%nat ->
             aget (power_spectrum analysed) k [<=] FLT_MIN = true) ->
  let self' := fst (fft_denoiser_run M self fft_spectrum) in
  fft_denoiser_run_processing M analysed = analysed /\
  self' = fft_denoiser_soft_bypass analysed /\
  noise_profile self' = noise_profile self /\
  noise_estimation self' = noise_estimation self /\
  gain_estimation self' = gain_estimation self /\
  gain_spectrum self' = gain_spectrum self /\
  denoised_spectrum self' = denoised_spectrum self /\
  residual_spectrum self' = residual_spectrum self.
Proof.
  intros analysed H self'.
  pose proof (fft_denoiser_run_analysis_fields M self fft_spectrum) as K.
  cbv zeta in K. fold analysed in K.
  destruct K as (_ & _ & _ & _ & a5 & _ & a7 & a8 & a9 & a10 & a11 & a12).
  assert (P : fft_denoiser_run_processing M analysed = analysed).
  { apply fft_denoiser_run_processing_empty. apply is_empty_true.
    intros j Hj. rewrite a5 in Hj.
    apply (SFleb_SFltb_false (aget (power_spectrum analysed) j)). apply H. exact Hj. }
  assert (S' : self' = fft_denoiser_soft_bypass analysed).
  { unfold self', fft_denoiser_run. cbn [fst]. fold analysed. rewrite P. reflexivity. }
  pose proof (fft_denoiser_soft_bypass_estimation analysed) as B. cbv zeta in B.
  rewrite <- S' in B.
  destruct B as (b1 & b2 & b3 & b4 & b5 & b6).
  split; [exact P|]. split; [exact S'|].
  repeat split; congruence.
Qed.

Lemma silent_frame_skips_estimation_witness :
  let self := load_denoise_parameters
                (example_denoiser 4)
                {| enable := true; learn_noise := true; residual_listen := false;
                   reduction_amount := #10; release_time := #150;
                   masking_ceiling_limit := #1; whitening_factor := #0;
                   transient_threshold := #1; noise_rescale := #0 |} in
  noise_profile (fst (fft_denoiser_run example_libm self [#0; #0; #0; #0]))
  = noise_profile self.
Proof.
  intros self.
  refine (proj1 (proj2 (proj2 (silent_frame_skips_estimation example_libm
                                 example_estimators self [#0; #0; #0; #0] _)))).
  intros [|[|[|k]]] Hk; simpl in Hk; try lia; reflexivity.
Defined.
End SilentFrame.

Section DcBinExample.
#[local] Existing Instance b32.

Lemma dc_bin_of_output_is_zero_witness :
  aget (snd (fft_denoiser_run example_libm
               (example_denoiser 4)
               [#1; #3; #0; #0])) 0 = #0.
Proof.
  refine (dc_bin_of_output_is_zero example_libm _ [#1; #3; #0; #0] _ _ _).
  - apply reachable_profile, reachable_initialize.
  - simpl; lia.
  - reflexivity.
Defined.

(** C10: the claim fails on a denoiser of one point, by the byte count of the
    closing [memcpy].  With [fft_size = 1], [half_fft_size] is 0 and the copy
    is given [sizeof(float) * 0 + 1] = 1 byte where
    [sizeof(float) * (0 + 1)] = 4 cover entry 0: entry 0 of the processed
    spectrum is [0.f] as the claim says, yet the frame [[3.f]] comes back as
    [[3.f]]; the one byte copied is the low byte, which [3.f] and [0.f]
    share. *)
Theorem dc_bin_kept_on_one_point_frame :
  let self := example_denoiser 1 in
  let result := fft_denoiser_run example_libm self [#3] in
  reachable example_libm example_estimators self /\
  length [#3] = fft_size self /\
  (sizeof_float * half_fft_size self + 1 = 1)%nat /\
  aget (processed_fft_spectrum (fst result)) 0 = #0 /\
  aget (snd result) 0 = #3.
Proof.
  cbv zeta. split; [apply reachable_profile, reachable_initialize|].
  split; [reflexivity|]. split; [reflexivity|].
  split; vm_compute; reflexivity.
Qed.
End DcBinExample.
End Silence.

(** ** The final spectrum *)

Section FinalSpectrumFacts.
Local Open Scope arith_scope.

Section FinalSpectrum.
Context {A : Arith} (M : Libm) {E : Estimators}.

Ltac dc_step H :=
  repeat match goal with
         | |- context [if ?c then _ else _] => destruct c
         end;
  first [ exact H
        | let d := fresh in let r := fresh in let p := fresh in
          destruct H as (d & r & p);
          unfold dc_bins_zero; cbn -[aget aset];
          repeat split; rewrite ?aget_aset_other by lia; assumption ].

Lemma for_range_dc_bins_zero (body : nat -> FFTDenoiser E -> FFTDenoiser E) hi s :
  (forall k s, (1 <= k)%nat -> dc_bins_zero s -> dc_bins_zero (body k s)) ->
  dc_bins_zero s -> dc_bins_zero (for_range 1 hi body s).
Proof. intros H. apply (for_range_inv dc_bins_zero body 1 hi s H). Qed.

Lemma get_denoised_spectrum_dc (s : FFTDenoiser E) :
  dc_bins_zero s -> dc_bins_zero (get_denoised_spectrum s).
Proof.
  unfold get_denoised_spectrum. apply for_range_dc_bins_zero.
  intros k s1 Hk H. dc_step H.
Qed.

Lemma residual_spectrum_whitening_dc (s : FFTDenoiser E) w :
  dc_bins_zero s -> dc_bins_zero (residual_spectrum_whitening s w).
Proof.
  intros H. unfold residual_spectrum_whitening. cbv zeta.
  apply for_range_dc_bins_zero; [intros k s1 Hk H1; dc_step H1|].
  apply for_range_dc_bins_zero; [intros k s1 Hk H1; dc_step H1|].
  exact H.
Qed.

Lemma get_residual_spectrum_dc (s : FFTDenoiser E) w :
  dc_bins_zero s -> dc_bins_zero (get_residual_spectrum s w).
Proof.
  intros H. unfold get_residual_spectrum. cbv zeta.
  match goal with |- dc_bins_zero (if _ then _ ?x _ else ?x) =>
    assert (H1 : dc_bins_zero x) end.
  { apply for_range_dc_bins_zero; [intros k s1 Hk H1; dc_step H1|exact H]. }
  match goal with |- context [if ?c then _ else _] => destruct c end.
  - apply residual_spectrum_whitening_dc. exact H1.
  - exact H1.
Qed.

Lemma get_final_spectrum_dc (s : FFTDenoiser E) rl ra :
  dc_bins_zero s -> dc_bins_zero (get_final_spectrum s rl ra).
Proof.
  intros H. unfold get_final_spectrum. destruct rl.
  - apply for_range_dc_bins_zero; [intros k s1 Hk H1; dc_step H1|exact H].
  - apply for_range_dc_bins_zero; [intros k s1 Hk H1; dc_step H1|exact H].
Qed.

Lemma fft_denoiser_run_processing_dc (s : FFTDenoiser E) :
  dc_bins_zero s -> dc_bins_zero (fft_denoiser_run_processing M s).
Proof.
  intros H. unfold fft_denoiser_run_processing.
  destruct (negb (is_empty _ _)); [|exact H].
  destruct (learn_noise _).
  - destruct (noise_estimation_run _ _ _ _) as [ne ns]. exact H.
  - destruct (is_noise_estimation_available _ _); [|exact H].
    destruct (gain_estimation_run _ _ _ _ _ _ _ _ _) as [ge gain].
    apply get_final_spectrum_dc, get_residual_spectrum_dc, get_denoised_spectrum_dc.
    exact H.
Qed.

Lemma fft_denoiser_run_analysis_dc (s : FFTDenoiser E) f :
  dc_bins_zero s -> dc_bins_zero (fft_denoiser_run_analysis M s f).
Proof.
  intros (d & r & p).
  pose proof (fft_denoiser_run_analysis_fields M s f) as K. cbv zeta in K.
  destruct K as (_ & _ & a3 & _ & _ & _ & _ & _ & _ & _ & a11 & a12).
  unfold dc_bins_zero. rewrite a3, a11, a12. repeat split; assumption.
Qed.

Lemma fft_denoiser_soft_bypass_dc (s : FFTDenoiser E) :
  dc_bins_zero s -> dc_bins_zero (fft_denoiser_soft_bypass s).
Proof.
  intros H. unfold fft_denoiser_soft_bypass.
  apply for_range_dc_bins_zero; [intros k s1 Hk H1; dc_step H1|exact H].
Qed.

Lemma reachable_dc_bins_zero (self : FFTDenoiser E) :
  reachable M E self -> dc_bins_zero self.
Proof.
  induction 1 as [sr n ov | self p H IH | self np H IH | self f H IH Hf].
  - repeat split; apply aget_calloc.
  - exact IH.
  - exact IH.
  - unfold fft_denoiser_run. cbn [fst].
    apply fft_denoiser_soft_bypass_dc, fft_denoiser_run_processing_dc,
      fft_denoiser_run_analysis_dc.
    exact IH.
Qed.

Lemma fft_denoiser_run_processing_final (s : FFTDenoiser E) k :
  is_empty (power_spectrum s) (half_fft_size s) = false ->
  learn_noise (denoise_parameters s) = false ->
  is_noise_estimation_available E (noise_estimation s) = true ->
  (k < length (processed_fft_spectrum s))%nat ->
  (1 <= k <= half_fft_size s)%nat ->
  let final := fft_denoiser_run_processing M s in
  aget (processed_fft_spectrum final) k =
  if residual_listen (denoise_parameters s) then aget (residual_spectrum final) k
  else aget (denoised_spectrum final) k
       [+] aget (residual_spectrum final) k
           [*] from_db_to_cv M (reduction_amount (denoise_parameters s) [*] #(-1)).
Proof.
  intros He Hl Ha Hk Hr. unfold fft_denoiser_run_processing.
  rewrite He, Hl, Ha. cbn [negb].
  destruct (gain_estimation_run _ _ _ _ _ _ _ _ _) as [ge gain]. cbv zeta.
  set (s1 := set_gain_spectrum gain (set_gain_estimation ge s)).
  assert (F1 : same_frame s s1) by (repeat split).
  pose proof (get_denoised_spectrum_frame s1) as F2.
  set (s2 := get_denoised_spectrum s1) in *.
  pose proof (get_residual_spectrum_frame s2
                (whitening_factor (denoise_parameters s))) as F3.
  set (s3 := get_residual_spectrum s2 _) in *.
  pose proof (same_frame_trans _ _ _ F1 (same_frame_trans _ _ _ F2 F3))
    as (_ & _ & _ & f4 & _ & f6 & _).
  destruct (get_final_spectrum_others s3 (residual_listen (denoise_parameters s))
              (from_db_to_cv M (reduction_amount (denoise_parameters s) [*] #(-1))))
    as [D R].
  rewrite D, R.
  apply get_final_spectrum_processed.
  - rewrite f6. exact Hk.
  - rewrite f4. exact Hr.
Qed.
End FinalSpectrum.

Section FinalSpectrumReal.

Lemma from_db_to_cv_real (dB : R) :
  from_db_to_cv Rlibm (@mul Rarith dB (@of_int Rarith (-1))) = Rpower 10 (- dB / 10).
Proof.
  unfold from_db_to_cv, Rpower. cbn.
  f_equal. lra.
Qed.

Lemma final_spectrum_real (E : @Estimators Rarith) (self : FFTDenoiser E)
    fft_spectrum k :
  reachable Rlibm E self ->
  let analysed := fft_denoiser_run_analysis Rlibm self fft_spectrum in
  let final := fft_denoiser_run_processing Rlibm analysed in
  let p := denoise_parameters self in
  is_empty (power_spectrum analysed) (half_fft_size self) = false ->
  learn_noise p = false ->
  is_noise_estimation_available E (noise_estimation self) = true ->
  (k <= half_fft_size self)%nat ->
  aget (processed_fft_spectrum final) k =
  if residual_listen p then aget (residual_spectrum final) k
  else (aget (denoised_spectrum final) k
        + aget (residual_spectrum final) k
          * Rpower 10 (- reduction_amount p / 10))%R.
Proof.
  intros R analysed final p He Hl Ha Hk.
  destruct (reachable_invariant Rlibm self R) as [(W1 & W2 & W3) _].
  destruct k as [|k].
  - pose proof (reachable_dc_bins_zero Rlibm self R) as Z.
    apply (fft_denoiser_run_analysis_dc Rlibm self fft_spectrum) in Z.
    apply (fft_denoiser_run_processing_dc Rlibm) in Z.
    fold analysed in Z. fold final in Z. destruct Z as (d & r & q).
    rewrite d, r, q. destruct (residual_listen p); [reflexivity|].
    change (0 = 0 + 0 * Rpower 10 (- reduction_amount p / 10))%R. ring.
  - pose proof (fft_denoiser_run_analysis_fields Rlibm self fft_spectrum) as K.
    cbv zeta in K. fold analysed in K.
    destruct K as (_ & _ & a3 & _ & a5 & a6 & _ & a8 & _).
    rewrite <- from_db_to_cv_real. unfold p. rewrite <- a6.
    apply (fft_denoiser_run_processing_final Rlibm analysed (S k)).
    + rewrite a5. exact He.
    + rewrite a6. exact Hl.
    + rewrite a8. exact Ha.
    + rewrite a3, W3. lia.
    + rewrite a5. lia.
Qed.
End FinalSpectrumReal.

Lemma Rltb_true a b : (a < b)%R -> RealArith.Rltb a b = true.
Proof. intros H. unfold RealArith.Rltb. destruct (Rlt_dec a b); [reflexivity|contradiction]. Qed.

Lemma Rltb_false a b : (b <= a)%R -> RealArith.Rltb a b = false.
Proof. intros H. unfold RealArith.Rltb. destruct (Rlt_dec a b); [lra|reflexivity]. Qed.

Lemma FLT_MIN_real_lt_1 : (@FLT_MIN Rarith < 1)%R.
Proof.
  change (/ 2 ^ 126 < 1)%R.
  assert (H : (1 < 2 ^ 126)%R) by (apply Rlt_pow_R1; [lra | lia]).
  rewrite <- Rinv_1. apply Rinv_lt_contravar; lra.
Qed.

Lemma example_real_frame_not_empty :
  is_empty
    (power_spectrum
       (fft_denoiser_run_analysis Rlibm example_real_denoiser
          [@of_int Rarith 0; @of_int Rarith 1]))
    (half_fft_size example_real_denoiser) = false.
Proof.
  cbn -[pow FLT_MIN].
  rewrite Rltb_true; [reflexivity|].
  pose proof FLT_MIN_real_lt_1. lra.
Qed.

Lemma example_real_residual :
  aget
    (residual_spectrum
       (fft_denoiser_run_processing Rlibm
          (fft_denoiser_run_analysis Rlibm example_real_denoiser
             [@of_int Rarith 0; @of_int Rarith 1]))) 1 = 1%R.
Proof.
  unfold fft_denoiser_run_processing.
  cbn -[pow FLT_MIN].
  rewrite Rltb_true by (pose proof FLT_MIN_real_lt_1; lra).
  cbn -[pow FLT_MIN].
  unfold get_residual_spectrum.
  cbn -[pow FLT_MIN].
  rewrite (Rltb_false 0 0) by lra.
  cbn -[pow FLT_MIN].
  lra.
Qed.

Lemma example_real_reachable :
  reachable Rlibm profiled_estimators example_real_denoiser.
Proof. apply reachable_parameters, reachable_profile, reachable_initialize. Qed.

(** C4 as stated, with [r = 10^(dB/10)], fails: with a reduction amount of
    10 dB the residual 1 at bin 1 would be multiplied by 10, and the code
    multiplies it by 1/10. *)
Lemma final_spectrum_not_ten_to_db_over_ten :
  ~ final_spectrum_composed (fun dB => (dB / 10)%R).
Proof.
  intros H.
  specialize (H profiled_estimators example_real_denoiser
                [@of_int Rarith 0; @of_int Rarith 1] 1%nat
                example_real_reachable example_real_frame_not_empty
                eq_refl eq_refl (le_n 1)).
  pose proof (final_spectrum_real profiled_estimators example_real_denoiser
                [@of_int Rarith 0; @of_int Rarith 1] 1%nat
                example_real_reachable example_real_frame_not_empty
                eq_refl eq_refl (le_n 1)) as K.
  cbv zeta in H, K. rewrite example_real_residual in H, K.
  rewrite K in H.
  change ((aget (denoised_spectrum
                   (fft_denoiser_run_processing Rlibm
                      (fft_denoiser_run_analysis Rlibm example_real_denoiser
                         [@of_int Rarith 0; @of_int Rarith 1]))) 1
           + 1 * Rpower 10 (- (10) / 10))%R
          = (aget (denoised_spectrum
                     (fft_denoiser_run_processing Rlibm
                        (fft_denoiser_run_analysis Rlibm example_real_denoiser
                           [@of_int Rarith 0; @of_int Rarith 1]))) 1
             + 1 * Rpower 10 (10 / 10))%R) in H.
  replace (- (10) / 10)%R with (- (1))%R in H by lra.
  replace (10 / 10)%R with 1%R in H by lra.
  rewrite Rpower_Ropp, Rpower_1 in H by lra.
  lra.
Qed.

(** C4 (as amended): on a frame that is not empty, with learning off and a
    noise profile available, the processed spectrum after the guarded block
    is, at every bin [k] from 0 to [half_fft_size], the residual spectrum when
    residual listen is on, and otherwise
    [denoised[k] + residual[k] * 10^(-dB/10)], with [dB] the reduction amount
    the denoiser held at the start of the call. *)
Theorem final_spectrum_attenuates_residual (E : @Estimators Rarith)
    (self : FFTDenoiser E) fft_spectrum k :
  reachable Rlibm E self ->
  let analysed := fft_denoiser_run_analysis Rlibm self fft_spectrum in
  let final := fft_denoiser_run_processing Rlibm analysed in
  let p := denoise_parameters self in
  is_empty (power_spectrum analysed) (half_fft_size self) = false ->
  learn_noise p = false ->
  is_noise_estimation_available E (noise_estimation self) = true ->
  (k <= half_fft_size self)%nat ->
  aget (processed_fft_spectrum final) k =
  if residual_listen p then aget (residual_spectrum final) k
  else (aget (denoised_spectrum final) k
        + aget (residual_spectrum final) k
          * Rpower 10 (- reduction_amount p / 10))%R.
Proof. exact (final_spectrum_real E self fft_spectrum k). Qed.

Lemma final_spectrum_attenuates_residual_witness :
  let final :=
    fft_denoiser_run_processing Rlibm
      (fft_denoiser_run_analysis Rlibm example_real_denoiser
         [@of_int Rarith 0; @of_int Rarith 1]) in
  aget (processed_fft_spectrum final) 1 =
  (aget (denoised_spectrum final) 1
   + aget (residual_spectrum final) 1 * Rpower 10 (- (10) / 10))%R.
Proof.
  exact (final_spectrum_attenuates_residual profiled_estimators
           example_real_denoiser [@of_int Rarith 0; @of_int Rarith 1] 1%nat
           example_real_reachable example_real_frame_not_empty
           eq_refl eq_refl (le_n 1)).
Defined.
End FinalSpectrumFacts.

(** ** Saving and restoring the plugin state *)

Module PluginStateFacts.
Import PluginState.
Local Open Scope Z_scope.

Lemma load_bytes_length mem a n : length (load_bytes mem a n) = n.
Proof. unfold load_bytes. rewrite length_map, length_seq. reflexivity. Qed.

Lemma load_bytes_ext mem1 mem2 a n :
  (forall i, a <= i < a + Z.of_nat n -> mem1 i = mem2 i) ->
  load_bytes mem1 a n = load_bytes mem2 a n.
Proof.
  intros H. unfold load_bytes. apply map_ext_in. intros i Hi.
  apply in_seq in Hi. apply H. lia.
Qed.

Lemma load_bytes_app mem a n1 n2 :
  load_bytes mem a (n1 + n2) =
  load_bytes mem a n1 ++ load_bytes mem (a + Z.of_nat n1) n2.
Proof.
  unfold load_bytes. rewrite seq_app, map_app. f_equal.
  generalize 0%nat as s.
  induction n2 as [|n2 IH]; intros s; simpl; [reflexivity|].
  f_equal.
  - f_equal. lia.
  - apply (IH (S s)).
Qed.

Lemma load_store_other mem a bs b n :
  b + Z.of_nat n <= a \/ a + Z.of_nat (length bs) <= b ->
  load_bytes (store_bytes mem a bs) b n = load_bytes mem b n.
Proof.
  intros H. apply load_bytes_ext. intros i Hi. unfold store_bytes.
  destruct (Z.leb_spec a i), (Z.ltb_spec i (a + Z.of_nat (length bs)));
    simpl; try reflexivity; lia.
Qed.

Lemma map_nth_seq (bs : list byte) :
  map (fun i => nth i bs Byte.x00) (seq 0 (length bs)) = bs.
Proof.
  induction bs as [|b bs IH]; simpl; [reflexivity|].
  f_equal. rewrite <- seq_shift, map_map. exact IH.
Qed.

Lemma load_store_same mem a bs :
  load_bytes (store_bytes mem a bs) a (length bs) = bs.
Proof.
  unfold load_bytes.
  transitivity (map (fun i => nth i bs Byte.x00) (seq 0 (length bs)));
    [|apply map_nth_seq].
  apply map_ext_in. intros i Hi. apply in_seq in Hi. unfold store_bytes.
  destruct (Z.leb_spec a (a + Z.of_nat i)),
           (Z.ltb_spec (a + Z.of_nat i) (a + Z.of_nat (length bs)));
    simpl; try lia.
  f_equal. lia.
Qed.

(** The first eight bytes of a [NoiseProfile] object: its size and the
    padding, none of the magnitudes and none of the pointer. *)
Lemma noise_profile_struct_head mem addr size padding array :
  load_bytes (write_noise_profile_struct mem addr size padding array) addr
    sizeof_pointer
  = le_split 4 size ++ firstn 4 (padding ++ repeat Byte.x00 4).
Proof.
  unfold write_noise_profile_struct.
  assert (L2 : length (firstn 4 (padding ++ repeat Byte.x00 4)) = 4%nat).
  { rewrite length_firstn, length_app, repeat_length. lia. }
  change sizeof_pointer with (4 + 4)%nat. rewrite load_bytes_app. f_equal.
  - rewrite load_store_other by lia.
    rewrite load_store_other by lia.
    pose proof (load_store_same mem addr (le_split 4 size)) as K.
    rewrite length_le_split in K. exact K.
  - rewrite load_store_other by (rewrite length_le_split; lia).
    change (Z.of_nat 4) with 4.
    pose proof (load_store_same (store_bytes mem addr (le_split 4 size)) (addr + 4)
                  (firstn 4 (padding ++ repeat Byte.x00 4))) as K.
    rewrite L2 in K. exact K.
Qed.

Lemma int_of_bytes_le_split z :
  -2147483648 <= z < 2147483648 -> int_of_bytes (le_split 4 z) = z.
Proof.
  intros H. unfold int_of_bytes.
  rewrite firstn_all2 by (rewrite length_le_split; lia).
  rewrite le_combine_split. change (2 ^ (Z.of_nat 4 * 8)) with 4294967296.
  destruct (Z.ltb_spec (z mod 4294967296) 2147483648) as [L|L].
  - destruct (Z_lt_le_dec z 0) as [N|N].
    + rewrite <- (Z_mod_plus_full z 1 4294967296) in L.
      rewrite Z.mod_small in L by lia. lia.
    + apply Z.mod_small. lia.
  - destruct (Z_lt_le_dec z 0) as [N|N].
    + rewrite <- (Z_mod_plus_full z 1 4294967296).
      rewrite Z.mod_small by lia. lia.
    + rewrite Z.mod_small in L by lia. lia.
Qed.

(** C9, what the code does instead: [plugin_state_savestate] stores
    [sizeof(noise_profile)] bytes, the size of the pointer, from the address
    of the [NoiseProfile] object, that is the size field and the padding of
    the object and no magnitude; [plugin_state_restorestate] on the host's
    copy succeeds, restores [fft_size], and hands [set_noise_profile] the
    bytes that follow the first eight of the retrieved value, of which there
    are none. *)
Theorem savestate_restorestate_drops_magnitudes (self : PluginState)
    (mem : memory) (handle : LV2_State_Handle) (fft_size : Z)
    (noise_profile : Z) (size : Z) (padding : list byte) (array : Z)
    (magnitudes : list B32.float32) :
  property_fft_size self <> property_saved_noise_profile self ->
  -2147483648 <= fft_size < 2147483648 ->
  let mem :=
    write_noise_profile_struct (write_floats mem array magnitudes)
      noise_profile size padding array in
  let saved := plugin_state_savestate self mem handle fft_size noise_profile in
  retrieve saved (property_saved_noise_profile self) =
    Some {| sv_value := le_split 4 size ++ firstn 4 (padding ++ repeat Byte.x00 4);
            sv_type := atom_Vector self;
            sv_flags := 3 |} /\
  plugin_state_restorestate self saved = Some (fft_size, []).
Proof.
  intros Hkeys Hfft mem' saved.
  assert (R1 : retrieve saved (property_saved_noise_profile self) =
    Some {| sv_value := le_split 4 size ++ firstn 4 (padding ++ repeat Byte.x00 4);
            sv_type := atom_Vector self;
            sv_flags := 3 |}).
  { unfold saved, plugin_state_savestate, store. cbn [retrieve].
    rewrite Z.eqb_refl. unfold mem'. rewrite noise_profile_struct_head. reflexivity. }
  split; [exact R1|].
  unfold plugin_state_restorestate. rewrite R1.
  unfold saved at 1. unfold plugin_state_savestate, store. cbn [retrieve].
  destruct (Z.eqb_spec (property_saved_noise_profile self) (property_fft_size self))
    as [K|K]; [congruence|].
  rewrite Z.eqb_refl. cbn [sv_type sv_value].
  rewrite !Z.eqb_refl. cbn [negb].
  rewrite length_app, length_le_split, length_firstn, length_app, repeat_length.
  replace (4 + Nat.min 4 (length padding + 4))%nat with 8%nat by lia.
  cbn [Nat.eqb sizeof_pointer negb orb].
  f_equal. f_equal.
  - change sizeof_int with (length (le_split 4 fft_size)).
    rewrite load_store_same. apply int_of_bytes_le_split. exact Hfft.
  - unfold LV2_ATOM_BODY. apply skipn_all2.
    rewrite length_app, length_le_split, length_firstn, length_app, repeat_length.
    unfold sizeof_LV2_Atom. lia.
Qed.

Lemma savestate_restorestate_drops_magnitudes_witness :
  let self := {| atom_Int := 1; atom_Vector := 2; property_fft_size := 3;
                 property_saved_noise_profile := 4 |} in
  let mem :=
    write_noise_profile_struct
      (write_floats (fun _ => Byte.x00) 128 [B32.b32_of_int 1; B32.b32_of_int 3])
      64 2 [] 128 in
  plugin_state_restorestate self (plugin_state_savestate self mem [] 2048 64)
  = Some (2048, []).
Proof.
  intros self mem.
  refine (proj2 (savestate_restorestate_drops_magnitudes self (fun _ => Byte.x00)
                   [] 2048 64 2 [] 128 [B32.b32_of_int 1; B32.b32_of_int 3] _ _)).
  - discriminate.
  - lia.
Defined.
End PluginStateFacts.

(** ** The wet/dry state *)

Section WetDryFacts.
Local Open Scope R_scope.

(** The numbers of the format around 1. *)
Lemma finite32_cases y :
  finite32 y ->
  B2R y <= 0 \/ exists m e, y = S754_finite false m e /\ bounded 24 128 m e = true.
Proof.
  intros [V F]. destruct y as [s|s| |s m e]; try discriminate F.
  - left. simpl. lra.
  - destruct s.
    + left. change (F2R (- Z.pos m) e <= 0). rewrite F2R_opp.
      pose proof (F2R_pos (Z.pos m) e ltac:(lia)). lra.
    + right. exists m, e. split; [reflexivity|]. exact V.
Qed.

Lemma grid_above_one y : finite32 y -> 1 < B2R y -> 1 + bpow (-23) <= B2R y.
Proof.
  intros Hy H1. destruct (finite32_cases y Hy) as [N|(m & e & -> & Hb)]; [lra|].
  cbn [B2R cond_Zopp] in *.
  pose proof (bounded_lt_bpow m e Hb) as Hu.
  assert (He : (-24 < e)%Z).
  { assert (bpow 0 < bpow (e + 24)) by (rewrite bpow_0; lra).
    apply bpow_lt_inv in H. lia. }
  destruct (Z.eq_dec e (-23)) as [->|Hne].
  - assert (E1 : F2R (2 ^ 23) (-23) = 1).
    { rewrite (F2R_bpow (-23) 23) by lia. apply bpow_0. }
    assert (Hm : (2 ^ 23 < Z.pos m)%Z).
    { apply (F2R_lt_inv _ _ (-23)). rewrite E1. exact H1. }
    assert (Hs : F2R (2 ^ 23 + 1) (-23) <= F2R (Z.pos m) (-23)) by (apply F2R_le; lia).
    rewrite F2R_succ, E1 in Hs. exact Hs.
  - pose proof (bounded_normal_ge m e Hb ltac:(lia)) as Hn.
    assert (bpow 1 <= bpow (e + 23)) by (apply bpow_le; lia).
    assert (bpow (-23) <= bpow 0) by (apply bpow_le; lia).
    rewrite bpow_1 in *. rewrite bpow_0 in *. lra.
Qed.

Lemma grid_from_half y :
  finite32 y -> / 2 <= B2R y -> exists k : Z, B2R y = IZR k * bpow (-24).
Proof.
  intros Hy H1. destruct (finite32_cases y Hy) as [N|(m & e & -> & Hb)]; [lra|].
  cbn [B2R cond_Zopp] in *.
  pose proof (bounded_lt_bpow m e Hb) as Hu.
  assert (He : (-25 < e)%Z).
  { assert (bpow (-1) < bpow (e + 24)).
    { replace (bpow (-1)) with (/ 2); [lra|].
      pose proof (bpow_pred 0) as P. rewrite bpow_0 in P.
      change (0 - 1)%Z with (-1)%Z in P. lra. }
    apply bpow_lt_inv in H. lia. }
  exists (Z.pos m * 2 ^ (e + 24))%Z.
  unfold F2R. rewrite mult_IZR, <- (bpow_IZR (e + 24)) by lia.
  rewrite Rmult_assoc, <- bpow_add. f_equal. f_equal. lia.
Qed.

Lemma rounds_to_error x r k :
  rounds_to x r -> finite32 r -> (k <= 128)%Z -> Rabs x < bpow k ->
  x - bpow (fexp 24 128 k) / 2 <= B2R r <= x + bpow (fexp 24 128 k) / 2.
Proof.
  intros H Hr Hk Hx. pose proof (rt_err _ _ H k Hk Hx) as E.
  rewrite (finite32_Bext r Hr) in E. apply Rabs_le_inv in E. lra.
Qed.

Lemma Rabs_nonneg_lt x b : 0 <= x -> x < b -> Rabs x < b.
Proof. intros H0 H1. rewrite Rabs_pos_eq by exact H0. exact H1. Qed.

Lemma bpow_scale_26 :
  bpow (-25) = 2 * bpow (-26) /\ bpow (-24) = 4 * bpow (-26) /\
  bpow (-23) = 8 * bpow (-26) /\ 0 < bpow (-126) < bpow (-26) /\
  bpow (-26) < / 64 /\ bpow (-1) = / 2.
Proof.
  pose proof (bpow_succ (-26)) as A. change (-26 + 1)%Z with (-25)%Z in A.
  pose proof (bpow_succ (-25)) as B. change (-25 + 1)%Z with (-24)%Z in B.
  pose proof (bpow_succ (-24)) as C. change (-24 + 1)%Z with (-23)%Z in C.
  pose proof (bpow_gt_0 (-126)) as D.
  pose proof (bpow_lt (-126) (-26) ltac:(lia)) as E.
  pose proof (bpow_lt (-26) (-6) ltac:(lia)) as F.
  assert (G : bpow (-6) = / 64).
  { pose proof (bpow_add (-6) 6) as K. change (-6 + 6)%Z with 0%Z in K.
    rewrite bpow_0, (bpow_IZR 6) in K by lia. change (2 ^ 6)%Z with 64%Z in K.
    pose proof (bpow_gt_0 (-6)). field_simplify_eq; lra. }
  pose proof (bpow_pred 0) as H. change (0 - 1)%Z with (-1)%Z in H.
  rewrite bpow_0 in H.
  repeat split; lra.
Qed.

Lemma B2R_half : B2R (S754_finite false 8388608 (-24)) = / 2.
Proof.
  change (F2R (2 ^ 23) (-24) = / 2). rewrite F2R_bpow by lia.
  change (-24 + 23)%Z with (-1)%Z. apply bpow_scale_26.
Qed.

Lemma B2R_two : B2R (S754_finite false 8388608 (-22)) = 2.
Proof.
  change (F2R (2 ^ 23) (-22) = 2). rewrite F2R_bpow by lia. apply bpow_1.
Qed.

Lemma B2R_four : B2R (S754_finite false 8388608 (-21)) = 4.
Proof.
  change (F2R (2 ^ 23) (-21) = 4). rewrite F2R_bpow by lia.
  change (-21 + 23)%Z with (1 + 1)%Z. rewrite bpow_succ, bpow_1. lra.
Qed.

Lemma B2R_flt_min : B2R (S754_finite false 8388608 (-149)) = bpow (-126).
Proof.
  change (F2R (2 ^ 23) (-149) = bpow (-126)). rewrite F2R_bpow by lia. reflexivity.
Qed.

(** A number of the format below 1 is at most [1 - 2^-24]. *)
Lemma grid_below_one y : finite32 y -> B2R y < 1 -> B2R y <= 1 - bpow (-24).
Proof.
  intros Hy H1. pose proof bpow_scale_26 as (_ & B24 & _ & _ & S & _).
  destruct (Rle_dec (/ 2) (B2R y)) as [G|G]; [|lra].
  destruct (grid_from_half y Hy G) as [k Hk].
  assert (E1 : F2R (2 ^ 24) (-24) = 1).
  { rewrite F2R_bpow by lia. apply bpow_0. }
  assert (Hlt : (k < 2 ^ 24)%Z).
  { apply (F2R_lt_inv _ _ (-24)). rewrite E1. unfold F2R. rewrite <- Hk. exact H1. }
  assert (Hle : F2R k (-24) <= F2R (2 ^ 24 - 1) (-24)) by (apply F2R_le; lia).
  pose proof (F2R_succ (2 ^ 24 - 1) (-24)) as Hs.
  replace (2 ^ 24 - 1 + 1)%Z with (2 ^ 24)%Z in Hs by lia.
  rewrite E1 in Hs. unfold F2R at 1 in Hle. rewrite <- Hk in Hle. lra.
Qed.

(** Two numbers of the format from 1/2 on are equal or [2^-24] apart. *)
Lemma grid_step_from_half u d :
  finite32 u -> finite32 d -> / 2 <= B2R d -> B2R u < B2R d + bpow (-24) ->
  B2R u <= B2R d.
Proof.
  intros Hu Hd Gd H.
  destruct (Rle_dec (/ 2) (B2R u)) as [Gu|Gu]; [|lra].
  destruct (grid_from_half u Hu Gu) as [ku Hku].
  destruct (grid_from_half d Hd Gd) as [kd Hkd].
  assert (Hlt : (ku < kd + 1)%Z).
  { apply (F2R_lt_inv _ _ (-24)). rewrite F2R_succ. unfold F2R.
    rewrite <- Hku, <- Hkd. exact H. }
  assert (Hle : F2R ku (-24) <= F2R kd (-24)) by (apply F2R_le; lia).
  unfold F2R in Hle. rewrite <- Hku, <- Hkd in Hle. exact Hle.
Qed.

Lemma below_grid_above_one y : finite32 y -> B2R y < 1 + bpow (-23) -> B2R y <= 1.
Proof.
  intros Hy H. destruct (Rle_dec (B2R y) 1) as [L|L]; [exact L|].
  pose proof (grid_above_one y Hy ltac:(lra)). lra.
Qed.

(** One update of the wet/dry state towards 1. *)
Lemma wet_dry_step_enabled tau w :
  finite32 tau -> 0 <= B2R tau <= 1 -> finite32 w -> 0 <= B2R w <= 1 ->
  let w' :=
    SFadd 24 128 w
      (SFadd 24 128
         (SFmul 24 128 tau (SFsub 24 128 (S754_finite false 8388608 (-23)) w))
         (S754_finite false 8388608 (-149))) in
  finite32 w' /\ B2R w <= B2R w' <= 1.
Proof.
  intros Ht Bt Hw Bw.
  pose proof bpow_scale_26 as (B25 & B24 & B23 & [F0 F1] & S26 & Bm1).
  set (one := S754_finite false 8388608 (-23)).
  set (fmin := S754_finite false 8388608 (-149)).
  set (half := S754_finite false 8388608 (-24)).
  set (two := S754_finite false 8388608 (-22)).
  set (four := S754_finite false 8388608 (-21)).
  assert (H1 : finite32 one) by (split; reflexivity).
  assert (Hm : finite32 fmin) by (split; reflexivity).
  assert (Hh : finite32 half) by (split; reflexivity).
  assert (H2 : finite32 two) by (split; reflexivity).
  assert (H4 : finite32 four) by (split; reflexivity).
  assert (H0 : finite32 (S754_zero false)) by (split; reflexivity).
  assert (V1 : B2R one = 1) by exact B2R_one.
  assert (Vm : B2R fmin = bpow (-126)) by exact B2R_flt_min.
  assert (Vh : B2R half = / 2) by exact B2R_half.
  assert (V2 : B2R two = 2) by exact B2R_two.
  assert (V4 : B2R four = 4) by exact B2R_four.
  assert (V0 : B2R (S754_zero false) = 0) by reflexivity.
  set (d := SFsub 24 128 one w).
  pose proof (SFsub_correct one w (proj1 H1) (proj1 Hw) (proj2 H1) (proj2 Hw)) as Rd.
  fold d in Rd. rewrite V1 in Rd.
  destruct (rounds_to_finite32 _ _ (S754_zero false) one Rd H0 H1 ltac:(lra))
    as [Hd Bd]. rewrite V0, V1 in Bd.
  set (t := SFmul 24 128 tau d).
  pose proof (SFmul_correct tau d (proj1 Ht) (proj1 Hd) (proj2 Ht) (proj2 Hd)) as Rt.
  fold t in Rt.
  destruct (rounds_to_finite32 _ _ (S754_zero false) d Rt H0 Hd ltac:(rewrite V0; nra))
    as [Hft Bft]. rewrite V0 in Bft.
  set (u := SFadd 24 128 t fmin).
  pose proof (SFadd_correct t fmin (proj1 Hft) (proj1 Hm) (proj2 Hft) (proj2 Hm)) as Ru.
  fold u in Ru. rewrite Vm in Ru.
  destruct (rounds_to_finite32 _ _ fmin two Ru Hm H2 ltac:(rewrite Vm, V2; lra))
    as [Hu Bu]. rewrite Vm, V2 in Bu.
  pose proof (SFadd_correct w u (proj1 Hw) (proj1 Hu) (proj2 Hw) (proj2 Hu)) as Rw.
  destruct (rounds_to_finite32 _ _ w four Rw Hw H4 ltac:(rewrite V4; lra))
    as [Hw' Bw']. rewrite V4 in Bw'.
  cbv zeta. fold one fmin d t u.
  split; [exact Hw'|]. split; [apply Bw'|].
  apply (below_grid_above_one _ Hw').
  destruct (Rle_dec (B2R w) (/ 2)) as [C|C].
  - (* the state is at most 1/2: the difference is at least 1/2 *)
    destruct (rounds_to_finite32 _ _ half one Rd Hh H1 ltac:(rewrite Vh, V1; lra))
      as [_ Bd']. rewrite Vh, V1 in Bd'.
    assert (Ed : B2R d <= 1 - B2R w + 2 * bpow (-26)).
    { destruct (Req_dec (B2R w) 0) as [Z|Z].
      - destruct (rounds_to_representable _ _ one Rd (proj1 H1) (proj2 H1)
                    ltac:(rewrite V1; lra)) as [_ E].
        lra.
      - pose proof (rounds_to_error _ _ 0 Rd Hd ltac:(lia)
                      ltac:(apply Rabs_nonneg_lt; rewrite ?bpow_0; lra)) as E.
        change (fexp 24 128 0) with (-24)%Z in E. lra. }
    destruct (Rlt_dec (B2R t) 1) as [T1|T1].
    + assert (Tm : B2R t + bpow (-126) < 1).
      { pose proof (grid_below_one t Hft T1). lra. }
      pose proof (rounds_to_error _ _ 0 Ru Hu ltac:(lia)
                    ltac:(apply Rabs_nonneg_lt; rewrite ?bpow_0; lra)) as Eu.
      change (fexp 24 128 0) with (-24)%Z in Eu.
      assert (Ud : B2R u <= B2R d).
      { apply grid_step_from_half; try assumption; lra. }
      pose proof (rounds_to_error _ _ 1 Rw Hw' ltac:(lia)
                    ltac:(apply Rabs_nonneg_lt; rewrite ?bpow_1; lra)) as Ew.
      change (fexp 24 128 1) with (-23)%Z in Ew. lra.
    + assert (D1 : B2R d = 1) by lra.
      pose proof (rounds_to_error _ _ 1 Ru Hu ltac:(lia)
                    ltac:(apply Rabs_nonneg_lt; rewrite ?bpow_1; lra)) as Eu.
      change (fexp 24 128 1) with (-23)%Z in Eu.
      assert (U1 : B2R u <= 1) by (apply (below_grid_above_one _ Hu); lra).
      pose proof (rounds_to_error _ _ 1 Rw Hw' ltac:(lia)
                    ltac:(apply Rabs_nonneg_lt; rewrite ?bpow_1; lra)) as Ew.
      change (fexp 24 128 1) with (-23)%Z in Ew. lra.
  - (* the state is above 1/2 *)
    pose proof (rounds_to_error _ _ (-1) Rd Hd ltac:(lia)
                  ltac:(apply Rabs_nonneg_lt; rewrite ?Bm1; lra)) as Ed.
    change (fexp 24 128 (-1)) with (-25)%Z in Ed.
    pose proof (rounds_to_error _ _ 0 Ru Hu ltac:(lia)
                  ltac:(apply Rabs_nonneg_lt; rewrite ?bpow_0; lra)) as Eu.
    change (fexp 24 128 0) with (-24)%Z in Eu.
    pose proof (rounds_to_error _ _ 1 Rw Hw' ltac:(lia)
                  ltac:(apply Rabs_nonneg_lt; rewrite ?bpow_1; lra)) as Ew.
    change (fexp 24 128 1) with (-23)%Z in Ew. lra.
Qed.

(** One update of the wet/dry state towards 0. *)
Lemma wet_dry_step_disabled tau w :
  finite32 tau -> 0 <= B2R tau <= 1 -> finite32 w -> 0 <= B2R w <= 1 ->
  let w' :=
    SFadd 24 128 w
      (SFadd 24 128
         (SFmul 24 128 tau (SFsub 24 128 (S754_zero false) w))
         (S754_finite false 8388608 (-149))) in
  finite32 w' /\ 0 <= B2R w' <= 1 /\
  (bpow (-126) <= B2R tau * B2R w -> B2R w' <= B2R w).
Proof.
  intros Ht Bt Hw Bw.
  pose proof bpow_scale_26 as (B25 & B24 & B23 & [F0 F1] & S26 & Bm1).
  set (fmin := S754_finite false 8388608 (-149)).
  set (two := S754_finite false 8388608 (-22)).
  assert (Hm : finite32 fmin) by (split; reflexivity).
  assert (H2 : finite32 two) by (split; reflexivity).
  assert (H0 : finite32 (S754_zero false)) by (split; reflexivity).
  assert (Vm : B2R fmin = bpow (-126)) by exact B2R_flt_min.
  assert (V2 : B2R two = 2) by exact B2R_two.
  assert (V0 : B2R (S754_zero false) = 0) by reflexivity.
  assert (Hn : finite32 (SFopp w)).
  { split; [rewrite valid32_opp; apply Hw | rewrite is_finite_opp; apply Hw]. }
  assert (Vn : B2R (SFopp w) = - B2R w) by apply B2R_opp.
  assert (Hnm : finite32 (SFopp fmin)) by (split; reflexivity).
  assert (Vnm : B2R (SFopp fmin) = - bpow (-126)) by (rewrite B2R_opp, Vm; reflexivity).
  set (d := SFsub 24 128 (S754_zero false) w).
  pose proof (SFsub_correct (S754_zero false) w (proj1 H0) (proj1 Hw) (proj2 H0)
                (proj2 Hw)) as Rd.
  fold d in Rd. rewrite V0 in Rd.
  destruct (rounds_to_finite32 _ _ (SFopp w) (SFopp w) Rd Hn Hn ltac:(rewrite Vn; lra))
    as [Hd Bd]. rewrite Vn in Bd.
  set (t := SFmul 24 128 tau d).
  pose proof (SFmul_correct tau d (proj1 Ht) (proj1 Hd) (proj2 Ht) (proj2 Hd)) as Rt.
  fold t in Rt.
  destruct (rounds_to_finite32 _ _ (SFopp w) (S754_zero false) Rt Hn H0
              ltac:(rewrite Vn, V0; nra))
    as [Hft Bft]. rewrite Vn, V0 in Bft.
  set (u := SFadd 24 128 t fmin).
  pose proof (SFadd_correct t fmin (proj1 Hft) (proj1 Hm) (proj2 Hft) (proj2 Hm)) as Ru.
  fold u in Ru. rewrite Vm in Ru.
  destruct (rounds_to_finite32 _ _ (SFopp w) fmin Ru Hn Hm ltac:(rewrite Vn, Vm; lra))
    as [Hu Bu]. rewrite Vn, Vm in Bu.
  pose proof (SFadd_correct w u (proj1 Hw) (proj1 Hu) (proj2 Hw) (proj2 Hu)) as Rw.
  destruct (rounds_to_finite32 _ _ (S754_zero false) two Rw H0 H2
              ltac:(rewrite V0, V2; lra))
    as [Hw' Bw']. rewrite V0, V2 in Bw'.
  cbv zeta. fold fmin d t u.
  split; [exact Hw'|]. split; [split; [apply Bw'|]|].
  - apply (below_grid_above_one _ Hw').
    pose proof (rounds_to_error _ _ 1 Rw Hw' ltac:(lia)
                  ltac:(apply Rabs_nonneg_lt; rewrite ?bpow_1; lra)) as Ew.
    change (fexp 24 128 1) with (-23)%Z in Ew. lra.
  - intros C.
    destruct (rounds_to_finite32 _ _ (SFopp w) (SFopp fmin) Rt Hn Hnm
                ltac:(rewrite Vn, Vnm; nra))
      as [_ Bft']. rewrite Vn, Vnm in Bft'.
    destruct (rounds_to_finite32 _ _ (SFopp w) (S754_zero false) Ru Hn H0
                ltac:(rewrite Vn, V0; lra))
      as [_ Bu']. rewrite Vn, V0 in Bu'.
    destruct (rounds_to_finite32 _ _ (S754_zero false) w Rw H0 Hw
                ltac:(rewrite V0; lra))
      as [_ Bw'']. lra.
Qed.

(** C7 fails on the first frame of a disabled denoiser: the state 0 is at its
    target 0, and the update moves it to [FLT_MIN]. *)
Lemma wet_dry_leaves_target_zero : ~ wet_dry_converges_monotonically.
Proof.
  intros H.
  destruct (H example_libm example_estimators
              (example_denoiser 4)
              false (reachable_profile _ _ _ _ (reachable_initialize _ _ _ _ _)))
    as (_ & K & _).
  destruct (K eq_refl) as [_ K2]. vm_compute in K2. discriminate K2.
Qed.

Section WetDry.
#[local] Existing Instance b32.
Local Open Scope arith_scope.

(** C7 (as amended): the wet/dry state is 0 after [fft_denoiser_initialize];
    with [tau] and the state in [0, 1], an update leaves the state in [0, 1];
    towards the target 1 it never decreases the state; towards the target 0
    it does not increase the state when [tau * wet_dry >= FLT_MIN]. *)
Theorem wet_dry_update_bounds (M : @Libm b32) (E : @Estimators b32)
    (self : FFTDenoiser E) (enable : bool) :
  finite32 (tau self) -> in_unit (tau self) ->
  finite32 (wet_dry self) -> in_unit (wet_dry self) ->
  let self' := fft_denoiser_update_wetdry_target self enable in
  (forall samp_rate fft_size overlap_factor,
     wet_dry (fft_denoiser_initialize M E samp_rate fft_size overlap_factor) = #0) /\
  finite32 (wet_dry self') /\ in_unit (wet_dry self') /\
  (enable = true -> wet_dry self [<=] wet_dry self' = true) /\
  (enable = false ->
   (bpow (-126) <= B2R (tau self) * B2R (wet_dry self))%R ->
   wet_dry self' [<=] wet_dry self = true).
Proof.
  intros Ht Ut Hw Uw self'.
  apply (in_unit_B2R _ Ht) in Ut. apply (in_unit_B2R _ Hw) in Uw.
  split; [reflexivity|].
  destruct enable.
  - destruct (wet_dry_step_enabled (tau self) (wet_dry self) Ht Ut Hw Uw) as [F B].
    cbv zeta in F, B.
    change (SFadd 24 128 (wet_dry self)
              (SFadd 24 128
                 (SFmul 24 128 (tau self)
                    (SFsub 24 128 (S754_finite false 8388608 (-23)) (wet_dry self)))
                 (S754_finite false 8388608 (-149))))
      with (wet_dry self') in F, B.
    split; [exact F|]. split; [apply (in_unit_B2R _ F); lra|].
    split; [|discriminate].
    intros _. apply (SFleb_B2R _ _ Hw F). lra.
  - destruct (wet_dry_step_disabled (tau self) (wet_dry self) Ht Ut Hw Uw)
      as (F & B & D).
    cbv zeta in F, B, D.
    change (SFadd 24 128 (wet_dry self)
              (SFadd 24 128
                 (SFmul 24 128 (tau self)
                    (SFsub 24 128 (S754_zero false) (wet_dry self)))
                 (S754_finite false 8388608 (-149))))
      with (wet_dry self') in F, B, D.
    split; [exact F|]. split; [apply (in_unit_B2R _ F); lra|].
    split; [discriminate|].
    intros _ C. apply (SFleb_B2R _ _ F Hw). apply D. exact C.
Qed.

Lemma wet_dry_update_bounds_witness :
  let self := example_denoiser 4 in
  wet_dry self [<=] wet_dry (fft_denoiser_update_wetdry_target self true) = true.
Proof.
  intros self.
  refine (proj1 (proj2 (proj2 (proj2 (wet_dry_update_bounds example_libm
                  example_estimators self true _ _ _ _))))  eq_refl).
  - split; reflexivity.
  - split; reflexivity.
  - split; reflexivity.
  - split; reflexivity.
Defined.
End WetDry.
End WetDryFacts.

(** ** The square root *)

Section SquareRoot.
Local Open Scope R_scope.

(** The square root: [SFsqrt_core_binary] locates the root of the value. *)
Lemma div2_double (a : Z) : (2 * Z.div2 a <= a <= 2 * Z.div2 a + 1)%Z.
Proof. pose proof (Z.div2_odd a) as H. destruct (Z.odd a); unfold Z.b2z in H; lia. Qed.

Lemma sqrt_bpow_double e : sqrt (bpow (2 * e)) = bpow e.
Proof.
  replace (2 * e)%Z with (e + e)%Z by lia. rewrite bpow_add.
  apply sqrt_square. pose proof (bpow_gt_0 e). lra.
Qed.

Lemma sqrt_located (q r : Z) (t : R) :
  (0 <= q)%Z -> (0 <= r <= 2 * q)%Z -> 0 <= t -> t * t = IZR (q * q + r) ->
  forall e,
  located q e
    (if Z.eqb r 0 then loc_Exact else loc_Inexact (if Z.leb r q then Lt else Gt))
    (t * bpow e).
Proof.
  intros Hq Hr Ht Et e. pose proof (bpow_gt_0 e) as Hb.
  rewrite plus_IZR, mult_IZR in Et.
  assert (Q0 : 0 <= IZR q) by (apply IZR_le; lia).
  assert (R0 : 0 <= IZR r) by (apply IZR_le; lia).
  assert (R2 : IZR r <= 2 * IZR q).
  { replace (2 * IZR q) with (IZR (2 * q)) by (rewrite mult_IZR; reflexivity).
    apply IZR_le; lia. }
  destruct (Z.eqb_spec r 0) as [->|Hn].
  - cbn [located]. unfold F2R.
    assert (t = IZR q) by nra. subst t. reflexivity.
  - assert (R1 : 1 <= IZR r) by (apply IZR_le; lia).
    destruct (Z.leb_spec r q) as [L|L]; cbn [located]; unfold F2R.
    + assert (IZR r <= IZR q) by (apply IZR_le; lia).
      assert (IZR q < t) by nra.
      assert (t < IZR q + / 2) by nra.
      split; nra.
    + assert (IZR q + 1 <= IZR r).
      { replace (IZR q + 1) with (IZR (q + 1)) by (rewrite plus_IZR; reflexivity).
        apply IZR_le; lia. }
      assert (IZR q + / 2 < t) by nra.
      assert (t < IZR q + 1) by nra.
      split; nra.
Qed.

Lemma SFsqrt_core_binary_spec mx ex :
  forall q e' l,
  SFsqrt_core_binary 24 128 (Zpos mx) ex = (q, e', l) ->
  (0 <= q)%Z /\
  located q e' l (sqrt (F2R (Zpos mx) ex)) /\
  (e' <= fexp 24 128 (Zdigits2 q + e'))%Z.
Proof.
  intros q e' l. unfold SFsqrt_core_binary.
  set (d := Zdigits2 (Zpos mx)).
  set (e0 := Z.min (fexp 24 128 (Z.div2 (d + ex + 1))) (Z.div2 ex)).
  set (s := (ex - 2 * e0)%Z).
  pose proof (div2_double ex) as Dex.
  assert (Hs : (0 <= s)%Z) by (unfold s, e0; lia).
  set (m' := match s with
             | Zpos p => Z.shiftl (Zpos mx) s
             | Z0 => Zpos mx
             | Zneg _ => Z0
             end).
  assert (Em : m' = (Zpos mx * 2 ^ s)%Z).
  { unfold m'. destruct s as [|p|p] eqn:Es.
    - rewrite Z.pow_0_r. lia.
    - apply Z.shiftl_mul_pow2. lia.
    - lia. }
  assert (P2 : (0 < 2 ^ s)%Z) by (apply Z.pow_pos_nonneg; lia).
  assert (Hm : (0 < m')%Z) by (rewrite Em; lia).
  pose proof (Z.sqrtrem_spec m' ltac:(lia)) as Sp.
  destruct (Z.sqrtrem m') as [q0 r].
  destruct Sp as [Eq Hr].
  intros [= <- <- <-].
  assert (Hq : (0 <= q0)%Z) by lia.
  split; [exact Hq|]. split.
  - assert (EX : F2R (Zpos mx) ex = IZR m' * bpow (2 * e0)).
    { rewrite Em.
      change (IZR (Z.pos mx * 2 ^ s) * bpow (2 * e0))
        with (F2R (Z.pos mx * 2 ^ s) (2 * e0)).
      rewrite F2R_bpow_shift by lia. f_equal. unfold s. lia. }
    rewrite EX.
    assert (M0 : 0 <= IZR m') by (apply IZR_le; lia).
    rewrite sqrt_mult by (pose proof (bpow_gt_0 (2 * e0)); lra).
    rewrite sqrt_bpow_double.
    apply sqrt_located; try assumption.
    + apply sqrt_pos.
    + rewrite sqrt_sqrt by exact M0. rewrite Eq. reflexivity.
  - pose proof (Zdigits2_bounds (Zpos mx) ltac:(lia)) as [Lm _]. fold d in Lm.
    pose proof (Zdigits2_pos (Zpos mx) ltac:(lia)) as Dp. fold d in Dp.
    set (j := Z.div2 (d + s - 1)).
    pose proof (div2_double (d + s - 1)) as Dj. fold j in Dj.
    pose proof (div2_double (d + ex + 1)) as Da.
    assert (Hj : (0 <= j)%Z) by lia.
    assert (Pj : (0 < 2 ^ j)%Z) by (apply Z.pow_pos_nonneg; lia).
    assert (L1 : (2 ^ j * 2 ^ j <= m')%Z).
    { rewrite <- Z.pow_add_r by lia. rewrite Em.
      transitivity (2 ^ (d - 1) * 2 ^ s)%Z.
      - rewrite <- Z.pow_add_r by lia. apply Z.pow_le_mono_r; lia.
      - apply Z.mul_le_mono_nonneg_r; lia. }
    assert (L2 : (2 ^ j <= q0)%Z) by nia.
    pose proof (Zdigits2_ge q0 j Hj L2) as Dq.
    assert (Ej : (Z.div2 (d + ex + 1) <= Zdigits2 q0 + e0)%Z) by (unfold s in *; lia).
    pose proof (fexp32_mono _ _ Ej). unfold e0 in *. lia.
Qed.

Theorem SFsqrt_correct x :
  finite32 x -> 0 <= B2R x -> rounds_to (sqrt (B2R x)) (SFsqrt 24 128 x).
Proof.
  intros Hx P.
  destruct (finite32_cases x Hx) as [N|(m & e & -> & Hb)].
  - assert (Z : B2R x = 0) by lra.
    destruct x as [s|s| |s m e]; try (destruct Hx as [_ F]; discriminate F).
    + cbn [SFsqrt]. rewrite Z, sqrt_0. rewrite <- Z.
      apply rounds_to_exact; apply Hx.
    + exfalso. destruct s; cbn [B2R cond_Zopp] in Z.
      * change (Z.neg m) with (- Z.pos m)%Z in Z. rewrite F2R_opp in Z.
        pose proof (F2R_pos (Z.pos m) e ltac:(lia)). lra.
      * pose proof (F2R_pos (Z.pos m) e ltac:(lia)). lra.
  - cbn [SFsqrt B2R cond_Zopp].
    pose proof (SFsqrt_core_binary_spec m e) as K.
    destruct (SFsqrt_core_binary 24 128 (Z.pos m) e) as [[q e'] l].
    destruct (K q e' l eq_refl) as (Hq & Hl & HP).
    exact (binary_round_aux_correct false q e' l _ Hq Hl HP).
Qed.

(** The square root of a finite non-negative number is finite, non-negative
    and at most [2^64]. *)
Lemma SFsqrt_finite x :
  finite32 x -> 0 <= B2R x ->
  finite32 (SFsqrt 24 128 x) /\ 0 <= B2R (SFsqrt 24 128 x) <= bpow 64.
Proof.
  intros Hx P. pose proof (SFsqrt_correct x Hx P) as R.
  assert (H0 : finite32 (S754_zero false)) by (split; reflexivity).
  assert (Hc : finite32 (S754_finite false 8388608 41)) by (split; reflexivity).
  assert (Vc : B2R (S754_finite false 8388608 41) = bpow 64).
  { change (F2R (2 ^ 23) 41 = bpow 64). rewrite F2R_bpow by lia. reflexivity. }
  assert (B : 0 <= sqrt (B2R x) <= bpow 64).
  { split; [apply sqrt_pos|].
    rewrite <- (sqrt_bpow_double 64). apply sqrt_le_1_alt.
    pose proof (B2R_lt_bpow128 x (proj1 Hx) (proj2 Hx)) as U.
    apply Rabs_def2 in U. change (2 * 64)%Z with 128%Z. lra. }
  destruct (rounds_to_finite32 _ _ (S754_zero false) (S754_finite false 8388608 41)
              R H0 Hc ltac:(rewrite Vc; exact B)) as [F V].
  rewrite Vc in V. split; [exact F|exact V].
Qed.
End SquareRoot.

(** ** The transient detector *)

Section TransientDetectorFacts.
Local Open Scope R_scope.





(** A non-zero value has one representation in the format. *)
Lemma bounded_value_inj m1 e1 m2 e2 :
  bounded 24 128 m1 e1 = true -> bounded 24 128 m2 e2 = true ->
  F2R (Z.pos m1) e1 = F2R (Z.pos m2) e2 -> m1 = m2 /\ e1 = e2.
Proof.
  intros B1 B2 E.
  destruct (bounded_inv m1 e1 B1) as [C1 _], (bounded_inv m2 e2 B2) as [C2 _].
  pose proof (F2R_digits_bounds (Z.pos m1) e1 ltac:(lia)) as [L1 U1].
  pose proof (F2R_digits_bounds (Z.pos m2) e2 ltac:(lia)) as [L2 U2].
  change (Zdigits2 (Z.pos m1)) with (Z.pos (digits2_pos m1)) in *.
  change (Zdigits2 (Z.pos m2)) with (Z.pos (digits2_pos m2)) in *.
  assert (A1 : (Z.pos (digits2_pos m1) - 1 + e1 < Z.pos (digits2_pos m2) + e2)%Z).
  { apply bpow_lt_inv. lra. }
  assert (A2 : (Z.pos (digits2_pos m2) - 1 + e2 < Z.pos (digits2_pos m1) + e1)%Z).
  { apply bpow_lt_inv. lra. }
  assert (Ee : e1 = e2) by lia.
  split; [|exact Ee]. subst e2.
  assert (H1 : (Z.pos m1 <= Z.pos m2)%Z) by (apply (F2R_le_inv _ _ e1); lra).
  assert (H2 : (Z.pos m2 <= Z.pos m1)%Z) by (apply (F2R_le_inv _ _ e1); lra).
  lia.
Qed.

Lemma finite32_value_inj a b :
  finite32 a -> finite32 b -> B2R a = B2R b -> 0 < B2R a -> a = b.
Proof.
  intros Ha Hb E P.
  destruct (finite32_cases a Ha) as [N|(ma & ea & -> & Ba)]; [lra|].
  destruct (finite32_cases b Hb) as [N|(mb & eb & -> & Bb)]; [lra|].
  cbn [B2R cond_Zopp] in E.
  destruct (bounded_value_inj ma ea mb eb Ba Bb E) as [-> ->]. reflexivity.
Qed.





Section TransientFacts.
#[local] Existing Instance b32.
Local Open Scope arith_scope.
Import Transient.





End TransientFacts.

Section TransientClaims.
#[local] Existing Instance b32.
Local Open Scope arith_scope.
Import Transient.





End TransientClaims.
End TransientDetectorFacts.

Section GainRuleLoopFacts.
Local Open Scope arith_scope.

(** ** The gain rules as loops *)

Section GainRuleLoops.
Context {A : Arith}.

Lemma write_loop_length (f : nat -> num) hi (G : list num) :
  length (for_range 0 hi (fun k G => aset G k (f k)) G) = length G.
Proof.
  unfold for_range.
  apply (for_loop_update_length (fun k _ => f k)).
Qed.

Lemma write_loop_beyond (f : nat -> num) hi (G : list num) j :
  (hi < j)%nat ->
  aget (for_range 0 hi (fun k G => aset G k (f k)) G) j = aget G j.
Proof.
  intros Hj. destruct (Nat.lt_ge_cases j (length G)) as [L|L].
  - unfold for_range. rewrite for_loop_write by exact L.
    destruct (Nat.leb_spec 0 j), (Nat.ltb_spec j (0 + (S hi - 0)));
      simpl; auto; lia.
  - rewrite !aget_overflow; auto. rewrite write_loop_length. exact L.
Qed.

Lemma write_loop_writes_bins (f : nat -> num) hi (G : list num) :
  writes_bins hi f G (for_range 0 hi (fun k G => aset G k (f k)) G).
Proof.
  split; [apply write_loop_length|]. split.
  - intros k H1 H2. apply for_range_write; assumption.
  - intros k H. apply write_loop_beyond. exact H.
Qed.

(** X1: each of the four rules overwrites the bins 0..[fft_size_2] of the
    gain array that lie inside it and nothing else; for spectral gating, power
    subtraction and nonlinear power subtraction the gain written at bin [k]
    is a function of the signal and the noise threshold at bin [k] alone, for
    wideband gating it is one value for the frame. *)
Theorem gain_rules_write_bins (snr_influence : num) fft_size_2
    (spectrum noise_thresholds Gk : list num) :
  writes_bins fft_size_2
    (fun k => spectral_gating_bin (aget spectrum k) (aget noise_thresholds k))
    Gk (spectral_gating fft_size_2 spectrum noise_thresholds Gk) /\
  writes_bins fft_size_2
    (fun k => power_sustraction_bin (aget spectrum k) (aget noise_thresholds k))
    Gk (power_sustraction fft_size_2 spectrum noise_thresholds Gk) /\
  writes_bins fft_size_2
    (fun k => nonlinear_power_sustraction_bin snr_influence (aget spectrum k)
                (aget noise_thresholds k))
    Gk (nonlinear_power_sustraction snr_influence fft_size_2 spectrum
          noise_thresholds Gk) /\
  writes_bins fft_size_2
    (fun _ => wideband_gating_bin
                (fst (wideband_sums fft_size_2 spectrum noise_thresholds))
                (snd (wideband_sums fft_size_2 spectrum noise_thresholds)))
    Gk (wideband_gating fft_size_2 spectrum noise_thresholds Gk).
Proof.
  split; [apply write_loop_writes_bins|].
  split; [apply write_loop_writes_bins|].
  split; [apply write_loop_writes_bins|].
  unfold wideband_gating.
  destruct (wideband_sums fft_size_2 spectrum noise_thresholds) as [x n].
  apply write_loop_writes_bins.
Qed.
End GainRuleLoops.

(** ** The emptiness test *)

Section Emptiness.
Context {A : Arith}.

Lemma is_empty_loop_false_iff (spectrum : list num) n : forall k,
  is_empty_loop spectrum n k = false <->
  exists j, (k <= j < k + n)%nat /\ (aget spectrum j [>] FLT_MIN) = true.
Proof.
  induction n as [|n IH]; intros k; simpl.
  - split; [discriminate|]. intros (j & Hj & _). lia.
  - destruct (aget spectrum k [>] FLT_MIN) eqn:T.
    + split; [|reflexivity]. intros _. exists k. split; [lia|exact T].
    + rewrite IH. split.
      * intros (j & Hj & Tj). exists j. split; [lia|exact Tj].
      * intros (j & Hj & Tj). exists j. split; [|exact Tj].
        destruct (Nat.eq_dec j k) as [->|Hne]; [congruence|lia].
Qed.

Lemma is_empty_loop_ext (s1 s2 : list num) n : forall k,
  (forall j, (k <= j < k + n)%nat -> aget s1 j = aget s2 j) ->
  is_empty_loop s1 n k = is_empty_loop s2 n k.
Proof.
  induction n as [|n IH]; intros k H; simpl; [reflexivity|].
  rewrite (H k) by lia. rewrite (IH (S k)); [reflexivity|].
  intros j Hj. apply H. lia.
Qed.

(** X2: [is_empty] answers [false] exactly when some bin from 1 to [N]
    exceeds [FLT_MIN]; the DC bin is not looked at, whatever it holds. *)
Theorem is_empty_ignores_dc (spectrum : list num) (N : nat) (dc : num) :
  (is_empty spectrum N = false <->
   exists k, (1 <= k <= N)%nat /\ (aget spectrum k [>] FLT_MIN) = true) /\
  is_empty (aset spectrum 0 dc) N = is_empty spectrum N.
Proof.
  split.
  - unfold is_empty. rewrite is_empty_loop_false_iff. split.
    + intros (j & Hj & T). exists j. split; [lia|exact T].
    + intros (j & Hj & T). exists j. split; [lia|exact T].
  - unfold is_empty. apply is_empty_loop_ext. intros j Hj.
    apply aget_aset_other. lia.
Qed.
End Emptiness.

(** ** Comparisons of exact arithmetic *)

Section RealComparisons.

Lemma Rltb_spec a b : RealArith.Rltb a b = true <-> (a < b)%R.
Proof.
  unfold RealArith.Rltb. destruct (Rlt_dec a b); split; intros; auto; discriminate.
Qed.

Lemma Rltb_false_iff a b : RealArith.Rltb a b = false <-> (b <= a)%R.
Proof.
  unfold RealArith.Rltb. destruct (Rlt_dec a b); split; intros; auto;
    try discriminate; lra.
Qed.
End RealComparisons.
End GainRuleLoopFacts.

Section SuppressionFacts.
Local Open Scope arith_scope.

(** ** The suppression stage, bin by bin *)

Section SuppressionStage.
Context {A : Arith} (M : Libm) {E : Estimators}.

Lemma get_denoised_spectrum_value (s : FFTDenoiser E) k :
  (k < length (denoised_spectrum s))%nat -> (1 <= k <= half_fft_size s)%nat ->
  aget (denoised_spectrum (get_denoised_spectrum s)) k =
  aget (fft_spectrum s) k [*] aget (gain_spectrum s) k.
Proof.
  intros Hk Hr. unfold get_denoised_spectrum, for_range.
  rewrite (for_loop_field (@denoised_spectrum A E) (@set_denoised_spectrum A E)
             (fun k s x => aget (fft_spectrum s) k [*] aget (gain_spectrum s) k))
    by reflexivity.
  rewrite (for_loop_update
             (fun k x => aget (fft_spectrum s) k [*] aget (gain_spectrum s) k))
    by exact Hk.
  destruct (Nat.leb_spec 1 k), (Nat.ltb_spec k (1 + (S (half_fft_size s) - 1)));
    simpl; auto; lia.
Qed.

(** What [get_denoised_spectrum] leaves as it is. *)
Lemma get_denoised_spectrum_others (s : FFTDenoiser E) :
  let s' := get_denoised_spectrum s in
  fft_spectrum s' = fft_spectrum s /\ gain_spectrum s' = gain_spectrum s /\
  residual_spectrum s' = residual_spectrum s /\
  processed_fft_spectrum s' = processed_fft_spectrum s /\
  half_fft_size s' = half_fft_size s.
Proof.
  unfold get_denoised_spectrum, for_range.
  apply (for_loop_inv (fun s' =>
    fft_spectrum s' = fft_spectrum s /\ gain_spectrum s' = gain_spectrum s /\
    residual_spectrum s' = residual_spectrum s /\
    processed_fft_spectrum s' = processed_fft_spectrum s /\
    half_fft_size s' = half_fft_size s) _ 1); auto.
Qed.

Lemma get_residual_spectrum_value (s : FFTDenoiser E) w k :
  (w [>] #0) = false ->
  (k < length (residual_spectrum s))%nat -> (1 <= k <= half_fft_size s)%nat ->
  aget (residual_spectrum (get_residual_spectrum s w)) k =
  aget (fft_spectrum s) k [-] aget (denoised_spectrum s) k.
Proof.
  intros Hw Hk Hr. unfold get_residual_spectrum. cbv zeta. rewrite Hw.
  unfold for_range.
  rewrite (for_loop_field (@residual_spectrum A E) (@set_residual_spectrum A E)
             (fun k s x => aget (fft_spectrum s) k [-] aget (denoised_spectrum s) k))
    by reflexivity.
  rewrite (for_loop_update
             (fun k x => aget (fft_spectrum s) k [-] aget (denoised_spectrum s) k))
    by exact Hk.
  destruct (Nat.leb_spec 1 k), (Nat.ltb_spec k (1 + (S (half_fft_size s) - 1)));
    simpl; auto; lia.
Qed.

Lemma get_residual_spectrum_others (s : FFTDenoiser E) w :
  (w [>] #0) = false ->
  let s' := get_residual_spectrum s w in
  fft_spectrum s' = fft_spectrum s /\ gain_spectrum s' = gain_spectrum s /\
  denoised_spectrum s' = denoised_spectrum s /\
  processed_fft_spectrum s' = processed_fft_spectrum s /\
  half_fft_size s' = half_fft_size s.
Proof.
  intros Hw. unfold get_residual_spectrum. cbv zeta. rewrite Hw. unfold for_range.
  apply (for_loop_inv (fun s' =>
    fft_spectrum s' = fft_spectrum s /\ gain_spectrum s' = gain_spectrum s /\
    denoised_spectrum s' = denoised_spectrum s /\
    processed_fft_spectrum s' = processed_fft_spectrum s /\
    half_fft_size s' = half_fft_size s) _ 1); auto.
Qed.

Lemma get_final_spectrum_gain (s : FFTDenoiser E) rl ra :
  gain_spectrum (get_final_spectrum s rl ra) = gain_spectrum s.
Proof.
  unfold get_final_spectrum, for_range. destruct rl.
  - apply (for_loop_inv (fun s' => gain_spectrum s' = gain_spectrum s) _ 1); auto.
  - apply (for_loop_inv (fun s' => gain_spectrum s' = gain_spectrum s) _ 1); auto.
Qed.

(** The values the suppression stage leaves at a bin, spectrum by spectrum. *)
Lemma suppression_stage_bins (s : FFTDenoiser E) k :
  let p := denoise_parameters s in
  is_empty (power_spectrum s) (half_fft_size s) = false ->
  learn_noise p = false ->
  is_noise_estimation_available E (noise_estimation s) = true ->
  (whitening_factor p [>] #0) = false ->
  (1 <= k <= half_fft_size s)%nat ->
  (k < length (denoised_spectrum s))%nat ->
  (k < length (residual_spectrum s))%nat ->
  (k < length (processed_fft_spectrum s))%nat ->
  let gain :=
    snd (gain_estimation_run E (gain_estimation s) (power_spectrum s)
           (noise_profile_values (noise_profile s)) (gain_spectrum s)
           (transient_threshold p) (masking_ceiling_limit p [/] #100)
           (release_time p) (noise_rescale p)) in
  let final := fft_denoiser_run_processing M s in
  let frame_k := aget (fft_spectrum s) k in
  gain_spectrum final = gain /\
  aget (denoised_spectrum final) k = frame_k [*] aget gain k /\
  aget (residual_spectrum final) k = frame_k [-] frame_k [*] aget gain k /\
  aget (processed_fft_spectrum final) k =
    (if residual_listen p then aget (residual_spectrum final) k
     else aget (denoised_spectrum final) k
          [+] aget (residual_spectrum final) k
              [*] from_db_to_cv M (reduction_amount p [*] #(-1))).
Proof.
  intros p He Hl Ha Hw Hr Hd Hs Hp gain final frame_k.
  unfold final, gain, fft_denoiser_run_processing. fold p.
  rewrite He, Hl, Ha. cbn [negb].
  destruct (gain_estimation_run _ _ _ _ _ _ _ _ _) as [ge g]. cbv zeta. cbn [snd].
  set (s1 := set_gain_spectrum g (set_gain_estimation ge s)).
  pose proof (get_denoised_spectrum_value s1 k Hd Hr) as V2.
  pose proof (get_denoised_spectrum_others s1) as O2. cbv zeta in O2.
  set (s2 := get_denoised_spectrum s1) in *.
  destruct O2 as (o21 & o22 & o23 & o24 & o25).
  pose proof (get_residual_spectrum_value s2 (whitening_factor p) k Hw
                ltac:(rewrite o23; exact Hs) ltac:(rewrite o25; exact Hr)) as V3.
  pose proof (get_residual_spectrum_others s2 (whitening_factor p) Hw) as O3.
  cbv zeta in O3.
  set (s3 := get_residual_spectrum s2 (whitening_factor p)) in *.
  destruct O3 as (o31 & o32 & o33 & o34 & o35).
  set (ra := from_db_to_cv M (reduction_amount p [*] #(-1))).
  pose proof (get_final_spectrum_processed s3 (residual_listen p) ra k
                ltac:(rewrite o34, o24; exact Hp)
                ltac:(rewrite o35, o25; exact Hr)) as V4.
  destruct (get_final_spectrum_others s3 (residual_listen p) ra) as [D R].
  pose proof (get_final_spectrum_gain s3 (residual_listen p) ra) as G.
  rewrite D, R, G.
  assert (E1 : aget (denoised_spectrum s3) k = frame_k [*] aget g k).
  { rewrite o33, V2. reflexivity. }
  assert (E2 : aget (residual_spectrum s3) k = frame_k [-] frame_k [*] aget g k).
  { rewrite V3, o21, V2. reflexivity. }
  split; [rewrite o32, o22; reflexivity|].
  split; [exact E1|]. split; [exact E2|]. exact V4.
Qed.

(** X5: on a frame that is not empty, with learning off, a noise profile
    available and whitening off, the guarded block of [fft_denoiser_run]
    leaves, at every bin [k] from 1 to [half_fft_size]: the gain spectrum of
    the gain estimator, [denoised[k] = frame[k] * gain[k]],
    [residual[k] = frame[k] - denoised[k]], and the processed spectrum
    [denoised[k] + residual[k] * r], or [residual[k]] under residual listen. *)
Theorem suppression_stage_values (s : FFTDenoiser E) k :
  let p := denoise_parameters s in
  is_empty (power_spectrum s) (half_fft_size s) = false ->
  learn_noise p = false ->
  is_noise_estimation_available E (noise_estimation s) = true ->
  (whitening_factor p [>] #0) = false ->
  (1 <= k <= half_fft_size s)%nat ->
  (k < length (denoised_spectrum s))%nat ->
  (k < length (residual_spectrum s))%nat ->
  (k < length (processed_fft_spectrum s))%nat ->
  let gain :=
    snd (gain_estimation_run E (gain_estimation s) (power_spectrum s)
           (noise_profile_values (noise_profile s)) (gain_spectrum s)
           (transient_threshold p) (masking_ceiling_limit p [/] #100)
           (release_time p) (noise_rescale p)) in
  let final := fft_denoiser_run_processing M s in
  let frame_k := aget (fft_spectrum s) k in
  gain_spectrum final = gain /\
  aget (denoised_spectrum final) k = frame_k [*] aget gain k /\
  aget (residual_spectrum final) k = frame_k [-] frame_k [*] aget gain k /\
  aget (processed_fft_spectrum final) k =
    (if residual_listen p then aget (residual_spectrum final) k
     else aget (denoised_spectrum final) k
          [+] aget (residual_spectrum final) k
              [*] from_db_to_cv M (reduction_amount p [*] #(-1))).
Proof.
  exact (suppression_stage_bins s k).
Qed.

(** X6: [fft_denoiser_run] writes back the entries 0..[half_fft_size] of the
    frame only: every entry above [half_fft_size] is returned as it was
    received, and the frame keeps its length. *)
Theorem fft_denoiser_run_upper_entries (self : FFTDenoiser E) fft_spectrum k :
  (half_fft_size self < k)%nat ->
  aget (snd (fft_denoiser_run M self fft_spectrum)) k = aget fft_spectrum k /\
  length (snd (fft_denoiser_run M self fft_spectrum)) = length fft_spectrum.
Proof.
  intros Hk. unfold fft_denoiser_run. cbn [snd].
  pose proof (fft_denoiser_run_analysis_fields M self fft_spectrum) as K.
  cbv zeta in K. destruct K as (_ & _ & _ & _ & a5 & _).
  set (a := fft_denoiser_run_analysis M self fft_spectrum) in *.
  pose proof (fft_denoiser_run_processing_frame M a) as (_ & _ & _ & p4 & _).
  set (p := fft_denoiser_run_processing M a) in *.
  pose proof (fft_denoiser_soft_bypass_frame p) as (_ & _ & _ & b4 & _).
  split; [|apply memcpy_length].
  apply memcpy_get_beyond. rewrite div4_mul_succ, b4, p4, a5. exact Hk.
Qed.
End SuppressionStage.

Section SuppressionStageExamples.
#[local] Existing Instance b32.

Lemma fft_denoiser_run_upper_entries_witness :
  aget (snd (fft_denoiser_run example_libm (example_denoiser 4) [#1; #3; #5; #7])) 3
  = #7.
Proof.
  refine (proj1 (fft_denoiser_run_upper_entries example_libm (example_denoiser 4)
                   [#1; #3; #5; #7] 3 _)).
  simpl; lia.
Defined.
End SuppressionStageExamples.

(** ** The suppression stage on an example over the reals *)

Section SuppressionStageReal.

Lemma example_transparent_frame_not_empty :
  is_empty
    (power_spectrum
       (fft_denoiser_run_analysis Rlibm example_transparent_denoiser
          [@of_int Rarith 0; @of_int Rarith 1; @of_int Rarith 1; @of_int Rarith 0]))
    (half_fft_size example_transparent_denoiser) = false.
Proof.
  cbn -[pow FLT_MIN].
  rewrite (proj2 (Rltb_spec _ _)); [reflexivity|].
  pose proof FLT_MIN_real_lt_1. lra.
Qed.

Lemma suppression_stage_values_witness :
  let s := fft_denoiser_run_analysis Rlibm example_transparent_denoiser
             [@of_int Rarith 0; @of_int Rarith 1; @of_int Rarith 1;
              @of_int Rarith 0] in
  aget (denoised_spectrum (fft_denoiser_run_processing Rlibm s)) 1 =
  @mul Rarith (aget (fft_spectrum s) 1)
    (aget (snd (gain_estimation_run profiled_estimators (gain_estimation s)
                  (power_spectrum s) (noise_profile_values (noise_profile s))
                  (gain_spectrum s) (transient_threshold (denoise_parameters s))
                  (@div Rarith (masking_ceiling_limit (denoise_parameters s))
                     (@of_int Rarith 100))
                  (release_time (denoise_parameters s))
                  (noise_rescale (denoise_parameters s)))) 1).
Proof.
  intros s.
  refine (proj1 (proj2 (suppression_stage_values Rlibm s 1
            example_transparent_frame_not_empty eq_refl eq_refl _ _ _ _ _))).
  - apply Rltb_false_iff. apply Rle_refl.
  - split; [apply le_n|apply le_S, le_n].
  - apply le_S, le_n.
  - apply le_S, le_n.
  - apply le_S, le_n.
Defined.
End SuppressionStageReal.
End SuppressionFacts.

Section SilentDetectorFacts.
Local Open Scope arith_scope.

(** ** The transient detector as the file leaves it *)

Section SilentDetector.
#[local] Existing Instance b32.
Import Transient.

Lemma memcpy_zeros (dst src : list (@num b32)) (n : nat) :
  (forall k, aget dst k = #0) -> (forall k, aget src k = #0) ->
  forall k, aget (memcpy dst src (sizeof_float * n)) k = #0.
Proof.
  intros Hd Hs k. unfold memcpy.
  replace ((sizeof_float * n) mod sizeof_float)%nat with 0%nat.
  - destruct (Nat.lt_ge_cases k (length dst)) as [L|L].
    + rewrite memcpy_whole_get by exact L.
      destruct ((0 <=? k) && (k <? 0 + sizeof_float * n / sizeof_float))%nat; auto.
    + apply aget_overflow. rewrite memcpy_whole_length. exact L.
  - symmetry. rewrite Nat.mul_comm. apply Nat.Div0.mod_mul.
Qed.

Lemma zero_flux_step :
  (#0 : @num b32)
  [+] ((sqrtf #0 [-] sqrtf #0) [+] fabsf (sqrtf #0 [-] sqrtf #0)) [/] #2 = #0.
Proof. reflexivity. Qed.

Lemma spectral_flux_loop_zeros (power prev_power : list (@num b32)) half_fft_size :
  (forall k, aget power k = #0) -> (forall k, aget prev_power k = #0) ->
  forall fuel i,
    spectral_flux_loop fuel power prev_power half_fft_size i #0 = #0.
Proof.
  intros Hp Hq. induction fuel as [|fuel IH]; intros i; [reflexivity|].
  cbn [spectral_flux_loop].
  destruct (#(Z.of_nat i) [<=] half_fft_size); [|reflexivity].
  cbv zeta. rewrite Hp, Hq, zero_flux_step. apply IH.
Qed.

Lemma zero_mean_update (w : @num b32) :
  #1 [<] w = true -> (#0 : @num b32) [+] (#0 [-] #0) [/] w = #0.
Proof.
  destruct w as [s|s| |s m e]; try destruct s; intros H;
    try discriminate H; reflexivity.
Qed.

Lemma zero_threshold_not_exceeded (x : @num b32) :
  (#0 : @num b32) [>] x [*] #0 = false.
Proof. destruct x as [s|s| |s m e]; try destruct s; reflexivity. Qed.

Lemma transient_detector_run_at_rest (self : TransientDetector)
    (transient_threshold : @num b32) :
  detector_at_rest self ->
  detector_at_rest (fst (transient_detector_run self transient_threshold)) /\
  snd (transient_detector_run self transient_threshold) = false.
Proof.
  intros (Hp & Hq & Hm).
  assert (F : spectral_flux (S (half_fft_size self)) (spectrum self)
                (previous_spectrum self) #(Z.of_nat (half_fft_size self)) = #0).
  { apply spectral_flux_loop_zeros; assumption. }
  assert (Mn : rolling_mean (fst (transient_detector_run self transient_threshold))
               = #0).
  { unfold transient_detector_run. cbn [fst rolling_mean]. rewrite F, Hm.
    destruct (window_count self [+] #1 [>] #1) eqn:T; [|reflexivity].
    apply zero_mean_update. exact T. }
  split; [split; [|split]|].
  - exact Hp.
  - unfold transient_detector_run. cbn [fst previous_spectrum].
    apply memcpy_zeros; assumption.
  - exact Mn.
  - unfold transient_detector_run in *. cbn [fst snd rolling_mean] in *.
    rewrite Mn, F. apply zero_threshold_not_exceeded.
Qed.

Lemma detector_reachable_at_rest (self : TransientDetector) :
  detector_reachable self -> detector_at_rest self.
Proof.
  induction 1 as [n | self thr H IH].
  - repeat split; intros; apply aget_calloc.
  - apply transient_detector_run_at_rest. exact IH.
Qed.

(** X8: as the file stands, the detector never reports a transient: no
    function writes [self->spectrum] after [calloc], so on every detector
    the file produces, and for every threshold (finite, infinite or NaN),
    the spectral flux is 0 and [transient_detector_run] returns [false]. *)
Theorem transient_detector_never_fires (self : TransientDetector)
    (transient_threshold : @num b32) :
  detector_reachable self ->
  spectral_flux (S (half_fft_size self)) (spectrum self) (previous_spectrum self)
    #(Z.of_nat (half_fft_size self)) = #0 /\
  snd (transient_detector_run self transient_threshold) = false.
Proof.
  intros H. pose proof (detector_reachable_at_rest self H) as R.
  split.
  - destruct R as (Hp & Hq & _). apply spectral_flux_loop_zeros; assumption.
  - apply transient_detector_run_at_rest. exact R.
Qed.

Lemma transient_detector_never_fires_witness :
  snd (transient_detector_run
         (fst (transient_detector_run (transient_detector_initialize 1024) #2))
         #4) = false.
Proof.
  refine (proj2 (transient_detector_never_fires
                   (fst (transient_detector_run (transient_detector_initialize 1024)
                           #2)) #4 _)).
  apply detector_run, detector_initialized.
Defined.
End SilentDetector.
End SilentDetectorFacts.

(** ** [plugin_state_configure]: which map it keeps *)

Module PluginConfigureFacts.
Import PluginState PluginConfigure.
Local Open Scope Z_scope.

Lemma find_map_urids U features : forall self,
  urids (find_map U self features) = urids self.
Proof.
  unfold find_map. induction features as [|f rest IH]; intros self; simpl.
  - reflexivity.
  - rewrite IH. destruct (String.eqb (URI f) (LV2_URID__map U)); reflexivity.
Qed.

Lemma find_map_last U features : forall self,
  map (find_map U self features) =
  match last_map U features with
  | Some f => data f
  | None => map self
  end.
Proof.
  unfold find_map. induction features as [|f rest IH]; intros self; simpl.
  - reflexivity.
  - rewrite IH. destruct (last_map U rest) as [g|]; [reflexivity|].
    destruct (String.eqb (URI f) (LV2_URID__map U)); reflexivity.
Qed.

(** X9: [plugin_state_configure] is decided by the last entry of [features]
    for the URID map: it keeps the map of that entry, asks it for the four
    ids and succeeds, or fails when the entry holds a null pointer, whatever
    the state held before.  Without such an entry it answers by the [map]
    field the caller passed in, which [plugin_state_initialize] does not set.
    A failing call leaves the four ids as they were. *)
Theorem plugin_state_configure_spec (U : URIs) (self : ConfiguredState)
    (features : list LV2_Feature) :
  let kept :=
    match last_map U features with
    | Some f => data f
    | None => map self
    end in
  plugin_state_configure U self features =
  match kept with
  | Some m => ({| map := Some m; urids := mapped_urids U m |}, true)
  | None => ({| map := None; urids := urids self |}, false)
  end.
Proof.
  cbv zeta. unfold plugin_state_configure.
  pose proof (find_map_last U features self) as L.
  pose proof (find_map_urids U features self) as V.
  destruct (find_map U self features) as [m' u'].
  cbn [map urids] in *. rewrite <- L, V. destruct m'; reflexivity.
Qed.
End PluginConfigureFacts.

(** ** [plugin_state_restorestate] on any host state *)

Module PluginRestore.
Import PluginState.
Local Open Scope Z_scope.

(** X10: whatever the host holds, [plugin_state_restorestate] succeeds only
    on a noise-profile value of exactly [sizeof(noise_profile)] = 8 bytes,
    and then the bytes it hands to [set_noise_profile], those after an atom
    header of 8 bytes, are none; a value of any other length, such as a
    vector of magnitudes, makes it return [false]. *)
Theorem restorestate_hands_over_nothing (self : PluginState)
    (handle : LV2_State_Handle) :
  (forall fft_size body,
     plugin_state_restorestate self handle = Some (fft_size, body) ->
     body = [] /\
     exists fftsize saved,
       retrieve handle (property_fft_size self) = Some fftsize /\
       sv_type fftsize = atom_Int self /\
       fft_size = int_of_bytes (sv_value fftsize) /\
       retrieve handle (property_saved_noise_profile self) = Some saved /\
       length (sv_value saved) = 8%nat /\
       sv_type saved = atom_Vector self) /\
  (forall saved,
     retrieve handle (property_saved_noise_profile self) = Some saved ->
     length (sv_value saved) <> 8%nat ->
     plugin_state_restorestate self handle = None).
Proof.
  unfold plugin_state_restorestate. split.
  - intros fft_size body H.
    destruct (retrieve handle (property_fft_size self)) as [v1|]; [|discriminate H].
    destruct (Z.eqb_spec (sv_type v1) (atom_Int self)) as [T1|T1];
      cbn [negb] in H; [|discriminate H].
    destruct (retrieve handle (property_saved_noise_profile self)) as [v2|];
      [|discriminate H].
    destruct (Nat.eqb_spec (length (sv_value v2)) sizeof_pointer) as [L|L];
      cbn [negb orb] in H; [|discriminate H].
    destruct (Z.eqb_spec (sv_type v2) (atom_Vector self)) as [T2|T2];
      cbn [negb] in H; [|discriminate H].
    injection H as <- <-. split.
    + unfold LV2_ATOM_BODY. apply skipn_all2. rewrite L. unfold sizeof_pointer,
        sizeof_LV2_Atom. lia.
    + exists v1, v2. repeat split; assumption.
  - intros saved R L. rewrite R.
    destruct (retrieve handle (property_fft_size self)) as [v1|]; [|reflexivity].
    destruct (negb (sv_type v1 =? atom_Int self)); [reflexivity|].
    destruct (Nat.eqb_spec (length (sv_value saved)) sizeof_pointer) as [E|E];
      [exfalso; apply L; exact E|reflexivity].
Qed.

Lemma restorestate_hands_over_nothing_witness :
  let self := {| atom_Int := 1; atom_Vector := 2; property_fft_size := 3;
                 property_saved_noise_profile := 4 |} in
  let handle := plugin_state_savestate self (fun _ => Byte.x00) [] 2048 64 in
  plugin_state_restorestate self handle = Some (2048, []) /\
  exists fftsize saved,
    retrieve handle (property_fft_size self) = Some fftsize /\
    sv_type fftsize = atom_Int self /\
    2048 = int_of_bytes (sv_value fftsize) /\
    retrieve handle (property_saved_noise_profile self) = Some saved /\
    length (sv_value saved) = 8%nat /\
    sv_type saved = atom_Vector self.
Proof.
  intros self handle.
  assert (H : plugin_state_restorestate self handle = Some (2048, []))
    by (vm_compute; reflexivity).
  split; [exact H|].
  exact (proj2 (proj1 (restorestate_hands_over_nothing self handle) 2048 [] H)).
Defined.
End PluginRestore.

Section BinInfoFacts.
Local Open Scope arith_scope.

(** ** [get_info_from_bins] *)

Section BinInfo.
Context {A : Arith} (M : Libm).

Lemma triple_loop (fp fm fph : nat -> num) : forall n k0 (P Mg Ph : list num),
  for_loop n k0
    (fun k '(P, Mg, Ph) => (aset P k (fp k), aset Mg k (fm k), aset Ph k (fph k)))
    (P, Mg, Ph) =
  (for_loop n k0 (fun k P => aset P k (fp k)) P,
   for_loop n k0 (fun k Mg => aset Mg k (fm k)) Mg,
   for_loop n k0 (fun k Ph => aset Ph k (fph k)) Ph).
Proof.
  induction n as [|n IH]; intros k0 P Mg Ph; simpl; [reflexivity|]. apply IH.
Qed.

Lemma for_loop_ext_from {St : Type} (b1 b2 : nat -> St -> St) (lo : nat) :
  (forall k s, (lo <= k)%nat -> b1 k s = b2 k s) ->
  forall n k s, (lo <= k)%nat -> for_loop n k b1 s = for_loop n k b2 s.
Proof.
  intros H. induction n as [|n IH]; intros k s Hk; simpl; [reflexivity|].
  rewrite H by exact Hk. apply IH. lia.
Qed.

Lemma get_info_from_bins_loops (P Mg Ph : list num) half fft_size buf :
  get_info_from_bins M P Mg Ph half fft_size buf =
  (for_loop (S half - 1) 1
     (fun k P => aset P k (fst (fst (bin_info M half fft_size buf k))))
     (aset P 0 (fst (fst (bin_info M half fft_size buf 0)))),
   for_loop (S half - 1) 1
     (fun k Mg => aset Mg k (snd (fst (bin_info M half fft_size buf k))))
     (aset Mg 0 (snd (fst (bin_info M half fft_size buf 0)))),
   for_loop (S half - 1) 1
     (fun k Ph => aset Ph k (snd (bin_info M half fft_size buf k)))
     (aset Ph 0 (snd (bin_info M half fft_size buf 0)))).
Proof.
  unfold get_info_from_bins, for_range. cbv zeta.
  rewrite <- triple_loop.
  apply (for_loop_ext_from _ _ 1); [|lia].
  intros k [[P1 M1] Ph1] Hk. unfold bin_info.
  replace (1 <=? k)%nat with true by (symmetry; apply Nat.leb_le; exact Hk).
  cbn [andb]. destruct (k <? half)%nat; reflexivity.
Qed.

Lemma write_from_one (f : nat -> num) half (G : list num) k :
  (k <= half)%nat -> (k < length G)%nat ->
  aget (for_loop (S half - 1) 1 (fun k G => aset G k (f k)) (aset G 0 (f 0%nat))) k
  = f k.
Proof.
  intros Hk Hl. rewrite for_loop_write by (rewrite aset_length; exact Hl).
  destruct k as [|k].
  - simpl. apply aget_aset_same. exact Hl.
  - destruct (Nat.leb_spec 1 (S k)), (Nat.ltb_spec (S k) (1 + (S half - 1)));
      simpl; auto; lia.
Qed.

Lemma write_from_one_beyond (f : nat -> num) half (G : list num) k :
  (half < k)%nat ->
  aget (for_loop (S half - 1) 1 (fun k G => aset G k (f k)) (aset G 0 (f 0%nat))) k
  = aget G k.
Proof.
  intros Hk. destruct (Nat.lt_ge_cases k (length G)) as [L|L].
  - rewrite for_loop_write by (rewrite aset_length; exact L).
    destruct (Nat.leb_spec 1 k), (Nat.ltb_spec k (1 + (S half - 1)));
      simpl; try lia; apply aget_aset_other; lia.
  - rewrite !aget_overflow; auto.
    rewrite (for_loop_update_length (fun k _ => f k)), aset_length. exact L.
Qed.

(** [get_info_from_bins] writes the bins 0..[half_fft_size] of the three
    arrays and nothing above them. *)
Lemma get_info_from_bins_bins (P Mg Ph : list num) half fft_size buf k :
  let '(P', Mg', Ph') := get_info_from_bins M P Mg Ph half fft_size buf in
  ((k <= half)%nat ->
   ((k < length P)%nat -> aget P' k = fst (fst (bin_info M half fft_size buf k))) /\
   ((k < length Mg)%nat -> aget Mg' k = snd (fst (bin_info M half fft_size buf k))) /\
   ((k < length Ph)%nat -> aget Ph' k = snd (bin_info M half fft_size buf k))) /\
  ((half < k)%nat ->
   aget P' k = aget P k /\ aget Mg' k = aget Mg k /\ aget Ph' k = aget Ph k).
Proof.
  rewrite get_info_from_bins_loops. split.
  - intros Hk. repeat split; intros Hl.
    + apply (write_from_one (fun k => fst (fst (bin_info M half fft_size buf k))));
        assumption.
    + apply (write_from_one (fun k => snd (fst (bin_info M half fft_size buf k))));
        assumption.
    + apply (write_from_one (fun k => snd (bin_info M half fft_size buf k)));
        assumption.
  - intros Hk. repeat split.
    + apply (write_from_one_beyond
               (fun k => fst (fst (bin_info M half fft_size buf k)))). exact Hk.
    + apply (write_from_one_beyond
               (fun k => snd (fst (bin_info M half fft_size buf k)))). exact Hk.
    + apply (write_from_one_beyond (fun k => snd (bin_info M half fft_size buf k))).
      exact Hk.
Qed.
End BinInfo.

Section BinInfoB32.
#[local] Existing Instance b32.
Local Open Scope R_scope.

Lemma pos_ext_infinity : pos_ext (S754_infinity false).
Proof.
  repeat split. cbn [Bext]. pose proof (bpow_gt_0 128). lra.
Qed.

Lemma SFmul_self_pos_ext x : finite32 x -> pos_ext (SFmul 24 128 x x).
Proof.
  intros Hx. destruct x as [s|s| |s m e]; try (destruct Hx as [_ F]; discriminate F).
  - destruct s; repeat split; simpl; lra.
  - apply (rounds_to_pos_ext (B2R (S754_finite s m e) * B2R (S754_finite s m e))).
    + apply SFmul_finite_correct; apply Hx.
    + nra.
Qed.

Lemma SFadd_pos_ext a b : pos_ext a -> pos_ext b -> pos_ext (SFadd 24 128 a b).
Proof.
  intros Ha Hb.
  destruct (pos_ext_cases a Ha) as [[Fa Pa]| ->],
           (pos_ext_cases b Hb) as [[Fb Pb]| ->].
  - apply (rounds_to_pos_ext (B2R a + B2R b)); [|lra].
    apply SFadd_correct; try apply Fa; apply Fb.
  - destruct a as [s|s| |s m e]; try (destruct Fa as [_ F]; discriminate F);
      apply pos_ext_infinity.
  - destruct b as [s|s| |s m e]; try (destruct Fb as [_ F]; discriminate F);
      apply pos_ext_infinity.
  - apply pos_ext_infinity.
Qed.

Lemma SFsqrt_pos_ext a : pos_ext a -> pos_ext (SFsqrt 24 128 a).
Proof.
  intros Ha. destruct (pos_ext_cases a Ha) as [[Fa Pa]| ->].
  - apply (rounds_to_pos_ext (sqrt (B2R a))); [|apply sqrt_pos].
    apply SFsqrt_correct; assumption.
  - apply pos_ext_infinity.
Qed.

(** X12: in single precision, on a frame of finite values, the power
    [get_info_from_bins] writes at a bin up to [half_fft_size] is never a NaN
    and never negative (it may overflow to [+infinity]), and neither is the
    magnitude at the bins strictly between 0 and [half_fft_size]. *)
Theorem power_spectrum_not_negative (P Mg Ph buf : list (@num b32))
    (M : @Libm b32) half fft_size k :
  (forall j, finite32 (aget buf j)) ->
  (k <= half)%nat -> (k < length P)%nat -> (k < length Mg)%nat ->
  let info := get_info_from_bins M P Mg Ph half fft_size buf in
  pos_ext (aget (fst (fst info)) k) /\
  ((1 <= k < half)%nat -> pos_ext (aget (snd (fst info)) k)).
Proof.
  intros Hb Hk HP HM info.
  pose proof (get_info_from_bins_bins M P Mg Ph half fft_size buf k) as K.
  fold info in K. destruct info as [[P' Mg'] Ph'] eqn:Ei. cbn [fst snd] in *.
  destruct K as [K _]. destruct (K Hk) as (KP & KM & _).
  rewrite (KP HP), (KM HM). unfold bin_info.
  assert (S1 : pos_ext (aget buf k [*] aget buf k)) by (apply SFmul_self_pos_ext, Hb).
  assert (S2 : pos_ext (aget buf (fft_size - k) [*] aget buf (fft_size - k)))
    by (apply SFmul_self_pos_ext, Hb).
  destruct (Nat.leb_spec 1 k), (Nat.ltb_spec k half); cbn [andb fst snd];
    (split; [|intros Hr; try lia]).
  - apply SFadd_pos_ext; assumption.
  - apply SFsqrt_pos_ext, SFadd_pos_ext; assumption.
  - exact S1.
  - exact S1.
  - exact S1.
Qed.

Lemma power_spectrum_not_negative_witness :
  pos_ext
    (aget (fst (fst (get_info_from_bins example_libm
                       [#0; #0; #0] [#0; #0; #0] [#0; #0; #0] 2 4
                       [#1; #3; #(-2); #4]))) 1).
Proof.
  refine (proj1 (power_spectrum_not_negative [#0; #0; #0] [#0; #0; #0] [#0; #0; #0]
                   [#1; #3; #(-2); #4] example_libm 2 4 1 _ _ _ _)).
  - intros [|[|[|[|[|j]]]]]; split; reflexivity.
  - apply le_S, le_n.
  - simpl; lia.
  - simpl; lia.
Defined.

(** The binade of the square root of a positive number of the format. *)
Lemma sqrt_magnitude m e :
  bounded 24 128 m e = true ->
  exists k, (-125 <= k <= 128)%Z /\
            bpow (k - 1) <= sqrt (F2R (Z.pos m) e) < bpow k.
Proof.
  intros Hb. destruct (bounded_inv m e Hb) as [C1 C2].
  pose proof (F2R_digits_bounds (Z.pos m) e ltac:(lia)) as [L U].
  pose proof (Zdigits2_pos (Z.pos m) ltac:(lia)) as Hd.
  change (Z.pos (digits2_pos m)) with (Zdigits2 (Z.pos m)) in C1.
  set (d := Zdigits2 (Z.pos m)) in *. set (x := F2R (Z.pos m) e) in *.
  pose proof (Z.div_mod (d + e) 2 ltac:(lia)) as Dm.
  pose proof (Z.mod_pos_bound (d + e) 2 ltac:(lia)) as Md.
  set (j := ((d + e) / 2)%Z) in *.
  assert (Px : 0 <= x) by (pose proof (bpow_gt_0 (d - 1 + e)); lra).
  destruct (Z.eq_dec ((d + e) mod 2) 0) as [Ev|Od].
  - exists j. split; [lia|].
    assert (T : (d + e = 2 * j)%Z) by lia.
    split.
    + rewrite <- (sqrt_bpow_double (j - 1)). apply sqrt_le_1_alt.
      pose proof (bpow_le (2 * (j - 1)) (d - 1 + e) ltac:(lia)). lra.
    + rewrite <- (sqrt_bpow_double j). apply sqrt_lt_1_alt.
      rewrite <- T. split; [exact Px|exact U].
  - exists (j + 1)%Z. split; [lia|].
    assert (T : (d + e = 2 * j + 1)%Z) by lia.
    split.
    + replace (j + 1 - 1)%Z with j by lia.
      rewrite <- (sqrt_bpow_double j). apply sqrt_le_1_alt.
      replace (2 * j)%Z with (d - 1 + e)%Z by lia. exact L.
    + rewrite <- (sqrt_bpow_double (j + 1)). apply sqrt_lt_1_alt.
      pose proof (bpow_le (d + e) (2 * (j + 1)) ltac:(lia)). lra.
Qed.

(** The square root never underflows: its rounding error is relative. *)
Lemma SFsqrt_relative x :
  finite32 x -> 0 <= B2R x ->
  finite32 (SFsqrt 24 128 x) /\
  Rabs (B2R (SFsqrt 24 128 x) - sqrt (B2R x)) <= bpow (-24) * sqrt (B2R x).
Proof.
  intros Hx P. pose proof (SFsqrt_correct x Hx P) as R.
  destruct (SFsqrt_finite x Hx P) as [Fr _]. split; [exact Fr|].
  destruct (finite32_cases x Hx) as [N|(m & e & -> & Hb)].
  - assert (Z : B2R x = 0) by lra. rewrite Z, sqrt_0 in *.
    destruct (rounds_to_representable _ _ (S754_zero false) R eq_refl eq_refl eq_refl)
      as [_ E].
    rewrite E. rewrite Rminus_0_r, Rabs_R0. lra.
  - cbn [B2R cond_Zopp] in *.
    destruct (sqrt_magnitude m e Hb) as (k & Hk & L & U).
    pose proof (sqrt_pos (F2R (Z.pos m) e)) as Ps.
    pose proof (rounds_to_error _ _ k R Fr ltac:(lia)
                  ltac:(apply Rabs_nonneg_lt; assumption)) as Er.
    rewrite fexp32_eq, Z.max_l in Er by lia.
    replace (k - 24)%Z with ((k - 1) + (-23))%Z in Er by lia.
    rewrite bpow_add in Er.
    assert (H23 : bpow (-23) = 2 * bpow (-24)).
    { replace (-23)%Z with (1 + -24)%Z by lia. rewrite bpow_add, bpow_1. ring. }
    rewrite H23 in Er. pose proof (bpow_gt_0 (-24)) as P24.
    apply Rabs_le. nra.
Qed.

(** X11: in single precision, on a frame of finite values, the two spectra
    [get_info_from_bins] writes agree up to rounding.  At the bins strictly
    between 0 and [half_fft_size] the magnitude is [sqrtf] of the power
    written, and while the power has not overflowed the square of the
    magnitude differs from the power by at most [2^-23 + 2^-48] of it.  At
    bin 0 and at bin [half_fft_size] the magnitude is the real part with its
    sign, and the power is its square rounded to nearest. *)
Theorem magnitude_squared_near_power (P Mg Ph buf : list (@num b32))
    (M : @Libm b32) half fft_size k :
  (forall j, finite32 (aget buf j)) ->
  (k <= half)%nat -> (k < length P)%nat -> (k < length Mg)%nat ->
  let info := get_info_from_bins M P Mg Ph half fft_size buf in
  let power := aget (fst (fst info)) k in
  let magnitude := aget (snd (fst info)) k in
  if ((1 <=? k) && (k <? half))%nat
  then magnitude = SFsqrt 24 128 power /\
       (finite32 power ->
        finite32 magnitude /\
        Rabs (B2R magnitude * B2R magnitude - B2R power)
        <= (bpow (-23) + bpow (-48)) * B2R power)
  else magnitude = aget buf k /\
       rounds_to (B2R magnitude * B2R magnitude) power.
Proof.
  intros Hb Hk HP HM info power magnitude.
  pose proof (get_info_from_bins_bins M P Mg Ph half fft_size buf k) as K.
  fold info in K. unfold power, magnitude.
  destruct info as [[P' Mg'] Ph'] eqn:Ei. cbn [fst snd] in *.
  destruct K as [K _]. destruct (K Hk) as (KP & KM & _).
  rewrite (KP HP), (KM HM). unfold bin_info.
  destruct ((1 <=? k) && (k <? half))%nat; cbn [fst snd].
  - split; [reflexivity|]. intros Fp.
    set (p := aget buf k [*] aget buf k
              [+] aget buf (fft_size - k) [*] aget buf (fft_size - k)) in *.
    assert (Pp : pos_ext p).
    { apply SFadd_pos_ext; apply SFmul_self_pos_ext, Hb. }
    assert (Np : 0 <= B2R p).
    { destruct Pp as (_ & _ & B). rewrite (finite32_Bext p Fp) in B. exact B. }
    destruct (SFsqrt_relative p Fp Np) as [Fm Em].
    split; [exact Fm|].
    change (@sqrtf b32 p) with (SFsqrt 24 128 p).
    set (r := B2R (SFsqrt 24 128 p)) in *.
    pose proof (sqrt_pos (B2R p)) as Py.
    pose proof (sqrt_sqrt (B2R p) Np) as Sq.
    set (y := sqrt (B2R p)) in *.
    assert (H24 : bpow (-23) = 2 * bpow (-24)).
    { replace (-23)%Z with (1 + -24)%Z by lia. rewrite bpow_add, bpow_1. ring. }
    assert (H48 : bpow (-48) = bpow (-24) * bpow (-24)).
    { rewrite <- bpow_add. reflexivity. }
    pose proof (bpow_gt_0 (-24)) as P24.
    rewrite H24, H48, <- Sq.
    apply Rabs_le_inv in Em.
    replace (r * r - y * y) with ((r - y) * (2 * y + (r - y))) by ring.
    apply Rabs_le.
    set (dl := r - y) in *. set (ep := bpow (-24)) in *.
    split; nra.
  - split; [reflexivity|].
    change (@mul b32 (aget buf k) (aget buf k))
      with (SFmul 24 128 (aget buf k) (aget buf k)).
    apply SFmul_correct; apply Hb.
Qed.

Lemma magnitude_squared_near_power_witness :
  let info :=
    get_info_from_bins example_libm [#0; #0; #0] [#0; #0; #0] [#0; #0; #0] 2 4
      [#1; #3; #(-2); #4] in
  let power := aget (fst (fst info)) 1 in
  let magnitude := aget (snd (fst info)) 1 in
  finite32 power /\
  magnitude = SFsqrt 24 128 power /\
  Rabs (B2R magnitude * B2R magnitude - B2R power)
  <= (bpow (-23) + bpow (-48)) * B2R power.
Proof.
  intros info power magnitude.
  assert (Fp : finite32 power) by (split; vm_compute; reflexivity).
  destruct (magnitude_squared_near_power [#0; #0; #0] [#0; #0; #0]
              [#0; #0; #0] [#1; #3; #(-2); #4] example_libm 2 4 1) as [E B].
  - intros [|[|[|[|[|j]]]]]; split; reflexivity.
  - apply le_S, le_n.
  - simpl; lia.
  - simpl; lia.
  - split; [exact Fp|]. split; [exact E|]. exact (proj2 (B Fp)).
Defined.
End BinInfoB32.
End BinInfoFacts.

Section WhiteningFacts.
Local Open Scope arith_scope.

(** ** The whitening of the residual spectrum *)

Section WhiteningLoops.
Context {A : Arith} {E : Estimators}.

Lemma whitening_second_loop_keeps_max (s1 : FFTDenoiser E) (w : num) h :
  let s2 :=
    for_range 1 h (fun k self =>
      if aget (residual_spectrum self) k [>] FLT_MIN then
        let self :=
          set_whitened_residual_spectrum
            (aset (whitened_residual_spectrum self) k
               (aget (residual_spectrum self) k [/] aget (residual_max_spectrum self) k))
            self in
        set_residual_spectrum
          (aset (residual_spectrum self) k
             ((#1 [-] w) [*] aget (residual_spectrum self) k
              [+] w [*] aget (whitened_residual_spectrum self) k))
          self
      else self) s1 in
  residual_max_spectrum s2 = residual_max_spectrum s1 /\
  whitening_window_count s2 = whitening_window_count s1.
Proof.
  cbv zeta. unfold for_range.
  apply (for_loop_inv (fun s' => residual_max_spectrum s' = residual_max_spectrum s1 /\
                                 whitening_window_count s'
                                 = whitening_window_count s1) _ 1); auto.
  intros j s2 _ H.
  destruct (aget (residual_spectrum s2) j [>] FLT_MIN); exact H.
Qed.

Lemma residual_spectrum_whitening_max (s : FFTDenoiser E) w k :
  (1 <= k <= half_fft_size s)%nat ->
  (k < length (residual_max_spectrum s))%nat ->
  aget (residual_max_spectrum (residual_spectrum_whitening s w)) k =
  residual_max_update (S (whitening_window_count s)) (max_decay_rate s)
    (aget (residual_spectrum s) k) (aget (residual_max_spectrum s) k) /\
  whitening_window_count (residual_spectrum_whitening s w)
  = S (whitening_window_count s).
Proof.
  intros Hr Hk. unfold residual_spectrum_whitening. cbv zeta.
  set (s0 := set_whitening_window_count (S (whitening_window_count s)) s).
  match goal with
  | |- context [for_range 1 (half_fft_size ?s1') _ ?s1'] =>
      match s1' with
      | for_range _ _ _ _ => set (s1 := s1')
      end
  end.
  destruct (whitening_second_loop_keeps_max s1 w (half_fft_size s1)) as [F2 F3].
  cbv zeta in F2, F3. rewrite F2, F3. clear F2 F3.
  split.
  - unfold s1, for_range.
    rewrite (for_loop_ext _
               (fun k s => set_residual_max_spectrum
                  (aset (residual_max_spectrum s) k
                     (residual_max_update (whitening_window_count s)
                        (max_decay_rate s) (aget (residual_spectrum s) k)
                        (aget (residual_max_spectrum s) k))) s)).
    + rewrite (for_loop_field (@residual_max_spectrum A E)
                 (@set_residual_max_spectrum A E)
                 (fun k s x => residual_max_update (whitening_window_count s)
                                 (max_decay_rate s) (aget (residual_spectrum s) k) x))
        by reflexivity.
      rewrite (for_loop_update
                 (fun k x => residual_max_update (whitening_window_count s0)
                               (max_decay_rate s0) (aget (residual_spectrum s0) k) x))
        by exact Hk.
      destruct (Nat.leb_spec 1 k),
               (Nat.ltb_spec k (1 + (S (half_fft_size s0) - 1)));
        simpl; auto; change (half_fft_size s0) with (half_fft_size s) in *; lia.
    + intros j s2. unfold residual_max_update.
      destruct (#(Z.of_nat (whitening_window_count s2)) [>] #1); reflexivity.
  - unfold s1, for_range.
    apply (for_loop_inv (fun s' => whitening_window_count s'
                                   = S (whitening_window_count s)) _ 1); auto.
    intros j s2 _ H.
    destruct (#(Z.of_nat (whitening_window_count s2)) [>] #1); exact H.
Qed.
End WhiteningLoops.

Section WhiteningFloor.
#[local] Existing Instance b32.

(** Two values that are no NaN are always ordered one way or the other. *)
Lemma SFltb_false_SFleb (a b : B32.float32) :
  is_nan a = false -> is_nan b = false -> SFltb a b = false -> SFleb b a = true.
Proof.
  intros Na Nb. unfold SFltb, SFleb. rewrite (SFcompare_swap a b).
  assert (exists c, SFcompare a b = Some c) as [c ->].
  { destruct a, b; try discriminate; simpl; eauto. }
  destruct c; simpl; intros; try discriminate; reflexivity.
Qed.

(** The larger of any value and the floor is not below the floor. *)
Lemma fmaxf_floor_le (r : B32.float32) :
  SFleb B32.b32_0_02 (B32.b32_fmaxf r B32.b32_0_02) = true.
Proof.
  unfold B32.b32_fmaxf.
  destruct (is_nan r) eqn:N.
  - destruct r; try discriminate. reflexivity.
  - destruct (SFltb r B32.b32_0_02) eqn:L.
    + destruct r; try discriminate; reflexivity.
    + pose proof (SFltb_false_SFleb r B32.b32_0_02 N eq_refl L) as H.
      destruct r; try discriminate; exact H.
Qed.

(** The order of the comparison passes from the floor through a value to a
    larger one, for all values of the type. *)
Lemma floor_le_lt_trans (m x : B32.float32) :
  SFleb B32.b32_0_02 m = true -> SFltb m x = true -> SFleb B32.b32_0_02 x = true.
Proof.
  unfold B32.b32_0_02, SFleb, SFltb. intros H1 H2.
  destruct m as [sm|sm| |sm mm em]; try discriminate;
    try (destruct sm; discriminate);
  destruct x as [sx|sx| |sx mx ex]; try discriminate;
    try (destruct sx; try discriminate; reflexivity);
    try (destruct sm; try discriminate; destruct sx; try discriminate; reflexivity).
  destruct sm; [discriminate|]. destruct sx; [discriminate|].
  cbn [SFcompare] in *.
  change (PosDef.Pos.compare_cont Eq) with Pos.compare in *.
  destruct (Z.compare_spec (-29) em) as [E1|E1|E1]; try discriminate;
  destruct (Z.compare_spec em ex) as [E2|E2|E2]; try discriminate;
  destruct (Z.compare_spec (-29) ex) as [E3|E3|E3]; try reflexivity; try lia.
  destruct (Pos.compare_spec 10737418 mm) as [P1|P1|P1]; try discriminate;
  destruct (Pos.compare_spec mm mx) as [P2|P2|P2]; try discriminate;
  destruct (Pos.compare_spec 10737418 mx) as [P3|P3|P3]; try reflexivity; lia.
Qed.

Lemma residual_max_update_floor count decay (residual_k max_k : B32.float32) :
  SFleb B32.b32_0_02 (residual_max_update count decay residual_k max_k) = true.
Proof.
  unfold residual_max_update.
  destruct (#(Z.of_nat count) [>] #1); [|apply fmaxf_floor_le].
  change WHITENING_FLOOR with B32.b32_0_02.
  change (@fmaxf b32) with B32.b32_fmaxf. change (@mul b32) with (SFmul 24 128).
  pose proof (fmaxf_floor_le residual_k) as F.
  set (m := B32.b32_fmaxf residual_k B32.b32_0_02) in *.
  set (x := SFmul 24 128 max_k decay).
  unfold B32.b32_fmaxf at 1.
  destruct (SFltb m x) eqn:L.
  - pose proof (floor_le_lt_trans m x F L) as T.
    destruct m, x; try exact T; try exact F; discriminate.
  - destruct m, x; try exact F; discriminate.
Qed.

(** X13: in single precision, after [residual_spectrum_whitening]
    every bin from 1 to [half_fft_size] of [residual_max_spectrum], the
    divisor of the whitened residual, compares as not below the floor 0.02:
    it is never a NaN, never zero and never negative, whatever the residual,
    the earlier maxima and the decay rate are (NaN and infinities included).
    The call adds one to [whitening_window_count]. *)
Theorem whitening_divisor_not_below_floor {E : Estimators}
    (self : FFTDenoiser E) (whitening_factor : B32.float32) (k : nat) :
  (1 <= k <= half_fft_size self)%nat ->
  (k < length (residual_max_spectrum self))%nat ->
  let self' := residual_spectrum_whitening self whitening_factor in
  (WHITENING_FLOOR [<=] aget (residual_max_spectrum self') k) = true /\
  whitening_window_count self' = S (whitening_window_count self).
Proof.
  intros Hr Hk self'.
  destruct (residual_spectrum_whitening_max self whitening_factor k Hr Hk) as [V C].
  fold self' in V, C. split; [|exact C].
  rewrite V. apply residual_max_update_floor.
Qed.

Lemma whitening_divisor_not_below_floor_witness :
  let self := example_denoiser 4 in
  let self' := residual_spectrum_whitening self B32.b32_0_02 in
  ((1 <= 1 <= half_fft_size self)%nat /\
   (1 < length (residual_max_spectrum self))%nat) /\
  (WHITENING_FLOOR [<=] aget (residual_max_spectrum self') 1) = true /\
  whitening_window_count self' = S (whitening_window_count self).
Proof.
  cbv zeta. split.
  - vm_compute. split; [split|]; lia.
  - apply (whitening_divisor_not_below_floor (example_denoiser 4) B32.b32_0_02 1).
    + vm_compute. lia.
    + vm_compute. lia.
Defined.
End WhiteningFloor.
End WhiteningFacts.

Section IdleFrameFacts.
Local Open Scope arith_scope.

(** ** Frames the denoiser does not process *)

Section IdleFrames.
Context {A : Arith} (M : Libm) {E : Estimators}.

(** Outside the suppression block nothing writes the processed spectrum. *)
Lemma fft_denoiser_run_processing_idle (s : FFTDenoiser E) :
  is_empty (power_spectrum s) (half_fft_size s) = true \/
  learn_noise (denoise_parameters s) = true \/
  is_noise_estimation_available E (noise_estimation s) = false ->
  processed_fft_spectrum (fft_denoiser_run_processing M s)
  = processed_fft_spectrum s.
Proof.
  intros H. unfold fft_denoiser_run_processing.
  destruct (is_empty (power_spectrum s) (half_fft_size s)); [reflexivity|].
  cbn [negb].
  destruct (learn_noise (denoise_parameters s)).
  - destruct (noise_estimation_run _ _ _ _) as [ne ns]. reflexivity.
  - destruct (is_noise_estimation_available E (noise_estimation s)).
    + destruct H as [H|[H|H]]; discriminate H.
    + reflexivity.
Qed.

(** X14: on a frame that is empty, or while the noise is learnt, or while no
    noise profile is available, [fft_denoiser_run] computes no processed
    spectrum: at every bin [k] from 1 to [half_fft_size - 1] the entry it
    returns is the blend of the frame with the processed spectrum the
    previous call left in the state, [(1 - wet_dry) * frame[k] +
    processed[k] * wet_dry], and this entry is what the state keeps as
    processed spectrum for the next call. *)
Theorem idle_frame_blends_previous_output (self : FFTDenoiser E)
    (frame : list num) (k : nat) :
  well_formed self -> length frame = fft_size self ->
  (1 <= k < half_fft_size self)%nat ->
  is_empty (power_spectrum (fft_denoiser_run_analysis M self frame))
    (half_fft_size self) = true \/
  learn_noise (denoise_parameters self) = true \/
  is_noise_estimation_available E (noise_estimation self) = false ->
  let result := fft_denoiser_run M self frame in
  let blend :=
    (#1 [-] wet_dry (fst result)) [*] aget frame k
    [+] aget (processed_fft_spectrum self) k [*] wet_dry (fst result) in
  aget (snd result) k = blend /\
  aget (processed_fft_spectrum (fst result)) k = blend.
Proof.
  intros (W1 & W2 & W3) Hf Hk Hidle result blend.
  unfold blend, result, fft_denoiser_run. cbn [fst snd].
  pose proof (fft_denoiser_run_analysis_fields M self frame) as K. cbv zeta in K.
  destruct K as (a1 & a2 & a3 & a4 & a5 & a6 & a7 & a8 & _).
  set (a := fft_denoiser_run_analysis M self frame) in *.
  assert (Hp : processed_fft_spectrum (fft_denoiser_run_processing M a)
               = processed_fft_spectrum self).
  { rewrite <- a3. apply fft_denoiser_run_processing_idle.
    rewrite a5, a6, a8. exact Hidle. }
  pose proof (fft_denoiser_run_processing_frame M a)
    as (p1 & p2 & p3 & p4 & p5 & p6 & p7).
  set (p := fft_denoiser_run_processing M a) in *.
  pose proof (fft_denoiser_soft_bypass_frame p) as (b1 & b2 & b3 & b4 & b5 & b6 & b7).
  assert (Hh : (half_fft_size self <= fft_size self)%nat).
  { rewrite W1. apply Nat.Div0.div_le_upper_bound. lia. }
  assert (V : aget (processed_fft_spectrum (fft_denoiser_soft_bypass p)) k =
              (#1 [-] wet_dry (fft_denoiser_soft_bypass p)) [*] aget frame k
              [+] aget (processed_fft_spectrum self) k
                  [*] wet_dry (fft_denoiser_soft_bypass p)).
  { rewrite fft_denoiser_soft_bypass_processed by (rewrite Hp; lia).
    replace ((1 <=? k) && (k <=? half_fft_size p))%nat with true.
    - rewrite b2, p1, a1, Hp.
      rewrite memcpy_get_copied; [reflexivity|rewrite div4_mul; lia|lia].
    - symmetry. apply andb_true_iff. split; apply Nat.leb_le; [lia|].
      rewrite p4, a5. lia. }
  split; [|exact V].
  rewrite memcpy_get_copied.
  - exact V.
  - rewrite div4_mul_succ. rewrite b4, p4, a5. lia.
  - lia.
Qed.
End IdleFrames.

Section IdleFrameExamples.
#[local] Existing Instance b32.

Lemma idle_frame_blends_previous_output_witness :
  let result := fft_denoiser_run example_libm (example_denoiser 4) [#1; #3; #0; #0] in
  aget (snd result) 1
  = (#1 [-] wet_dry (fst result)) [*] #3
    [+] aget (processed_fft_spectrum (example_denoiser 4)) 1
        [*] wet_dry (fst result).
Proof.
  refine (proj1 (idle_frame_blends_previous_output example_libm
                   (example_denoiser 4) [#1; #3; #0; #0] 1 _ _ _ _)).
  - repeat split.
  - reflexivity.
  - simpl; lia.
  - right. right. reflexivity.
Defined.
End IdleFrameExamples.
End IdleFrameFacts.

Section WithoutSnrFacts.
Local Open Scope R_scope.
Local Open Scope arith_scope.

(** ** Nonlinear power subtraction with the SNR influence off *)

Section WithoutSnr.
#[local] Existing Instance b32.

(** Every finite number of the format is a multiple of [2^-149]. *)
Lemma finite32_grid x : finite32 x -> exists M : Z, B2R x = IZR M * bpow (-149).
Proof.
  intros [V F]. destruct x as [s| | |s m e]; try discriminate F.
  - exists 0%Z. simpl. lra.
  - destruct (bounded_inv m e V) as [C _].
    exists (cond_Zopp s (Z.pos m) * 2 ^ (e + 149))%Z.
    cbn [B2R]. unfold F2R. rewrite mult_IZR, <- bpow_IZR by lia.
    rewrite Rmult_assoc, <- bpow_add. f_equal. f_equal. lia.
Qed.

(** A difference of two finite numbers that is positive is rounded to a
    positive number: there is no underflow to zero. *)
Lemma SFsub_positive s n :
  finite32 s -> finite32 n -> B2R n < B2R s ->
  SFltb (S754_zero false) (SFsub 24 128 s n) = true.
Proof.
  intros Fs Fn H.
  pose proof (SFsub_correct s n (proj1 Fs) (proj1 Fn) (proj2 Fs) (proj2 Fn)) as R.
  destruct (finite32_grid s Fs) as [Ms Es], (finite32_grid n Fn) as [Mn En].
  pose proof (bpow_gt_0 (-149)) as Hu.
  assert (L : (Mn + 1 <= Ms)%Z).
  { rewrite Es, En in H. apply Rmult_lt_reg_r in H; [|exact Hu].
    apply lt_IZR in H. lia. }
  apply IZR_le in L. rewrite plus_IZR in L.
  assert (D : bpow (-149) <= B2R s - B2R n).
  { rewrite Es, En. nra. }
  pose proof (rt_lo _ _ R (S754_finite false 1 (-149)) eq_refl eq_refl) as K.
  cbn [B2R cond_Zopp] in K. unfold F2R in K. rewrite Rmult_1_l in K.
  specialize (K D).
  apply (SFltb_Bext (S754_zero false) _ eq_refl (rt_valid _ _ R) eq_refl
           (rt_nonnan _ _ R)).
  cbn [Bext B2R]. lra.
Qed.

(** A difference that is not positive is not rounded to a positive number. *)
Lemma SFsub_not_positive s n :
  finite32 s -> finite32 n -> B2R s <= B2R n ->
  SFltb (S754_zero false) (SFsub 24 128 s n) = false.
Proof.
  intros Fs Fn H.
  pose proof (SFsub_correct s n (proj1 Fs) (proj1 Fn) (proj2 Fs) (proj2 Fn)) as R.
  pose proof (rt_hi _ _ R (S754_zero false) eq_refl eq_refl) as K.
  cbn [B2R] in K. specialize (K ltac:(lra)).
  destruct (SFltb (S754_zero false) (SFsub 24 128 s n)) eqn:T; [|reflexivity].
  apply (SFltb_Bext (S754_zero false) _ eq_refl (rt_valid _ _ R) eq_refl
           (rt_nonnan _ _ R)) in T.
  cbn [Bext B2R] in T. lra.
Qed.

(** The product of 1 and a positive finite number is that number. *)
Lemma SFmul_one n :
  finite32 n -> 0 < B2R n -> SFmul 24 128 (S754_finite false 8388608 (-23)) n = n.
Proof.
  intros Fn P.
  pose proof (SFmul_correct _ n (proj1 finite32_one) (proj1 Fn)
                (proj2 finite32_one) (proj2 Fn)) as R.
  rewrite B2R_one, Rmult_1_l in R.
  destruct (rounds_to_representable _ _ n R (proj1 Fn) (proj2 Fn) eq_refl) as [F E].
  apply finite32_value_inj; auto.
  - split; [apply (rt_valid _ _ R)|exact F].
  - lra.
Qed.

(** With the SNR influence off, the gain of the over-subtraction formula is
    the gain of power subtraction. *)
Lemma nonlinear_gain_without_snr (snr s n : @num b32) :
  (snr [>] #0) = false -> finite32 s -> finite32 n -> n [>] FLT_MIN = true ->
  nonlinear_gain snr s n = power_sustraction_bin s n.
Proof.
  intros Hsnr Fs Fn En.
  pose proof (above_noise_floor_positive n Fn En) as Pn.
  unfold nonlinear_gain, power_sustraction_bin. rewrite Hsnr, En. cbv zeta.
  change (@mul b32 #1 n) with (SFmul 24 128 (S754_finite false 8388608 (-23)) n).
  rewrite (SFmul_one n Fn Pn).
  change (@sub b32 s n) with (SFsub 24 128 s n).
  destruct (s [>] #0) eqn:Es.
  - change (SFltb (S754_zero false) s = true) in Es.
    apply (SFltb_B2R _ _ (finite32_zero false) Fs) in Es. cbn [B2R] in Es.
    unfold MAX.
    destruct (s [>] n) eqn:Esn.
    + change (SFltb n s = true) in Esn. apply (SFltb_B2R _ _ Fn Fs) in Esn.
      assert (T : ((s [-] n) [>] #0) = true) by exact (SFsub_positive s n Fs Fn Esn).
      change (SFsub 24 128 s n) with (s [-] n).
      rewrite T. reflexivity.
    + change (SFltb n s = false) in Esn.
      assert (Hle : B2R s <= B2R n).
      { destruct (Rle_or_lt (B2R s) (B2R n)) as [L|L]; [exact L|].
        apply (SFltb_B2R _ _ Fn Fs) in L. congruence. }
      assert (T : ((s [-] n) [>] #0) = false)
        by exact (SFsub_not_positive s n Fs Fn Hle).
      change (SFsub 24 128 s n) with (s [-] n).
      rewrite T.
      destruct (finite32_positive s Fs Es) as (ms & es & ->). reflexivity.
  - change (SFltb (S754_zero false) s = false) in Es.
    assert (Hle : B2R s <= 0).
    { destruct (Rle_or_lt (B2R s) 0) as [L|L]; [exact L|].
      apply (SFltb_B2R _ _ (finite32_zero false) Fs) in L. cbn [B2R] in L.
      congruence. }
    destruct (s [>] n) eqn:Esn; [|reflexivity].
    change (SFltb n s = true) in Esn. apply (SFltb_B2R _ _ Fn Fs) in Esn. lra.
Qed.

(** X3: in single precision, with the SNR influence off (the test
    [snr_influence > 0.f] fails, so [alpha = 1.f]), nonlinear power
    subtraction computes at every bin it writes the gain [g] of power
    subtraction and returns [1.f - (1.f - g)]: where the noise threshold is
    above [FLT_MIN] the two rules differ by the rounding of these two
    subtractions, at most [2^-24], and elsewhere both write 1.  Both gains
    are in [[0, 1]]. *)
Theorem nonlinear_without_snr_rounds_power_sustraction (snr_influence : @num b32)
    fft_size_2 (spectrum noise_thresholds Gk : list (@num b32)) k :
  valid32 snr_influence = true -> (snr_influence [>] #0) = false ->
  finite32 (aget spectrum k) -> finite32 (aget noise_thresholds k) ->
  (k <= fft_size_2)%nat -> (k < length Gk)%nat ->
  let nonlinear :=
    aget (nonlinear_power_sustraction snr_influence fft_size_2 spectrum
            noise_thresholds Gk) k in
  let power := aget (power_sustraction fft_size_2 spectrum noise_thresholds Gk) k in
  nonlinear = (if aget noise_thresholds k [>] FLT_MIN
               then #1 [-] (#1 [-] power) else power) /\
  in_unit nonlinear /\ in_unit power /\
  Rabs (B2R nonlinear - B2R power) <= bpow (-24).
Proof.
  intros Vsnr Hsnr Fs Fn Hk Hl nonlinear power.
  unfold nonlinear, power, nonlinear_power_sustraction, power_sustraction.
  rewrite !for_range_write by assumption.
  set (s := aget spectrum k) in *. set (n := aget noise_thresholds k) in *.
  pose proof (power_sustraction_bin_unit s n Fs Fn) as Up.
  unfold nonlinear_power_sustraction_bin.
  destruct (n [>] FLT_MIN) eqn:En.
  - destruct (nonlinear_gain_unit snr_influence s n Vsnr Fs Fn En) as [Fg Bg].
    rewrite (nonlinear_gain_without_snr snr_influence s n Hsnr Fs Fn En) in *.
    destruct (nonlinear_clamp_unit _ Fg Bg) as (_ & _ & E & U & D).
    repeat split; auto; try apply U; try apply Up.
  - assert (E1 : power_sustraction_bin s n = #1).
    { unfold power_sustraction_bin. rewrite En. reflexivity. }
    rewrite E1. repeat split.
    unfold Rminus. rewrite Rplus_opp_r, Rabs_R0.
    pose proof (bpow_gt_0 (-24)). lra.
Qed.

Lemma nonlinear_without_snr_rounds_power_sustraction_witness :
  let nonlinear := aget (nonlinear_power_sustraction #0 1 [#3; #1] [#2; #2] [#0; #0]) 0 in
  let power := aget (power_sustraction 1 [#3; #1] [#2; #2] [#0; #0]) 0 in
  nonlinear = #1 [-] (#1 [-] power) /\
  Rabs (B2R nonlinear - B2R power) <= bpow (-24).
Proof.
  pose proof (nonlinear_without_snr_rounds_power_sustraction #0 1 [#3; #1] [#2; #2]
                [#0; #0] 0 eq_refl eq_refl ltac:(split; reflexivity)
                ltac:(split; reflexivity) ltac:(lia) ltac:(simpl; lia)) as H.
  cbv zeta in H. destruct H as (E & _ & _ & D).
  split; [exact E|exact D].
Defined.
End WithoutSnr.
End WithoutSnrFacts.
